(** * SSZ codec of firefly (package ssz): a shallow embedding

    The embedding follows the Go sources [ssz/types.go], [ssz/encode.go] and
    [ssz/decode.go].  The package is driven by [reflect]; a [reflect.Value] is
    modelled as a pair of a type descriptor ([type]) and an untyped value tree
    ([value]).  Three kinds of outcome are kept apart, as in Go: a call returns
    a nil error, returns a non-nil error, or panics.

    Scope of the type universe: no type of the universe has an [EncodeSSZ] or
    [DecodeSSZ] method, so [Implements(encoderInterface)] and
    [Implements(decoderInterface)] are false throughout and the two custom
    codec cases of [newTypeEncoder]/[newTypeDecoder] are never taken.
    Lengths of Go buffers (type [int], 64 bit) are modelled as unbounded
    integers; conversions to [uint8]..[uint64] are written out with their
    wrap-around. *)

From Stdlib Require Import ZArith Lia Bool.
From stdpp Require Import base list.

Local Open Scope Z_scope.

Scheme All for list.
Scheme All for prod.

(** ** Bytes and fixed-width conversions *)

(** Go's [byte(x)], [uint16(x)], [uint32(x)], [uint64(x)] conversions. *)
Definition to_uint8 (x : Z) : Z := x mod 2 ^ 8.
Definition to_uint16 (x : Z) : Z := x mod 2 ^ 16.
Definition to_uint32 (x : Z) : Z := x mod 2 ^ 32.
Definition to_uint64 (x : Z) : Z := x mod 2 ^ 64.

(** Go's [int8(b)] for a byte [b]: the same eight bits read as two's
    complement. *)
Definition to_int8 (b : Z) : Z :=
  let u := to_uint8 b in if u <? 128 then u else u - 256.

(** ** Errors and outcomes *)

(** [reflect.Kind], in the order of the Go declaration (the order matters for
    [isUint], which compares kinds). *)
Inductive Kind :=
| Invalid | Bool | Int | Int8 | Int16 | Int32 | Int64
| Uint | Uint8 | Uint16 | Uint32 | Uint64 | Uintptr
| Float32 | Float64 | Array | Interface | Ptr | Slice | String | Struct.

Definition Kind_ord (k : Kind) : Z :=
  match k with
  | Invalid => 0 | Bool => 1 | Int => 2 | Int8 => 3 | Int16 => 4 | Int32 => 5
  | Int64 => 6 | Uint => 7 | Uint8 => 8 | Uint16 => 9 | Uint32 => 10
  | Uint64 => 11 | Uintptr => 12 | Float32 => 13 | Float64 => 14
  | Array => 17 | Interface => 20 | Ptr => 22 | Slice => 23 | String => 24
  | Struct => 25
  end.

Definition Kind_eqb (a b : Kind) : bool := Kind_ord a =? Kind_ord b.

Inductive error :=
| ErrNotSerializable (k : Kind)  (* "ssz: type %v is not SSZ-serializable" *)
| ErrInterfaceSlice              (* "ssz: interface slice is not SSZ-serializable" *)
| ErrEmptyInterface              (* "ssz: empty interface is not supported by ssz" *)
| ErrEmptyPointer                (* "ssz: empty pointer is not supported by ssz" *)
| ErrEmptyBigInt                 (* "ssz: empty *big.Int is not supported by ssz" *)
| ErrNegativeBigInt              (* "ssz: cannot encode negative *big.Int" *)
| ErrBigIntWidth                 (* "ssz: only 9-32 bytes *big.Int are supported" *)
| errNoPointer                   (* "ssz: interface given to Decode must be a pointer" *)
| errDecodeIntoNil               (* "ssz: pointer given to Decode must not be nil" *)
| EOF                            (* io.EOF *)
| ErrUnexpectedEOF               (* io.ErrUnexpectedEOF *)
| ErrShortWrite                  (* io.ErrShortWrite *)
| ErrIO.                         (* an error of the caller's reader or writer *)

(** What a Go call of result type [error] does: it returns [nil], returns an
    error, or panics. *)
Inductive outcome :=
| Nil
| Err (e : error)
| Panic.

(** ** Type descriptors and values *)

(** [reflect.Type].  A struct field is a pair of [PkgPath == ""] (the field
    is exported) and the field's type.  [TBigInt] is [math/big.Int], a struct
    of kind [Struct] with the two unexported fields [neg bool] and
    [abs []Word]. *)
Inductive type :=
| TBool
| TInt | TInt8 | TInt16 | TInt32 | TInt64
| TUint | TUint8 | TUint16 | TUint32 | TUint64 | TUintptr
| TFloat32 | TFloat64
| TString
| TInterface
| TBigInt
| TPtr (elem : type)
| TArray (len : nat) (elem : type)
| TSlice (elem : type)
| TStruct (fields : list (bool * type)).

(** The contents of a [reflect.Value].  A slice carries its elements
    ([Len] of them) and the rest of its backing array up to [Cap]. *)
Inductive value :=
| VBool (b : bool)
| VInt (n : Z)
| VUint (n : Z)
| VFloat (bits : Z)
| VString (s : list Z)
| VBigInt (i : Z)
| VNilIface
| VIface (dyn : type) (v : value)
| VNilPtr
| VPtr (v : value)
| VArray (elems : list value)
| VSlice (isnil : bool) (elems : list value) (spare : list value)
| VStruct (fields : list value).

Definition Kind_of (t : type) : Kind :=
  match t with
  | TBool => Bool
  | TInt => Int | TInt8 => Int8 | TInt16 => Int16 | TInt32 => Int32
  | TInt64 => Int64
  | TUint => Uint | TUint8 => Uint8 | TUint16 => Uint16 | TUint32 => Uint32
  | TUint64 => Uint64 | TUintptr => Uintptr
  | TFloat32 => Float32 | TFloat64 => Float64
  | TString => String
  | TInterface => Interface
  | TBigInt => Struct
  | TPtr _ => Ptr
  | TArray _ _ => Array
  | TSlice _ => Slice
  | TStruct _ => Struct
  end.

(** ** ssz/types.go: the classifier *)

(** [isUint]: [t.Kind() >= reflect.Uint8 && t.Kind() <= reflect.Uint64]. *)
Definition isUint (t : type) : bool :=
  (Kind_ord Uint8 <=? Kind_ord (Kind_of t)) && (Kind_ord (Kind_of t) <=? Kind_ord Uint64).

(** [isByte]: kind [Uint8] and no [EncodeSSZ] method (none in this
    universe). *)
Definition isByte (typ : type) : bool := Kind_eqb (Kind_of typ) Uint8.

(** [isFixedType].  [None] is a panic: [typ.Elem()] of a type of kind
    [Interface] panics in [reflect].  The cases follow the order of the Go
    switch; for [big.Int] the struct case meets the slice-typed field [abs]
    and answers false. *)
Fixpoint isFixedType (typ : type) : option bool :=
  match typ with
  | TInterface => None
  | TPtr elem => isFixedType elem
  | TBool | TUint8 | TUint16 | TUint32 | TUint64 => Some true
  | TArray _ elem =>
      if isByte elem then Some true
      else if negb (Kind_eqb (Kind_of elem) Interface) then isFixedType elem
      else Some false
  | TSlice _ => Some false
  | TString => Some false
  | TStruct fields =>
      (fix fields_fixed (fs : list (bool * type)) : option bool :=
         match fs with
         | [] => Some true
         | (_, ft) :: fs' =>
             match isFixedType ft with
             | None => None
             | Some false => Some false
             | Some true => fields_fixed fs'
             end
         end) fields
  | TBigInt => Some false
  | _ => Some false
  end.

(** [getTypeSize] of a [reflect.Value].  [None] is a panic ([v.Index(0)] of
    an empty array, [isFixedType] of an interface type) or a value that does
    not have the type it is paired with.  [v.Elem()] of a nil interface or
    nil pointer is the zero [Value], of kind [Invalid], which takes the
    default case. *)
Fixpoint getTypeSize (t : type) (v : value) {struct v} : option Z :=
  match t, v with
  | TInterface, VNilIface => Some 0
  | TInterface, VIface dyn v' => getTypeSize dyn v'
  | TPtr _, VNilPtr => Some 0
  | TPtr elem, VPtr v' => getTypeSize elem v'
  | TBool, VBool _ => Some 1
  | TUint8, VUint _ => Some 1
  | TUint16, VUint _ => Some 2
  | TUint32, VUint _ => Some 4
  | TUint64, VUint _ => Some 8
  | TArray len elem, VArray elems =>
      if isByte elem then Some (Z.of_nat len)
      else
        match isFixedType t with
        | None => None
        | Some true =>
            match elems with
            | [] => None
            | v0 :: _ =>
                match getTypeSize elem v0 with
                | Some n => Some (Z.of_nat len * n)
                | None => None
                end
            end
        | Some false => Some 4
        end
  | TSlice _, VSlice _ _ _ => Some 4
  | TString, VString _ => Some 4
  | TStruct fields, VStruct vals =>
      match isFixedType t with
      | None => None
      | Some true =>
          (fix sum_fields (fs : list (bool * type)) (vs : list value) {struct vs} : option Z :=
             match fs, vs with
             | [], [] => Some 0
             | (_, ft) :: fs', fv :: vs' =>
                 match getTypeSize ft fv with
                 | Some n =>
                     match sum_fields fs' vs' with
                     | Some m => Some (n + m)
                     | None => None
                     end
                 | None => None
                 end
             | _, _ => None
             end) fields vals
      | Some false => Some 4
      end
  | TBigInt, VBigInt _ => Some 4
  | (TInt | TInt8 | TInt16 | TInt32 | TInt64), VInt _ => Some 0
  | (TUint | TUintptr), VUint _ => Some 0
  | (TFloat32 | TFloat64), VFloat _ => Some 0
  | _, _ => None
  end.

(** ** ssz/encode.go: the encoder state *)

Record encodeState := mkEncodeState {
  buffer : list Z;      (* accumulated output *)
  auxBuffer : list Z;   (* accumulated output of the variable-size parts *)
  scratch : list Z      (* [32]byte *)
}.

Definition buffer_Write (e : encodeState) (p : list Z) : encodeState :=
  mkEncodeState (buffer e ++ p) (auxBuffer e) (scratch e).

Definition auxBuffer_Write (e : encodeState) (p : list Z) : encodeState :=
  mkEncodeState (buffer e) (auxBuffer e ++ p) (scratch e).

Definition auxBuffer_Reset (e : encodeState) : encodeState :=
  mkEncodeState (buffer e) [] (scratch e).

Definition set_scratch (e : encodeState) (sc : list Z) : encodeState :=
  mkEncodeState (buffer e) (auxBuffer e) sc.

(** [es.reset()]: both buffers are emptied, the scratch array is kept. *)
Definition reset (e : encodeState) : encodeState :=
  mkEncodeState [] [] (scratch e).

(** [binary.LittleEndian.PutUintN(b, v)] on a prefix of the scratch array. *)
Definition PutUint16 (b : list Z) (v : Z) : list Z :=
  <[1%nat := to_uint8 (Z.shiftr v 8)]> (<[0%nat := to_uint8 v]> b).

Definition PutUint32 (b : list Z) (v : Z) : list Z :=
  <[3%nat := to_uint8 (Z.shiftr v 24)]>
    (<[2%nat := to_uint8 (Z.shiftr v 16)]>
       (<[1%nat := to_uint8 (Z.shiftr v 8)]> (<[0%nat := to_uint8 v]> b))).

Definition PutUint64 (b : list Z) (v : Z) : list Z :=
  <[7%nat := to_uint8 (Z.shiftr v 56)]>
    (<[6%nat := to_uint8 (Z.shiftr v 48)]>
       (<[5%nat := to_uint8 (Z.shiftr v 40)]>
          (<[4%nat := to_uint8 (Z.shiftr v 32)]> (PutUint32 b v)))).

(** [encodeLength]: the offset, converted to [uint32], little-endian. *)
Definition encodeLength (e : encodeState) (len : Z) : encodeState :=
  let sc := PutUint32 (scratch e) (to_uint32 len) in
  buffer_Write (set_scratch e sc) (take 4 sc).

(** [Bytes] of [math/big.Int]: the absolute value as a minimal big-endian byte
    list (empty for zero).  [le_digits] lists base-256 digits, least
    significant first. *)
Fixpoint le_digits (fuel : nat) (x : Z) : list Z :=
  match fuel with
  | O => []
  | S fuel' => if x =? 0 then [] else (x mod 256) :: le_digits fuel' (x / 256)
  end.

Definition big_Bytes (i : Z) : list Z :=
  rev (le_digits (S (Z.to_nat (Z.log2 (Z.abs i)))) (Z.abs i)).

(** [for i, b := range bigEndian { e.scratch[len(bigEndian)-i-1] = b }] *)
Fixpoint store_reversed (n i : nat) (bigEndian : list Z) (sc : list Z) : list Z :=
  match bigEndian with
  | [] => sc
  | b :: rest => store_reversed n (S i) rest (<[(n - i - 1)%nat := b]> sc)
  end.

(** [for i := len(bigEndian); i < length; i++ { e.scratch[i] = 0x00 }],
    with [count] iterations left. *)
Fixpoint zero_fill (count i : nat) (sc : list Z) : list Z :=
  match count with
  | O => sc
  | S count' => zero_fill count' (S i) (<[i := 0]> sc)
  end.

Definition encodeBigInt (e : encodeState) (i : Z) : encodeState * outcome :=
  if i <? 0 then (e, Err ErrNegativeBigInt)
  else
    let bigEndian := big_Bytes i in
    let n := length bigEndian in
    if (n <? 9)%nat || (32 <? n)%nat then (e, Err ErrBigIntWidth)
    else
      let sc := store_reversed n 0 bigEndian (scratch e) in
      let length := if (17 <=? n)%nat then 32%nat else 16%nat in
      let sc := zero_fill (length - n) n sc in
      (buffer_Write (set_scratch e sc) (take length sc), Nil).

Definition encodeBigIntPtr (e : encodeState) (v : value) : encodeState * outcome :=
  match v with
  | VNilPtr => (e, Err ErrEmptyBigInt)
  | VPtr (VBigInt i) => encodeBigInt e i
  | _ => (e, Panic)
  end.

Definition encodeBigIntNoPtr (e : encodeState) (v : value) : encodeState * outcome :=
  match v with
  | VBigInt i => encodeBigInt e i
  | _ => (e, Panic)
  end.

Definition boolFalse : list Z := [0].
Definition boolTrue : list Z := [1].

Definition encodeBool (e : encodeState) (v : value) : encodeState * outcome :=
  match v with
  | VBool b => (buffer_Write e (if b then boolTrue else boolFalse), Nil)
  | _ => (e, Panic)
  end.

Definition encodeUint (e : encodeState) (t : type) (v : value) : encodeState * outcome :=
  match v with
  | VUint val =>
      match Kind_of t with
      | Uint8 =>
          let sc := <[0%nat := to_uint8 val]> (scratch e) in
          (buffer_Write (set_scratch e sc) (take 1 sc), Nil)
      | Uint16 =>
          let sc := PutUint16 (scratch e) (to_uint16 val) in
          (buffer_Write (set_scratch e sc) (take 2 sc), Nil)
      | Uint32 =>
          let sc := PutUint32 (scratch e) (to_uint32 val) in
          (buffer_Write (set_scratch e sc) (take 4 sc), Nil)
      | Uint64 =>
          let sc := PutUint64 (scratch e) val in
          (buffer_Write (set_scratch e sc) (take 8 sc), Nil)
      | _ => (e, Nil)
      end
  | _ => (e, Panic)
  end.

(** [v.Bytes()] of a byte slice or byte array. *)
Fixpoint Bytes (elems : list value) : option (list Z) :=
  match elems with
  | [] => Some []
  | VUint b :: rest =>
      match Bytes rest with
      | Some bs => Some (b :: bs)
      | None => None
      end
  | _ :: _ => None
  end.

Definition encodeByteArray (e : encodeState) (v : value) : encodeState * outcome :=
  match v with
  | VArray elems =>
      match Bytes elems with
      | Some slice => (buffer_Write e slice, Nil)
      | None => (e, Panic)
      end
  | _ => (e, Panic)
  end.

Definition encodeByteSlice (e : encodeState) (v : value) : encodeState * outcome :=
  match v with
  | VSlice _ elems _ =>
      match Bytes elems with
      | Some slice => (buffer_Write e slice, Nil)
      | None => (e, Panic)
      end
  | _ => (e, Panic)
  end.

Definition encodeString (e : encodeState) (v : value) : encodeState * outcome :=
  match v with
  | VString s => (buffer_Write e s, Nil)
  | _ => (e, Panic)
  end.

(** ** ssz/types.go: encoder dispatch *)

(** The functions an [encoderFunc] value can be. *)
Inductive encoderFunc :=
| fn_encodeInterface | fn_encodePtr | fn_encodeBigIntPtr | fn_encodeBigIntNoPtr
| fn_encodeBool | fn_encodeUint | fn_encodeByteArray | fn_encodeByteSlice
| fn_encodeString | fn_encodeSlice | fn_encodeArray | fn_encodeStruct.

(** [t.Elem()] where the Go code calls it after a test of the kind. *)
Definition Elem (t : type) : option type :=
  match t with
  | TPtr elem | TArray _ elem | TSlice elem => Some elem
  | _ => None
  end.

Definition Elem_isByte (t : type) : bool :=
  match Elem t with Some elem => isByte elem | None => false end.

Definition Elem_isInterface (t : type) : bool :=
  match Elem t with Some elem => Kind_eqb (Kind_of elem) Interface | None => false end.

(** [t.AssignableTo(reflect.PtrTo(bigInt))] and [t.AssignableTo(bigInt)]. *)
Definition is_ptr_bigInt (t : type) : bool :=
  match t with TPtr TBigInt => true | _ => false end.
Definition is_bigInt (t : type) : bool :=
  match t with TBigInt => true | _ => false end.

Definition newTypeEncoder (t : type) : error + encoderFunc :=
  let kind := Kind_of t in
  if Kind_eqb kind Interface then inr fn_encodeInterface
  else if Kind_eqb kind Ptr then inr fn_encodePtr
  else if is_ptr_bigInt t then inr fn_encodeBigIntPtr
  else if is_bigInt t then inr fn_encodeBigIntNoPtr
  else if Kind_eqb kind Bool then inr fn_encodeBool
  else if isUint t then inr fn_encodeUint
  else if isByte t then inr fn_encodeUint
  else if Kind_eqb kind Array && Elem_isByte t then inr fn_encodeByteArray
  else if Kind_eqb kind Slice && Elem_isByte t then inr fn_encodeByteSlice
  else if Kind_eqb kind String then inr fn_encodeString
  else if Kind_eqb kind Slice then
    if Elem_isInterface t then inl ErrInterfaceSlice else inr fn_encodeSlice
  else if Kind_eqb kind Array then inr fn_encodeArray
  else if Kind_eqb kind Struct then inr fn_encodeStruct
  else inl (ErrNotSerializable kind).

(** [typeEncoder] memoises [newTypeEncoder] in [encoderCache]; failures are
    not stored.  [newTypeEncoder] is a function of the type alone, so a
    cached answer is the computed one. *)
Definition typeEncoder (t : type) : error + encoderFunc := newTypeEncoder t.

(** [walkStruct]: the callback on every exported field, in order, until it
    returns an error.  The callback's captured variables are the state [S]. *)
Section walkStruct.
Context {S : Type}.
Variable cb : nat -> type -> value -> S -> S * outcome.

Fixpoint walkStruct_from (i : nat) (fs : list (bool * type)) (vs : list value)
    (s : S) {struct vs} : S * outcome :=
  match fs, vs with
  | [], [] => (s, Nil)
  | (exported, ft) :: fs', fv :: vs' =>
      if exported then
        match cb i ft fv s with
        | (s', Nil) => walkStruct_from (Datatypes.S i) fs' vs' s'
        | (s', out) => (s', out)
        end
      else walkStruct_from (Datatypes.S i) fs' vs' s
  | _, _ => (s, Panic)
  end.

Definition walkStruct (t : type) (v : value) (s : S) : S * outcome :=
  match t, v with
  | TStruct fs, VStruct vs => walkStruct_from 0 fs vs s
  | _, _ => (s, Panic)
  end.
End walkStruct.

(** ** ssz/encode.go: the composite encoders *)

Section Encoders.
(** The scratch array of a state taken from [encodeStatePool]: whatever
    its last user left there. *)
Variable pool_scratch : list Z.

(** [inner := encodeStatePool.Get()] followed by [inner.reset()]. *)
Definition pool_Get_reset : encodeState := reset (mkEncodeState [] [] pool_scratch).

Section Bodies.
(** [ef(e, v)] for the encoder function value [ef]; tied below. *)
Variable call : encoderFunc -> encodeState -> type -> value -> encodeState * outcome.

Definition encodeInterface (e : encodeState) (v : value) : encodeState * outcome :=
  match v with
  | VNilIface => (e, Err ErrEmptyInterface)
  | VIface dyn v' =>
      match typeEncoder dyn with
      | inl err => (e, Err err)
      | inr ef => call ef e dyn v'
      end
  | _ => (e, Panic)
  end.

Definition encodePtr (e : encodeState) (t : type) (v : value) : encodeState * outcome :=
  match t, v with
  | TPtr _, VNilPtr => (e, Err ErrEmptyPointer)
  | TPtr elem, VPtr v' =>
      match typeEncoder elem with
      | inl err => (e, Err err)
      | inr ef => call ef e elem v'
      end
  | _, _ => (e, Panic)
  end.

(** The variable-size branch shared by the three composite encoders: the
    offset goes to the head, the element is encoded in a state of its
    own and its bytes are appended to the tail; the error of [ef] is
    dropped. *)
Definition encode_to_tail (ef : encoderFunc) (s1size : Z) (e : encodeState)
    (t : type) (v : value) : encodeState * outcome :=
  let e1 := encodeLength e (s1size + Z.of_nat (length (auxBuffer e))) in
  match call ef pool_Get_reset t v with
  | (_, Panic) => (e1, Panic)
  | (inner, _) => (auxBuffer_Write e1 (buffer inner), Nil)
  end.

(** The element loop of [encodeSlice]. *)
Definition encodeSlice_loop (ef : encoderFunc) (elemFixed : bool) (s1size : Z)
    (telem : type) : list value -> encodeState -> encodeState * outcome :=
  fix loop (elems : list value) (e : encodeState) : encodeState * outcome :=
    match elems with
    | [] => (e, Nil)
    | elem :: rest =>
        if elemFixed then
          match call ef e telem elem with
          | (e', Panic) => (e', Panic)
          | (e', _) => loop rest e'
          end
        else
          match encode_to_tail ef s1size e telem elem with
          | (e', Nil) => loop rest e'
          | (e', out) => (e', out)
          end
    end.

Definition encodeSlice (e : encodeState) (t : type) (v : value) : encodeState * outcome :=
  match t, v with
  | TSlice telem, VSlice isnil elems _ =>
      if isnil then (e, Nil)
      else
        match isFixedType telem with
        | None => (e, Panic)
        | Some elemFixed =>
            let s1size := if elemFixed then 0 else Z.of_nat (length elems) * 4 in
            match typeEncoder telem with
            | inl _ => (e, Nil)
            | inr ef =>
                match encodeSlice_loop ef elemFixed s1size telem elems e with
                | (e', Nil) =>
                    (auxBuffer_Reset (buffer_Write e' (auxBuffer e')), Nil)
                | (e', out) => (e', out)
                end
            end
        end
  | _, _ => (e, Panic)
  end.

(** The first loop of [encodeArray] over an array of interfaces. *)
Fixpoint sum_sizes (telem : type) (elems : list value) : option Z :=
  match elems with
  | [] => Some 0
  | elem :: rest =>
      match getTypeSize telem elem with
      | None => None
      | Some n =>
          match sum_sizes telem rest with
          | None => None
          | Some m => Some (n + m)
          end
      end
  end.

(** The element loop of [encodeArray]; [ef] is [None] while the Go
    variable is nil.  The result [inl] is an early [return] of the
    function with that outcome. *)
Definition encodeArray_loop (heterogeneous : bool) (s1size : Z) (telem : type)
    : list value -> option encoderFunc -> encodeState -> encodeState * outcome + encodeState :=
  fix loop (elems : list value) (ef : option encoderFunc) (e : encodeState) :=
    match elems with
    | [] => inr e
    | elem :: rest =>
        let ef' :=
          if match ef with None => true | Some _ => false end || heterogeneous
          then match typeEncoder telem with inl _ => None | inr f => Some f end
          else ef in
        match ef' with
        | None => inl (e, Nil)
        | Some f =>
            match isFixedType telem with
            | None => inl (e, Panic)
            | Some true =>
                match call f e telem elem with
                | (e', Nil) => loop rest ef' e'
                | (e', out) => inl (e', out)
                end
            | Some false =>
                match encode_to_tail f s1size e telem elem with
                | (e', Nil) => loop rest ef' e'
                | (e', out) => inl (e', out)
                end
            end
        end
    end.

Definition encodeArray (e : encodeState) (t : type) (v : value) : encodeState * outcome :=
  match t, v with
  | TArray len telem, VArray elems =>
      let heterogeneous := Kind_eqb (Kind_of telem) Interface in
      let s1size :=
        if heterogeneous then sum_sizes telem elems
        else
          match isFixedType t with
          | None => None
          | Some true => Some 0
          | Some false => Some (4 * Z.of_nat len)
          end in
      match s1size with
      | None => (e, Panic)
      | Some s1size =>
          match encodeArray_loop heterogeneous s1size telem elems None e with
          | inl r => r
          | inr e' => (auxBuffer_Reset (buffer_Write e' (auxBuffer e')), Nil)
          end
      end
  | _, _ => (e, Panic)
  end.

(** The first callback of [encodeStruct]: [s1size += getTypeSize(value)];
    a panic of [getTypeSize] ends the walk. *)
Definition encodeStruct_size (i : nat) (ft : type) (fv : value) (s1size : Z)
    : Z * outcome :=
  match getTypeSize ft fv with
  | Some n => (s1size + n, Nil)
  | None => (s1size, Panic)
  end.

(** The second callback of [encodeStruct]. *)
Definition encodeStruct_field (s1size : Z) (i : nat) (ft : type) (fv : value)
    (e : encodeState) : encodeState * outcome :=
  match typeEncoder ft with
  | inl err => (e, Err err)
  | inr ef =>
      match isFixedType ft with
      | None => (e, Panic)
      | Some true =>
          match call ef e ft fv with
          | (e', Panic) => (e', Panic)
          | (e', _) => (e', Nil)
          end
      | Some false => encode_to_tail ef s1size e ft fv
      end
  end.

(** [encodeStruct] drops what both walks return; only a panic passes. *)
Definition encodeStruct (e : encodeState) (t : type) (v : value) : encodeState * outcome :=
  match walkStruct encodeStruct_size t v 0 with
  | (_, Panic) => (e, Panic)
  | (s1size, _) =>
      match walkStruct (encodeStruct_field s1size) t v e with
      | (e', Panic) => (e', Panic)
      | (e', _) => (auxBuffer_Reset (buffer_Write e' (auxBuffer e')), Nil)
      end
  end.
End Bodies.

(** [ef(e, v)]: the call of an encoder function value on a
    [reflect.Value] of type [t] and contents [v]. *)
Fixpoint call (ef : encoderFunc) (e : encodeState) (t : type) (v : value)
    {struct v} : encodeState * outcome :=
  match ef with
  | fn_encodeInterface => encodeInterface call e v
  | fn_encodePtr => encodePtr call e t v
  | fn_encodeBigIntPtr => encodeBigIntPtr e v
  | fn_encodeBigIntNoPtr => encodeBigIntNoPtr e v
  | fn_encodeBool => encodeBool e v
  | fn_encodeUint => encodeUint e t v
  | fn_encodeByteArray => encodeByteArray e v
  | fn_encodeByteSlice => encodeByteSlice e v
  | fn_encodeString => encodeString e v
  | fn_encodeSlice => encodeSlice call e t v
  | fn_encodeArray => encodeArray call e t v
  | fn_encodeStruct => encodeStruct call e t v
  end.

(** [es.encode(val)]: [reflect.ValueOf(nil)] is the zero [Value], whose
    [Type()] panics. *)
Definition encode (e : encodeState) (val : option (type * value)) : encodeState * outcome :=
  match val with
  | None => (e, Panic)
  | Some (t, v) =>
      match typeEncoder t with
      | inl err => (e, Err err)
      | inr ef => call ef e t v
      end
  end.
End Encoders.

(** ** ssz/encode.go: the entry point *)

Section Encode.
(** The caller's [io.Writer]: its state and its [Write] method, which
    answers the new state, the count of bytes it took and its error. *)
Context {W : Type}.
Variable Write : W -> list Z -> W * Z * option error.
Variable pool_scratch : list Z.

(** [es.toWriter(w)], that is [es.buffer.WriteTo(w)] of [bytes.Buffer]:
    [Write] is called once, and only when the buffer is not empty. *)
Definition toWriter (e : encodeState) (w : W) : encodeState * W * outcome :=
  let nBytes := Z.of_nat (length (buffer e)) in
  if 0 <? nBytes then
    let '(w', m, err) := Write w (buffer e) in
    if nBytes <? m then (e, w', Panic)
    else
      let e' := mkEncodeState (drop (Z.to_nat m) (buffer e)) (auxBuffer e) (scratch e) in
      match err with
      | Some er => (e', w', Err er)
      | None =>
          if negb (m =? nBytes) then (e', w', Err ErrShortWrite)
          else (mkEncodeState [] (auxBuffer e) (scratch e), w', Nil)
      end
  else (mkEncodeState [] (auxBuffer e) (scratch e), w, Nil).

Definition Encode (w : W) (val : option (type * value)) : W * outcome :=
  let es := pool_Get_reset pool_scratch in
  match encode pool_scratch es val with
  | (es', Nil) => let '(_, w', out) := toWriter es' w in (w', out)
  | (_, out) => (w, out)
  end.
End Encode.

(** [bytes.Buffer] as the writer, as in the package's tests: [Write] appends
    and never fails. *)
Definition Buffer_Write (b : list Z) (p : list Z) : list Z * Z * option error :=
  (b ++ p, Z.of_nat (length p), None).

(** [Encode] into an empty [bytes.Buffer] with a fresh pool. *)
Definition Encode_bytes (t : type) (v : value) : list Z * outcome :=
  Encode Buffer_Write (replicate 32 0) [] (Some (t, v)).

Definition byteSlice (bs : list Z) : value := VSlice false (map VUint bs) [].


(** ** ssz/decode.go: the stream *)

(** [bytes.Reader]: the byte slice [s] and the read index [i]. *)
Record Reader := mkReader {
  r_s : list Z;
  r_i : nat
}.

Record Stream := mkStream {
  r : Reader;
  s_scratch : list Z   (* [32]byte *)
}.

(** [bytes.NewReader(buf)] wrapped by [NewStream]: a new stream over a copy
    of the bytes, with a zeroed scratch array. *)
Definition NewStream (buf : list Z) : Stream :=
  mkStream (mkReader buf 0) (replicate 32 0).

(** [Read(b)] of [bytes.Reader] for a [b] of [k] bytes: the bytes read and the
    error. *)
Definition Reader_Read (rd : Reader) (k : nat) : Reader * list Z * option error :=
  if (length (r_s rd) <=? r_i rd)%nat then (rd, [], Some EOF)
  else
    let bs := take k (drop (r_i rd) (r_s rd)) in
    (mkReader (r_s rd) (r_i rd + length bs), bs, None).

(** [ReadByte] of [bytes.Reader]. *)
Definition Reader_ReadByte (rd : Reader) : Reader * Z * option error :=
  match r_s rd !! r_i rd with
  | None => (rd, 0, Some EOF)
  | Some b => (mkReader (r_s rd) (r_i rd + 1), b, None)
  end.

(** [copy(p[n:], bs)] for [p] a prefix of the scratch array. *)
Definition copy_at (n : nat) (bs : list Z) (sc : list Z) : list Z :=
  take n sc ++ bs ++ drop (n + length bs) sc.

(** The loop of [readBytes] on [p = s.scratch[:size]]:
    [for n < len(p) && err == nil { nn, err = s.r.Read(p[n:]); n += nn }]. *)
Fixpoint readBytes_loop (fuel : nat) (size : nat) (s : Stream) (n : nat)
    (err : option error) : Stream * nat * option error :=
  match fuel with
  | O => (s, n, err)
  | S fuel' =>
      match err with
      | None =>
          if (n <? size)%nat then
            let '(rd, bs, err') := Reader_Read (r s) (size - n) in
            readBytes_loop fuel' size
              (mkStream rd (copy_at n bs (s_scratch s))) (n + length bs) err'
          else (s, n, err)
      | Some _ => (s, n, err)
      end
  end.

Definition is_EOF (err : option error) : bool :=
  match err with Some EOF => true | _ => false end.

(** [s.readBytes(s.scratch[:size])]; every pass of the loop reads a byte or
    sets [err], so [size + 1] passes are enough. *)
Definition readBytes (s : Stream) (size : nat) : Stream * option error :=
  let '(s', n, err) := readBytes_loop (S size) size s 0 None in
  (s', if is_EOF err && (n <? size)%nat then Some ErrUnexpectedEOF else err).

Definition readByte (s : Stream) : Stream * Z * option error :=
  let '(rd, b, err) := Reader_ReadByte (r s) in
  (mkStream rd (s_scratch s), b, err).

(** [binary.LittleEndian.UintN(b)]. *)
Definition byte_at (b : list Z) (i : nat) : Z := nth i b 0.

Definition LE_Uint16 (b : list Z) : Z :=
  Z.lor (byte_at b 0) (Z.shiftl (byte_at b 1) 8).

Definition LE_Uint32 (b : list Z) : Z :=
  Z.lor (Z.lor (Z.lor (byte_at b 0) (Z.shiftl (byte_at b 1) 8))
           (Z.shiftl (byte_at b 2) 16)) (Z.shiftl (byte_at b 3) 24).

Definition LE_Uint64 (b : list Z) : Z :=
  Z.lor (Z.lor (Z.lor (Z.lor (Z.lor (Z.lor (Z.lor
    (byte_at b 0) (Z.shiftl (byte_at b 1) 8)) (Z.shiftl (byte_at b 2) 16))
    (Z.shiftl (byte_at b 3) 24)) (Z.shiftl (byte_at b 4) 32))
    (Z.shiftl (byte_at b 5) 40)) (Z.shiftl (byte_at b 6) 48))
    (Z.shiftl (byte_at b 7) 56).

Definition readOffset (s : Stream) : Stream * Z * option error :=
  match readBytes s 4 with
  | (s', Some err) => (s', 0, Some err)
  | (s', None) => (s', LE_Uint32 (take 4 (s_scratch s')), None)
  end.

(** [s.size()]: the length of the whole underlying slice, read or not. *)
Definition size (s : Stream) : Z := Z.of_nat (length (r_s (r s))).

(** [s.newSectionStream(offset, length)]: [make] panics on a negative
    length; [ReadAt] answers [io.EOF] when the offset is not below the
    length of the slice, or when it fills less than the whole of [buf]. *)
Definition newSectionStream (s : Stream) (offset : Z) (length : Z)
    : option Stream * outcome :=
  if length <? 0 then (None, Panic)
  else if size s <=? offset then (None, Err EOF)
  else
    let got := take (Z.to_nat length) (drop (Z.to_nat offset) (r_s (r s))) in
    if (Z.of_nat (List.length got) <? length) then (None, Err EOF)
    else (Some (NewStream got), Nil).

(** ** ssz/decode.go: the decoders *)

(** A decoder function: the stream and the present contents of the target;
    the answer carries the contents the target is left with.  [None]: a
    loop did not end within the fuel. *)
Definition DecoderFunc := Stream -> value -> option (Stream * value * outcome).

Definition decodeBool : DecoderFunc := fun s val =>
  match readByte s with
  | (s', _, Some err) => Some (s', val, Err err)
  | (s', b, None) =>
      match val with
      | VBool _ => Some (s', VBool (b =? 1), Nil)
      | _ => Some (s', val, Panic)
      end
  end.

(** [val.SetUint(x)]: the store converts to the kind of the target. *)
Definition SetUint (t : type) (x : Z) : option value :=
  match Kind_of t with
  | Uint8 => Some (VUint (to_uint8 x))
  | Uint16 => Some (VUint (to_uint16 x))
  | Uint32 => Some (VUint (to_uint32 x))
  | Uint | Uintptr | Uint64 => Some (VUint (to_uint64 x))
  | _ => None
  end.

Definition decodeUint (t : type) : DecoderFunc := fun s val =>
  match getTypeSize t val with
  | None => Some (s, val, Panic)
  | Some size =>
      if 32 <? size then Some (s, val, Panic)
      else
        match readBytes s (Z.to_nat size) with
        | (s', Some err) => Some (s', val, Err err)
        | (s', None) =>
            let x :=
              if size =? 1 then Some (to_uint64 (to_int8 (byte_at (s_scratch s') 0)))
              else if size =? 2 then Some (to_uint64 (LE_Uint16 (take 2 (s_scratch s'))))
              else if size =? 4 then Some (to_uint64 (LE_Uint32 (take 4 (s_scratch s'))))
              else if size =? 8 then Some (LE_Uint64 (take 8 (s_scratch s')))
              else None in
            match x with
            | None => Some (s', val, Nil)
            | Some x =>
                match SetUint t x with
                | Some val' => Some (s', val', Nil)
                | None => Some (s', val, Panic)
                end
            end
        end
  end.

(** The zero value of a type, as [reflect.MakeSlice] fills a new backing
    array. *)
Fixpoint zero (t : type) : value :=
  match t with
  | TBool => VBool false
  | TInt | TInt8 | TInt16 | TInt32 | TInt64 => VInt 0
  | TUint | TUint8 | TUint16 | TUint32 | TUint64 | TUintptr => VUint 0
  | TFloat32 | TFloat64 => VFloat 0
  | TString => VString []
  | TInterface => VNilIface
  | TBigInt => VBigInt 0
  | TPtr _ => VNilPtr
  | TArray len elem => VArray (replicate len (zero elem))
  | TSlice _ => VSlice true [] []
  | TStruct fields => VStruct (map (fun f => zero (snd f)) fields)
  end.

(** [reflect.MakeSlice(val.Type(), val.Len(), newcap)], [reflect.Copy] and
    [val.Set(newv)]: the elements move to a new backing array; this is the
    spare part of that array. *)
Definition grow_slice (telem : type) (elems spare : list value) : list value :=
  let cap := (length elems + length spare)%nat in
  let newcap := (cap + cap / 2)%nat in
  let newcap := if (newcap <? 4)%nat then 4%nat else newcap in
  replicate (newcap - length elems) (zero telem).

(** [val.SetLen(n)], for [n] within the capacity: the slice is the first
    [n] elements of its backing array. *)
Definition SetLen (n : nat) (elems spare : list value) : list value * list value :=
  (take n (elems ++ spare), drop n (elems ++ spare)).

(** The head of the loop body of [decodeSliceElems] for index [i]: the
    slice grows when [i >= val.Cap()], and its length becomes [i + 1] when
    [i >= val.Len()]. *)
Definition make_room (telem : type) (i : nat) (elems spare : list value)
    : list value * list value :=
  let spare :=
    if (length elems + length spare <=? i)%nat
    then grow_slice telem elems spare else spare in
  if (length elems <=? i)%nat then SetLen (S i) elems spare else (elems, spare).

Section decodeSliceElems.
Variable telem : type.
Variable elemdec : DecoderFunc.

(** One pass of [for ; ; i++] per unit of fuel.  The slice is its
    elements and the spare part of its backing array. *)
Fixpoint decodeSliceElems_loop (fuel : nat) (i : nat) (s : Stream)
    (elems spare : list value) : option (Stream * value * outcome) :=
  match fuel with
  | O => None
  | S fuel' =>
      (* grow slice if necessary *)
      let '(elems, spare) := make_room telem i elems spare in
      (* decode into element *)
      match elems !! i with
      | None => Some (s, VSlice false elems spare, Panic)
      | Some x =>
          match elemdec s x with
          | None => None
          | Some (s', x', Nil) =>
              decodeSliceElems_loop fuel' (S i) s' (<[i := x']> elems) spare
          | Some (s', x', Err EOF) =>
              let elems := <[i := x']> elems in
              let '(elems, spare) :=
                if (i <? length elems)%nat then SetLen i elems spare
                else (elems, spare) in
              Some (s', VSlice false elems spare, Nil)
          | Some (s', x', out) => Some (s', VSlice false (<[i := x']> elems) spare, out)
          end
      end
  end.

Definition decodeSliceElems (fuel : nat) (s : Stream) (val : value)
    : option (Stream * value * outcome) :=
  match val with
  | VSlice _ elems spare => decodeSliceElems_loop fuel 0 s elems spare
  | _ => Some (s, val, Panic)
  end.
End decodeSliceElems.

(** [decodeSlice]; [df] is the answer of [typeDecoder(val.Type().Elem())].
    For variable-size elements the elements are read from one section that
    starts at the first offset and ends with the stream. *)
Definition decodeSlice (fuel : nat) (telem : type) (df : error + DecoderFunc)
    : DecoderFunc := fun s val =>
  match df with
  | inl _ => Some (s, val, Nil)
  | inr df =>
      match isFixedType telem with
      | None => Some (s, val, Panic)
      | Some false =>
          match readOffset s with
          | (s', _, Some err) => Some (s', val, Err err)
          | (s', offset, None) =>
              match newSectionStream s' offset (size s' - offset) with
              | (Some ss, _) =>
                  match decodeSliceElems telem df fuel ss val with
                  | None => None
                  | Some (_, val', out) => Some (s', val', out)
                  end
              | (None, out) => Some (s', val, out)
              end
          end
      | Some true => decodeSliceElems telem df fuel s val
      end
  end.

(** The loop of the homogeneous branch of [decodeArray]. *)
Fixpoint decodeArray_loop (df : DecoderFunc) (elems : list value) (s : Stream)
    : option (Stream * list value * outcome) :=
  match elems with
  | [] => Some (s, [], Nil)
  | x :: rest =>
      match df s x with
      | None => None
      | Some (s', x', Nil) =>
          match decodeArray_loop df rest s' with
          | None => None
          | Some (s'', rest', out) => Some (s'', x' :: rest', out)
          end
      | Some (s', x', Err EOF) => Some (s', x' :: rest, Nil)
      | Some (s', x', out) => Some (s', x' :: rest, out)
      end
  end.

(** [decodeArray]: the target is of kind [Array], so [val.Kind()] is never
    [Interface] and the first branch is not taken. *)
Definition decodeArray (df : error + DecoderFunc) : DecoderFunc := fun s val =>
  match val with
  | VArray elems =>
      match df with
      | inl _ => Some (s, val, Nil)
      | inr df =>
          match decodeArray_loop df elems s with
          | None => None
          | Some (s', elems', out) => Some (s', VArray elems', out)
          end
      end
  | _ => Some (s, val, Panic)
  end.

(** [newTypeDecoder]; the cache of [typeDecoder] stores its answers, so both
    are this function.  The cases are those of the Go switch that are not
    commented out. *)
Fixpoint typeDecoder (fuel : nat) (t : type) : error + DecoderFunc :=
  match t with
  | TBool => inr decodeBool
  | TUint8 | TUint16 | TUint32 | TUint64 => inr (decodeUint t)
  | TSlice elem =>
      if Kind_eqb (Kind_of elem) Interface then inl ErrInterfaceSlice
      else inr (decodeSlice fuel elem (typeDecoder fuel elem))
  | TArray _ elem => inr (decodeArray (typeDecoder fuel elem))
  | _ => inl (ErrNotSerializable (Kind_of t))
  end.

Definition newTypeDecoder := typeDecoder.

(** [Stream.Decode(val)].  [val] is the caller's [interface{}]: [None] is
    the nil interface; a pointer carries its pointee. *)
Definition Stream_Decode (fuel : nat) (s : Stream) (val : option (type * value))
    : option (Stream * option (type * value) * outcome) :=
  match val with
  | None => Some (s, val, Err errDecodeIntoNil)
  | Some (rtyp, rval) =>
      match rtyp, rval with
      | TPtr _, VNilPtr => Some (s, val, Err errDecodeIntoNil)
      | TPtr elem, VPtr target =>
          match newTypeDecoder fuel elem with
          | inl err => Some (s, val, Err err)
          | inr df =>
              match df s target with
              | None => None
              | Some (s', target', out) => Some (s', Some (rtyp, VPtr target'), out)
              end
          end
      | TPtr _, _ => Some (s, val, Panic)
      | _, _ => Some (s, val, Err errNoPointer)
      end
  end.

(** [Decode(r, val)]: [stream.Reset(r)] reads the whole of [r] (here its
    bytes [input]) into a new [bytes.Reader]; the pooled stream keeps its
    scratch array. *)
Definition Decode (pool_scratch : list Z) (fuel : nat) (input : list Z)
    (val : option (type * value))
    : option (option (type * value) * outcome) :=
  let stream := mkStream (mkReader input 0) pool_scratch in
  match Stream_Decode fuel stream val with
  | None => None
  | Some (_, val', out) => Some (val', out)
  end.

(** [Decode] of [input] into [new(T)] with a fresh pool: the value the
    pointer refers to afterwards, and the outcome. *)
Definition Decode_new (fuel : nat) (input : list Z) (t : type)
    : option (option (type * value) * outcome) :=
  Decode (replicate 32 0) fuel input (Some (TPtr t, VPtr (zero t))).


(** ** Well-formed values *)

Definition in_range (bits : Z) (n : Z) : bool := (0 <=? n) && (n <? 2 ^ bits).

(** [wt t v]: [v] is the contents of a Go value of type [t]. *)
Fixpoint wt (t : type) (v : value) {struct v} : bool :=
  match t, v with
  | TBool, VBool _ => true
  | TInt8, VInt n => in_range 8 (n + 2 ^ 7)
  | TInt16, VInt n => in_range 16 (n + 2 ^ 15)
  | TInt32, VInt n => in_range 32 (n + 2 ^ 31)
  | (TInt | TInt64), VInt n => in_range 64 (n + 2 ^ 63)
  | TUint8, VUint n => in_range 8 n
  | TUint16, VUint n => in_range 16 n
  | TUint32, VUint n => in_range 32 n
  | (TUint | TUint64 | TUintptr), VUint n => in_range 64 n
  | TFloat32, VFloat n => in_range 32 n
  | TFloat64, VFloat n => in_range 64 n
  | TString, VString s => forallb (in_range 8) s
  | TBigInt, VBigInt _ => true
  | TInterface, VNilIface => true
  | TInterface, VIface dyn v' => negb (Kind_eqb (Kind_of dyn) Interface) && wt dyn v'
  | TPtr _, VNilPtr => true
  | TPtr elem, VPtr v' => wt elem v'
  | TArray len elem, VArray elems =>
      (length elems =? len)%nat && forallb (wt elem) elems
  | TSlice elem, VSlice isnil elems spare =>
      (if isnil then
         match elems, spare with [], [] => true | _, _ => false end
       else true)
      && forallb (wt elem) elems && forallb (wt elem) spare
  | TStruct fields, VStruct vals =>
      (fix wt_fields (fs : list (bool * type)) (vs : list value) {struct vs} : bool :=
         match fs, vs with
         | [], [] => true
         | (_, ft) :: fs', fv :: vs' => wt ft fv && wt_fields fs' vs'
         | _, _ => false
         end) fields vals
  | _, _ => false
  end.


(** [reflect.DeepEqual] on two values of one type: slices are equal when
    both are nil or both are not, and their elements are equal; the spare
    capacity is not compared. *)
Fixpoint DeepEqual (x y : value) {struct x} : bool :=
  let all2 :=
    fix all2 (xs ys : list value) {struct xs} : bool :=
      match xs, ys with
      | [], [] => true
      | a :: xs', b :: ys' => DeepEqual a b && all2 xs' ys'
      | _, _ => false
      end in
  match x, y with
  | VBool a, VBool b => Bool.eqb a b
  | VInt a, VInt b | VUint a, VUint b | VFloat a, VFloat b
  | VBigInt a, VBigInt b => a =? b
  | VString a, VString b => (length a =? length b)%nat && forallb (fun p => fst p =? snd p) (combine a b)
  | VNilIface, VNilIface | VNilPtr, VNilPtr => true
  | VIface _ a, VIface _ b | VPtr a, VPtr b => DeepEqual a b
  | VArray xs, VArray ys | VStruct xs, VStruct ys => all2 xs ys
  | VSlice nx xs _, VSlice ny ys _ => Bool.eqb nx ny && all2 xs ys
  | _, _ => false
  end.

(** ** The package's own test tables, evaluated on the embedding *)

Example TestEncode_uint32 :
  Encode_bytes TUint32 (VUint 65536) = ([0; 0; 1; 0], Nil).
Proof. reflexivity. Qed.

Example TestEncode_int8 :
  Encode_bytes TInt8 (VInt 0) = ([], Err (ErrNotSerializable Int8)).
Proof. reflexivity. Qed.

Example TestEncode_bigint_9_bytes :
  Encode_bytes (TPtr TBigInt) (VPtr (VBigInt (2 * 2 ^ 64 + 1)))
  = ([1; 0; 0; 0; 0; 0; 0; 0; 2; 0; 0; 0; 0; 0; 0; 0], Nil).
Proof. vm_compute. reflexivity. Qed.

Example TestEncode_struct :
  Encode_bytes (TStruct [(true, TBool); (true, TUint8); (true, TSlice TUint8)])
    (VStruct [VBool false; VUint 255; byteSlice [255]])
  = ([0; 255; 6; 0; 0; 0; 255], Nil).
Proof. vm_compute. reflexivity. Qed.

Example TestDecode_bool_slice :
  Decode_new 3 [1; 0] (TSlice TBool)
  = Some (Some (TPtr (TSlice TBool),
                VPtr (VSlice false [VBool true; VBool false] [VBool false; VBool false])),
          Nil).
Proof. vm_compute. reflexivity. Qed.

Example TestDecode_uint64_max :
  Decode_new 0 [255; 255; 255; 255; 255; 255; 255; 255] TUint64
  = Some (Some (TPtr TUint64, VPtr (VUint 18446744073709551615)), Nil).
Proof. vm_compute. reflexivity. Qed.

(** ** Scratch array lemmas *)

(** A list of 32 elements, taken apart so that the writes into it
    compute. *)
Ltac explode_scratch sc H :=
  do 32 (destruct sc as [| ? sc]; [discriminate H |]);
  destruct sc; [clear H | discriminate H].

(** ** Literal scenarios and entry-point checks *)

(** C9: the slice of byte slices {{0xfe,0xff},{0x01,0x02}} encodes to the
    twelve bytes 08 00 00 00 0a 00 00 00 fe ff 01 02: the offsets 8 and 10,
    little-endian, then the two payloads in order.  This holds whatever the
    pooled scratch arrays hold, whatever the capacity of the slices, and
    appends to what the sink already holds. *)
Theorem encode_slice_of_byte_slices :
  forall (pool_scratch w : list Z) (sp sp1 sp2 : list value),
    length pool_scratch = 32%nat ->
    Encode Buffer_Write pool_scratch w
      (Some (TSlice (TSlice TUint8),
             VSlice false
               [VSlice false [VUint 254; VUint 255] sp1;
                VSlice false [VUint 1; VUint 2] sp2] sp))
    = (w ++ [8; 0; 0; 0; 10; 0; 0; 0; 254; 255; 1; 2], Nil).
Proof.
  intros ps w sp sp1 sp2 H.
  explode_scratch ps H.
  vm_compute. reflexivity.
Qed.

Lemma encode_slice_of_byte_slices_witness :
  Encode Buffer_Write (replicate 32 0) []
    (Some (TSlice (TSlice TUint8),
           VSlice false
             [VSlice false [VUint 254; VUint 255] [];
              VSlice false [VUint 1; VUint 2] []] []))
  = ([] ++ [8; 0; 0; 0; 10; 0; 0; 0; 254; 255; 1; 2], Nil).
Proof.
  apply (encode_slice_of_byte_slices (replicate 32 0) [] [] [] []).
  reflexivity.
Defined.

(** C2 (the code at the failing inputs): the resolution error for the
    element type [int8] is dropped by [encodeSlice], [encodeArray] and
    [decodeSlice], which answer nil and leave the output or the target
    empty; [encodeSlice] also drops the error of a nil pointer element. *)
Theorem element_codec_errors_are_dropped :
  typeEncoder TInt8 = inl (ErrNotSerializable Int8)
  /\ Encode_bytes (TSlice TInt8) (VSlice false [VInt 1] []) = ([], Nil)
  /\ Encode_bytes (TArray 1 TInt8) (VArray [VInt 1]) = ([], Nil)
  /\ Decode_new 0 [1] (TSlice TInt8)
     = Some (Some (TPtr (TSlice TInt8), VPtr (VSlice true [] [])), Nil)
  /\ Encode_bytes (TSlice (TPtr TBool)) (VSlice false [VNilPtr; VPtr (VBool true)] [])
     = ([1], Nil).
Proof. repeat split; vm_compute; reflexivity. Qed.

(** The offset stored at byte position [pos] of an encoding. *)
Definition offset_at (bytes : list Z) (pos : nat) : Z :=
  LE_Uint32 (take 4 (drop pos bytes)).

(** C4 (the code at the failing input): in the struct
    {A []byte{0xaa,0xbb}; C []byte{0xcc}; B [1]bool{true}; D []byte{0xdd}}
    the fixed array B is encoded on the struct's own state and flushes the
    struct's tail into the head, so the offsets written are 13, 15 and then
    13 again: the third is below the second and is not the head size plus
    the three tail bytes gathered before it. *)
Theorem nested_fixed_array_resets_offsets :
  let t := TStruct [(true, TSlice TUint8); (true, TSlice TUint8);
                    (true, TArray 1 TBool); (true, TSlice TUint8)] in
  let v := VStruct [byteSlice [170; 187]; byteSlice [204];
                    VArray [VBool true]; byteSlice [221]] in
  getTypeSize t v = Some 4
  /\ Encode_bytes t v
     = ([13; 0; 0; 0; 15; 0; 0; 0; 1; 170; 187; 204; 13; 0; 0; 0; 221], Nil)
  /\ offset_at (fst (Encode_bytes t v)) 0 = 13
  /\ offset_at (fst (Encode_bytes t v)) 4 = 15
  /\ offset_at (fst (Encode_bytes t v)) 12 = 13.
Proof. repeat split; vm_compute; reflexivity. Qed.

(** C8: [Stream.Decode] with a nil interface or a nil pointer answers
    [errDecodeIntoNil], with a target that is not a pointer it answers
    [errNoPointer]; in each case the stream and the target are returned as
    they were, and so does the entry point [Decode]. *)
Theorem Decode_rejects_bad_targets :
  forall (fuel : nat) (s : Stream) (pool_scratch input : list Z),
    Stream_Decode fuel s None = Some (s, None, Err errDecodeIntoNil)
    /\ (forall elem,
          Stream_Decode fuel s (Some (TPtr elem, VNilPtr))
          = Some (s, Some (TPtr elem, VNilPtr), Err errDecodeIntoNil))
    /\ (forall t v, Kind_eqb (Kind_of t) Ptr = false ->
          Stream_Decode fuel s (Some (t, v)) = Some (s, Some (t, v), Err errNoPointer))
    /\ Decode pool_scratch fuel input None = Some (None, Err errDecodeIntoNil)
    /\ (forall elem,
          Decode pool_scratch fuel input (Some (TPtr elem, VNilPtr))
          = Some (Some (TPtr elem, VNilPtr), Err errDecodeIntoNil))
    /\ (forall t v, Kind_eqb (Kind_of t) Ptr = false ->
          Decode pool_scratch fuel input (Some (t, v))
          = Some (Some (t, v), Err errNoPointer)).
Proof.
  intros fuel s ps input.
  assert (NP : forall s' t v, Kind_eqb (Kind_of t) Ptr = false ->
            Stream_Decode fuel s' (Some (t, v)) = Some (s', Some (t, v), Err errNoPointer)).
  { intros s' t v Hk. destruct t; try discriminate Hk; reflexivity. }
  repeat split; try reflexivity.
  - apply NP.
  - intros t v Hk. unfold Decode. rewrite NP by exact Hk. reflexivity.
Qed.

Lemma Decode_rejects_bad_targets_witness :
  Decode (replicate 32 0) 0 [1] (Some (TBool, VBool false))
  = Some (Some (TBool, VBool false), Err errNoPointer).
Proof.
  apply (Decode_rejects_bad_targets 0 (NewStream []) (replicate 32 0) [1]).
  reflexivity.
Defined.

(** C10: when [es.encode] returns an error, [Encode] returns that error and
    the caller's writer is in the state it was given in, whatever its
    [Write] method does: [Write] is reached only through [toWriter], after
    the whole value was encoded into the state's own buffer. *)
Theorem Encode_error_leaves_sink_untouched :
  forall (W : Type) (Write : W -> list Z -> W * Z * option error)
         (pool_scratch : list Z) (w : W) (val : option (type * value))
         (es' : encodeState) (err : error),
    encode pool_scratch (pool_Get_reset pool_scratch) val = (es', Err err) ->
    Encode Write pool_scratch w val = (w, Err err).
Proof.
  intros W Write ps w val es' err H.
  unfold Encode. rewrite H. reflexivity.
Qed.

Lemma Encode_error_leaves_sink_untouched_witness :
  Encode Buffer_Write (replicate 32 0) [7] (Some (TInt8, VInt 0))
  = ([7], Err (ErrNotSerializable Int8)).
Proof.
  apply (Encode_error_leaves_sink_untouched (list Z) Buffer_Write (replicate 32 0) [7]
           (Some (TInt8, VInt 0)) (pool_Get_reset (replicate 32 0))
           (ErrNotSerializable Int8)).
  reflexivity.
Defined.

(** ** Reading from the stream *)

Lemma Reader_Read_available (rd : Reader) (k : nat) (bs rest : list Z) :
  drop (r_i rd) (r_s rd) = bs ++ rest ->
  length bs = S k ->
  Reader_Read rd (S k) = (mkReader (r_s rd) (r_i rd + S k), bs, None).
Proof.
  intros Hd Hk. unfold Reader_Read.
  destruct (Nat.leb_spec (length (r_s rd)) (r_i rd)) as [Hle | Hlt].
  - rewrite drop_ge in Hd by lia. destruct bs; discriminate.
  - rewrite Hd, <- Hk, take_app_length, Hk. reflexivity.
Qed.

(** [readBytes] with enough input: the bytes land at the front of the
    scratch array and the reader moves past them. *)
Lemma readBytes_available (s : Stream) (k : nat) (bs rest : list Z) :
  drop (r_i (r s)) (r_s (r s)) = bs ++ rest ->
  length bs = S k ->
  readBytes s (S k)
  = (mkStream (mkReader (r_s (r s)) (r_i (r s) + S k)) (copy_at 0 bs (s_scratch s)),
     None).
Proof.
  intros Hd Hk. unfold readBytes.
  change (readBytes_loop (S (S k)) (S k) s 0 None)
    with (let '(rd, bs', err') := Reader_Read (r s) (S k - 0) in
          readBytes_loop (S k) (S k)
            (mkStream rd (copy_at 0 bs' (s_scratch s))) (0 + length bs') err').
  rewrite Nat.sub_0_r, (Reader_Read_available _ _ _ _ Hd Hk).
  cbn [readBytes_loop]. rewrite Hk. cbn [Nat.add].
  rewrite Nat.ltb_irrefl. reflexivity.
Qed.

(** The loop of [readBytes] stops only when its condition is false, as long
    as the fuel is above the bytes still missing. *)
Lemma readBytes_loop_exit (fuel size : nat) (s : Stream) (n : nat) (err : option error) :
  (size - n < fuel)%nat ->
  let '(_, n', err') := readBytes_loop fuel size s n err in
  (size <= n')%nat \/ err' <> None.
Proof.
  revert s n err. induction fuel as [| fuel IH]; intros s n err Hf; [lia |].
  cbn [readBytes_loop]. destruct err as [e |]; [right; discriminate |].
  destruct (Nat.ltb_spec n size) as [Hlt | Hge]; [| left; exact Hge].
  unfold Reader_Read.
  destruct (Nat.leb_spec (length (r_s (r s))) (r_i (r s))) as [Hle | Hin].
  - destruct fuel; cbn [readBytes_loop]; right; discriminate.
  - apply IH. rewrite length_take, length_drop. lia.
Qed.

Lemma uint8_through_int8 (b : Z) :
  0 <= b < 256 -> to_uint8 (to_uint64 (to_int8 b)) = b.
Proof.
  intros Hb. unfold to_uint8, to_uint64, to_int8, to_uint8.
  change (2 ^ 8) with 256. change (2 ^ 64) with 18446744073709551616.
  rewrite (Z.mod_small b 256) by lia.
  destruct (Z.ltb_spec b 128).
  - rewrite (Z.mod_small b) by lia. apply Z.mod_small; lia.
  - replace ((b - 256) mod 18446744073709551616)
      with (b - 256 + 18446744073709551616).
    + replace (b - 256 + 18446744073709551616)
        with (b + 72057594037927935 * 256) by lia.
      rewrite Z.mod_add by lia. apply Z.mod_small; lia.
    + apply (Z.mod_unique_pos (b - 256) 18446744073709551616 (-1)); lia.
Qed.

(** C5: [decodeUint] on a [uint8] target, with the byte [b] next in the
    section, returns nil, moves one byte forward and stores the unsigned
    value [b]: the detour through [int8] sign-extends to 64 bits, and
    [SetUint] on a [uint8] keeps the low eight bits, which are [b] again.
    Hence every [uint8] is decoded from its own encoding. *)
Theorem decodeUint_uint8_stores_the_byte :
  forall (s : Stream) (b x0 : Z) (pool_scratch : list Z) (fuel : nat),
    0 <= b < 256 ->
    r_s (r s) !! r_i (r s) = Some b ->
    length pool_scratch = 32%nat ->
    decodeUint TUint8 s (VUint x0)
    = Some (mkStream (mkReader (r_s (r s)) (r_i (r s) + 1))
                     (copy_at 0 [b] (s_scratch s)),
            VUint b, Nil)
    /\ Encode Buffer_Write pool_scratch [] (Some (TUint8, VUint b)) = ([b], Nil)
    /\ Decode pool_scratch fuel [b] (Some (TPtr TUint8, VPtr (VUint x0)))
       = Some (Some (TPtr TUint8, VPtr (VUint b)), Nil).
Proof.
  intros s b x0 ps fuel Hb Hnext Hps.
  assert (D : forall s', r_s (r s') !! r_i (r s') = Some b ->
            decodeUint TUint8 s' (VUint x0)
            = Some (mkStream (mkReader (r_s (r s')) (r_i (r s') + 1))
                             (copy_at 0 [b] (s_scratch s')),
                    VUint b, Nil)).
  { intros s' Hn. unfold decodeUint. cbn [getTypeSize].
    change (32 <? 1) with false. cbv iota.
    change (Z.to_nat 1) with 1%nat.
    rewrite (readBytes_available s' 0 [b] (drop (S (r_i (r s'))) (r_s (r s'))))
      by (try reflexivity; apply drop_S; exact Hn).
    change (1 =? 1) with true. cbv iota. cbn [s_scratch].
    unfold copy_at at 1. cbn [firstn app byte_at nth].
    unfold SetUint. cbn [Kind_of].
    rewrite uint8_through_int8 by exact Hb. reflexivity. }
  split; [exact (D s Hnext) | split].
  - unfold Encode, encode, pool_Get_reset, reset. cbn [typeEncoder scratch].
    destruct ps as [| p0 ps]; [discriminate Hps |].
    cbn -[to_uint8 Z.pow].
    unfold to_uint8. rewrite Z.mod_small by (change (2 ^ 8) with 256; lia).
    destruct (0 <? 1) eqn:E; [| discriminate E].
    cbn. reflexivity.
  - unfold Decode, Stream_Decode. cbn [newTypeDecoder typeDecoder].
    rewrite D by reflexivity. reflexivity.
Qed.

Lemma decodeUint_uint8_stores_the_byte_witness :
  decodeUint TUint8 (NewStream [255]) (VUint 0)
  = Some (mkStream (mkReader [255] 1) (copy_at 0 [255] (replicate 32 0)),
          VUint 255, Nil)
  /\ Encode Buffer_Write (replicate 32 0) [] (Some (TUint8, VUint 255)) = ([255], Nil)
  /\ Decode (replicate 32 0) 0 [255] (Some (TPtr TUint8, VPtr (VUint 0)))
     = Some (Some (TPtr TUint8, VPtr (VUint 255)), Nil).
Proof.
  apply (decodeUint_uint8_stores_the_byte (NewStream [255]) 255 0 (replicate 32 0) 0).
  - lia.
  - reflexivity.
  - reflexivity.
Defined.

(** ** Big integers *)

(** The number a little-endian byte list stands for. *)
Definition le_value (bytes : list Z) : Z :=
  fold_right (fun b acc => b + 256 * acc) 0 bytes.

Lemma le_value_app_zeros (bytes : list Z) (k : nat) :
  le_value (bytes ++ replicate k 0) = le_value bytes.
Proof.
  induction bytes as [| b bytes IH]; cbn [app le_value fold_right].
  - induction k as [| k IHk]; [reflexivity |].
    cbn [replicate fold_right]. unfold le_value in IHk. rewrite IHk. reflexivity.
  - unfold le_value in IH. rewrite IH. reflexivity.
Qed.

Lemma le_digits_value (fuel : nat) (x : Z) :
  0 <= x < 2 ^ Z.of_nat fuel -> le_value (le_digits fuel x) = x.
Proof.
  revert x. induction fuel as [| fuel IH]; intros x Hx.
  - cbn in Hx. cbn. lia.
  - cbn [le_digits]. destruct (Z.eqb_spec x 0) as [-> | Hne]; [reflexivity |].
    cbn [le_value fold_right]. fold (le_value (le_digits fuel (x / 256))).
    rewrite IH.
    + pose proof (Z.div_mod x 256). lia.
    + rewrite Nat2Z.inj_succ, Z.pow_succ_r in Hx by lia.
      split; [apply Z.div_pos; lia |].
      apply Z.div_lt_upper_bound; lia.
Qed.

Lemma big_Bytes_value (i : Z) : 0 <= i -> le_value (rev (big_Bytes i)) = i.
Proof.
  intros Hi. unfold big_Bytes. rewrite rev_involutive, Z.abs_eq by exact Hi.
  apply le_digits_value.
  rewrite Nat2Z.inj_succ, Z2Nat.id by apply Z.log2_nonneg.
  destruct (Z.eqb_spec i 0) as [-> | Hne]; [cbn; lia |].
  split; [exact Hi |]. apply Z.log2_spec. lia.
Qed.

Lemma drop_insert_at (l : list Z) (k : nat) (x : Z) :
  (k < length l)%nat -> drop k (<[k := x]> l) = x :: drop (S k) l.
Proof.
  intros Hk. rewrite insert_take_drop by exact Hk.
  rewrite drop_app_length' by (rewrite length_take; lia). reflexivity.
Qed.

(** The first loop of [encodeBigInt] leaves the bytes reversed at the front
    of the scratch array. *)
Lemma store_reversed_spec (bigEndian : list Z) :
  forall (n i : nat) (sc : list Z),
    (i + length bigEndian = n)%nat -> (length bigEndian <= length sc)%nat ->
    store_reversed n i bigEndian sc = rev bigEndian ++ drop (length bigEndian) sc.
Proof.
  induction bigEndian as [| b rest IH]; intros n i sc Hn Hlen.
  - cbn. rewrite drop_0. reflexivity.
  - cbn [store_reversed length] in *.
    replace (n - i - 1)%nat with (length rest) by lia.
    rewrite (IH n (S i)); [| lia | rewrite length_insert; lia].
    rewrite drop_insert_at by lia.
    cbn [rev]. rewrite <- app_assoc. reflexivity.
Qed.

(** The second loop zeroes [count] bytes from index [i]. *)
Lemma zero_fill_spec (count : nat) :
  forall (i : nat) (sc : list Z),
    (i + count <= length sc)%nat ->
    zero_fill count i sc = take i sc ++ replicate count 0 ++ drop (i + count) sc.
Proof.
  induction count as [| count IH]; intros i sc Hlen.
  - cbn [zero_fill replicate app]. rewrite Nat.add_0_r, take_drop. reflexivity.
  - cbn [zero_fill replicate].
    rewrite IH by (rewrite length_insert; lia).
    rewrite (take_S_r _ i 0) by (apply list_lookup_insert_eq; lia).
    rewrite take_insert_ge by lia.
    rewrite drop_insert_lt by lia.
    rewrite <- app_assoc. cbn [app].
    replace (S i + count)%nat with (i + S count)%nat by lia. reflexivity.
Qed.

(** C7: [encodeBigInt] returns the negative-value error for a negative
    integer, the width error when the minimal big-endian byte length is
    under 9 or over 32, and otherwise appends the bytes in little-endian
    order followed by zeroes, 16 bytes in all for 9 to 16 bytes and 32 bytes
    in all for 17 to 32; the bytes appended stand for the integer. *)
Theorem encodeBigInt_errors_and_width :
  forall (e : encodeState) (i : Z),
    length (scratch e) = 32%nat ->
    let n := length (big_Bytes i) in
    let width := if (n <=? 16)%nat then 16%nat else 32%nat in
    (i < 0 -> encodeBigInt e i = (e, Err ErrNegativeBigInt))
    /\ (0 <= i -> (n < 9 \/ 32 < n)%nat ->
        encodeBigInt e i = (e, Err ErrBigIntWidth))
    /\ (0 <= i -> (9 <= n <= 32)%nat ->
        exists (out sc' : list Z),
          encodeBigInt e i = (mkEncodeState (buffer e ++ out) (auxBuffer e) sc', Nil)
          /\ length sc' = 32%nat
          /\ out = rev (big_Bytes i) ++ replicate (width - n) 0
          /\ length out = width
          /\ le_value out = i).
Proof.
  intros e i Hsc n width. unfold encodeBigInt. fold n.
  repeat split.
  - intros Hneg. destruct (Z.ltb_spec i 0); [reflexivity | lia].
  - intros Hpos Hn. destruct (Z.ltb_spec i 0); [lia |].
    destruct (Nat.ltb_spec n 9); [reflexivity |].
    destruct (Nat.ltb_spec 32 n); [reflexivity | lia].
  - intros Hpos Hn. destruct (Z.ltb_spec i 0); [lia |].
    destruct (Nat.ltb_spec n 9); [lia |].
    destruct (Nat.ltb_spec 32 n); [lia |]. cbn [orb].
    assert (Hw : (if (17 <=? n)%nat then 32%nat else 16%nat) = width).
    { unfold width. destruct (Nat.leb_spec 17 n), (Nat.leb_spec n 16); lia || reflexivity. }
    rewrite Hw.
    assert (Hnw : (n <= width)%nat).
    { unfold width. destruct (Nat.leb_spec n 16); lia. }
    assert (Hw32 : (width <= 32)%nat).
    { unfold width. destruct (Nat.leb_spec n 16); lia. }
    rewrite (store_reversed_spec (big_Bytes i) n 0) by (fold n; lia). fold n.
    rewrite zero_fill_spec
      by (rewrite length_app, length_rev, length_drop; fold n; lia).
    rewrite take_app_length' by (rewrite length_rev; reflexivity).
    rewrite drop_app_add' by (rewrite length_rev; reflexivity).
    rewrite drop_drop.
    replace (n + (width - n))%nat with width by lia.
    set (out := rev (big_Bytes i) ++ replicate (width - n) 0).
    assert (Hout : length out = width).
    { unfold out. rewrite length_app, length_rev, length_replicate. fold n. lia. }
    exists out, (out ++ drop width (scratch e)).
    replace (rev (big_Bytes i) ++ replicate (width - n) 0 ++ drop width (scratch e))
      with (out ++ drop width (scratch e))
      by (unfold out; rewrite <- app_assoc; reflexivity).
    rewrite take_app_length' by (symmetry; exact Hout).
    repeat split.
    + rewrite length_app, length_drop. lia.
    + exact Hout.
    + unfold out. rewrite le_value_app_zeros. apply big_Bytes_value. exact Hpos.
Qed.

Lemma encodeBigInt_errors_and_width_witness :
  exists (out sc' : list Z),
    encodeBigInt (mkEncodeState [] [] (replicate 32 7)) (2 * 2 ^ 64 + 1)
    = (mkEncodeState ([] ++ out) [] sc', Nil)
    /\ length sc' = 32%nat
    /\ out = rev (big_Bytes (2 * 2 ^ 64 + 1)) ++ replicate (16 - 9) 0
    /\ length out = 16%nat
    /\ le_value out = 2 * 2 ^ 64 + 1.
Proof.
  destruct (encodeBigInt_errors_and_width
              (mkEncodeState [] [] (replicate 32 7)) (2 * 2 ^ 64 + 1) eq_refl)
    as (_ & _ & H).
  apply H.
  - lia.
  - vm_compute. lia.
Defined.

(** ** Slices of variable-size elements *)

(** The layout the specification describes for a slice of variable-size
    elements, written from its words and used only to state what is
    compared with [decodeSlice]: the first offset O1 gives the count O1 / 4,
    the head holds that many offsets, and element i occupies the bytes from
    its offset to the next offset, the last one to the end of the section. *)
Definition spec_offsets (section : list Z) : list Z :=
  map (fun i => offset_at section (4 * i))
      (seq 0 (Z.to_nat (offset_at section 0 / 4))).

Definition spec_payloads (section : list Z) : list (list Z) :=
  let offs := spec_offsets section in
  map (fun ab => take (Z.to_nat (snd ab - fst ab)) (drop (Z.to_nat (fst ab)) section))
      (combine offs (drop 1 offs ++ [Z.of_nat (length section)])).

Lemma newSectionStream_tail (s : Stream) (offset : Z) :
  0 <= offset < size s ->
  newSectionStream s offset (size s - offset)
  = (Some (NewStream (drop (Z.to_nat offset) (r_s (r s)))), Nil).
Proof.
  intros Ho. unfold newSectionStream.
  destruct (Z.ltb_spec (size s - offset) 0); [lia |].
  destruct (Z.leb_spec (size s) offset); [lia |].
  unfold size in *.
  rewrite take_ge by (rewrite length_drop; lia).
  destruct (Z.ltb_spec (Z.of_nat (length (drop (Z.to_nat offset) (r_s (r s)))))
              (Z.of_nat (length (r_s (r s))) - offset)) as [Hlt | _].
  - rewrite length_drop in Hlt. lia.
  - reflexivity.
Qed.

(** ** Fixed-size types *)


Lemma list_all_Forall {A : Type} (P : A -> Prop) (l : list A) :
  list_all A P l -> Forall P l.
Proof. induction 1; constructor; assumption. Qed.


Lemma isByte_TUint8 (t : type) : isByte t = true -> t = TUint8.
Proof. destruct t; try discriminate; reflexivity. Qed.

Lemma take_PutUint16 (sc : list Z) (v : Z) :
  (2 <= length sc)%nat ->
  take 2 (PutUint16 sc v) = [to_uint8 v; to_uint8 (Z.shiftr v 8)].
Proof.
  intros H. destruct sc as [| a [| b sc]]; cbn [length] in H; try lia. reflexivity.
Qed.

Lemma take_PutUint32 (sc : list Z) (v : Z) :
  (4 <= length sc)%nat ->
  take 4 (PutUint32 sc v)
  = [to_uint8 v; to_uint8 (Z.shiftr v 8); to_uint8 (Z.shiftr v 16);
     to_uint8 (Z.shiftr v 24)].
Proof.
  intros H. destruct sc as [| a [| b [| c [| d sc]]]]; cbn [length] in H; try lia.
  reflexivity.
Qed.

Lemma take_PutUint64 (sc : list Z) (v : Z) :
  (8 <= length sc)%nat ->
  take 8 (PutUint64 sc v)
  = [to_uint8 v; to_uint8 (Z.shiftr v 8); to_uint8 (Z.shiftr v 16);
     to_uint8 (Z.shiftr v 24); to_uint8 (Z.shiftr v 32); to_uint8 (Z.shiftr v 40);
     to_uint8 (Z.shiftr v 48); to_uint8 (Z.shiftr v 56)].
Proof.
  intros H.
  destruct sc as [| a0 [| a1 [| a2 [| a3 [| a4 [| a5 [| a6 [| a7 sc]]]]]]]];
    cbn [length] in H; try lia.
  reflexivity.
Qed.

Lemma length_PutUint16 sc v : length (PutUint16 sc v) = length sc.
Proof. unfold PutUint16. rewrite !length_insert. reflexivity. Qed.

Lemma length_PutUint32 sc v : length (PutUint32 sc v) = length sc.
Proof. unfold PutUint32. rewrite !length_insert. reflexivity. Qed.

Lemma length_PutUint64 sc v : length (PutUint64 sc v) = length sc.
Proof. unfold PutUint64. rewrite !length_insert. apply length_PutUint32. Qed.

(** The bytes [encodeUint] writes for a value of each unsigned type. *)
Definition uint_bytes (t : type) (n : Z) : list Z :=
  match t with
  | TUint8 => [to_uint8 n]
  | TUint16 => [to_uint8 (to_uint16 n); to_uint8 (Z.shiftr (to_uint16 n) 8)]
  | TUint32 =>
      [to_uint8 (to_uint32 n); to_uint8 (Z.shiftr (to_uint32 n) 8);
       to_uint8 (Z.shiftr (to_uint32 n) 16); to_uint8 (Z.shiftr (to_uint32 n) 24)]
  | TUint64 =>
      [to_uint8 n; to_uint8 (Z.shiftr n 8); to_uint8 (Z.shiftr n 16);
       to_uint8 (Z.shiftr n 24); to_uint8 (Z.shiftr n 32); to_uint8 (Z.shiftr n 40);
       to_uint8 (Z.shiftr n 48); to_uint8 (Z.shiftr n 56)]
  | _ => []
  end.

Definition is_uintN (t : type) : bool :=
  match t with TUint8 | TUint16 | TUint32 | TUint64 => true | _ => false end.

Lemma encodeUint_bytes (e : encodeState) (t : type) (n : Z) :
  is_uintN t = true ->
  length (scratch e) = 32%nat ->
  exists sc',
    encodeUint e t (VUint n)
    = (mkEncodeState (buffer e ++ uint_bytes t n) (auxBuffer e) sc', Nil)
    /\ length sc' = 32%nat
    /\ getTypeSize t (VUint n) = Some (Z.of_nat (length (uint_bytes t n))).
Proof.
  intros Ht Hsc. destruct t; try discriminate Ht; cbn [encodeUint Kind_of].
  - eexists. unfold buffer_Write, set_scratch. cbn [buffer auxBuffer scratch].
    split; [| split; [| reflexivity]].
    + f_equal. f_equal. f_equal.
      destruct (scratch e); [discriminate Hsc | reflexivity].
    + rewrite length_insert. exact Hsc.
  - eexists. unfold buffer_Write, set_scratch. cbn [buffer auxBuffer scratch].
    split; [| split; [| reflexivity]].
    + rewrite take_PutUint16 by lia. reflexivity.
    + rewrite length_PutUint16. exact Hsc.
  - eexists. unfold buffer_Write, set_scratch. cbn [buffer auxBuffer scratch].
    split; [| split; [| reflexivity]].
    + rewrite take_PutUint32 by lia. reflexivity.
    + rewrite length_PutUint32. exact Hsc.
  - eexists. unfold buffer_Write, set_scratch. cbn [buffer auxBuffer scratch].
    split; [| split; [| reflexivity]].
    + rewrite take_PutUint64 by lia. reflexivity.
    + rewrite length_PutUint64. exact Hsc.
Qed.

(** [Encode] into a [bytes.Buffer]: what the encoder gathered is appended
    to the buffer. *)
Lemma Encode_to_Buffer (ps w : list Z) (t : type) (v : value) (ef : encoderFunc)
    (e' : encodeState) :
  typeEncoder t = inr ef ->
  call ps ef (pool_Get_reset ps) t v = (e', Nil) ->
  Encode Buffer_Write ps w (Some (t, v)) = (w ++ buffer e', Nil).
Proof.
  intros Hef Hcall. unfold Encode, encode. rewrite Hef, Hcall.
  unfold toWriter, Buffer_Write.
  destruct (buffer e') as [| b bs] eqn:Hb.
  - cbn. rewrite app_nil_r. reflexivity.
  - destruct (Z.ltb_spec 0 (Z.of_nat (length (b :: bs)))) as [_ | H];
      [| cbn [length] in H; lia].
    rewrite Z.ltb_irrefl, Z.eqb_refl. reflexivity.
Qed.

(** Unfolding equations. *)
Lemma call_eq (ps : list Z) (ef : encoderFunc) (e : encodeState) (t : type) (v : value) :
  call ps ef e t v
  = match ef with
    | fn_encodeInterface => encodeInterface (call ps) e v
    | fn_encodePtr => encodePtr (call ps) e t v
    | fn_encodeBigIntPtr => encodeBigIntPtr e v
    | fn_encodeBigIntNoPtr => encodeBigIntNoPtr e v
    | fn_encodeBool => encodeBool e v
    | fn_encodeUint => encodeUint e t v
    | fn_encodeByteArray => encodeByteArray e v
    | fn_encodeByteSlice => encodeByteSlice e v
    | fn_encodeString => encodeString e v
    | fn_encodeSlice => encodeSlice ps (call ps) e t v
    | fn_encodeArray => encodeArray ps (call ps) e t v
    | fn_encodeStruct => encodeStruct ps (call ps) e t v
    end.
Proof. destruct v; reflexivity. Qed.






Lemma encodeArray_loop_cons ps cl het s1size telem elem rest ef e :
  encodeArray_loop ps cl het s1size telem (elem :: rest) ef e
  = let ef' :=
      if match ef with None => true | Some _ => false end || het
      then match typeEncoder telem with inl _ => None | inr f => Some f end
      else ef in
    match ef' with
    | None => inl (e, Nil)
    | Some f =>
        match isFixedType telem with
        | None => inl (e, Panic)
        | Some true =>
            match cl f e telem elem with
            | (e', Nil) => encodeArray_loop ps cl het s1size telem rest ef' e'
            | (e', out) => inl (e', out)
            end
        | Some false =>
            match encode_to_tail ps cl f s1size e telem elem with
            | (e', Nil) => encodeArray_loop ps cl het s1size telem rest ef' e'
            | (e', out) => inl (e', out)
            end
        end
    end.
Proof. reflexivity. Qed.


Lemma Bytes_of_bytes (elems : list value) :
  forallb (wt TUint8) elems = true ->
  exists bs, Bytes elems = Some bs /\ length bs = length elems.
Proof.
  induction elems as [| x elems IH]; intros H.
  - exists []. split; reflexivity.
  - cbn [forallb] in H. apply andb_prop in H as [Hx Hrest].
    destruct (IH Hrest) as (bs & Hbs & Hlen).
    destruct x; try discriminate Hx.
    exists (n :: bs). cbn [Bytes]. rewrite Hbs. cbn [length]. auto.
Qed.







Example fixed_struct_bytes :
  Encode_bytes (TStruct [(true, TBool); (true, TArray 2 TUint16); (true, TPtr TUint8)])
    (VStruct [VBool true; VArray [VUint 1; VUint 515]; VPtr (VUint 9)])
  = ([1; 1; 0; 3; 2; 9], Nil).
Proof. vm_compute. reflexivity. Qed.

(** ** Little-endian integers read back *)

Lemma lor_shiftl_add (a b k : Z) :
  0 <= k -> 0 <= a < 2 ^ k -> Z.lor a (Z.shiftl b k) = a + b * 2 ^ k.
Proof.
  intros Hk Ha.
  assert (Hland : Z.land a (Z.shiftl b k) = 0).
  { apply Z.bits_inj'. intros i Hi.
    rewrite Z.land_spec, Z.bits_0.
    destruct (Z.lt_ge_cases i k) as [Hlt | Hge].
    - rewrite Z.shiftl_spec_low by exact Hlt. apply andb_false_r.
    - replace (Z.testbit a i) with false; [reflexivity |].
      symmetry. rewrite <- (Z.mod_small a (2 ^ k)) by exact Ha.
      apply Z.mod_pow2_bits_high. lia. }
  rewrite <- Z.lxor_lor by exact Hland.
  rewrite <- Z.add_nocarry_lxor by exact Hland.
  rewrite Z.shiftl_mul_pow2 by exact Hk. reflexivity.
Qed.

Lemma to_uint8_range (x : Z) : 0 <= to_uint8 x < 256.
Proof. unfold to_uint8. change (2 ^ 8) with 256. apply Z.mod_pos_bound. lia. Qed.

Lemma LE_Uint16_bytes (n : Z) :
  0 <= n < 2 ^ 16 -> LE_Uint16 (uint_bytes TUint16 n) = n.
Proof.
  intros Hn. unfold LE_Uint16, uint_bytes, byte_at. cbn [nth].
  unfold to_uint16. rewrite (Z.mod_small n) by exact Hn.
  pose proof (to_uint8_range n) as H0.
  rewrite lor_shiftl_add by (change (2 ^ 8) with 256; lia).
  unfold to_uint8 in *. rewrite Z.shiftr_div_pow2 by lia.
  change (2 ^ 8) with 256 in *. change (2 ^ 16) with 65536 in *.
  Z.div_mod_to_equations. lia.
Qed.

Lemma LE_Uint32_bytes (n : Z) :
  0 <= n < 2 ^ 32 -> LE_Uint32 (uint_bytes TUint32 n) = n.
Proof.
  intros Hn. unfold LE_Uint32, uint_bytes, byte_at. cbn [nth].
  unfold to_uint32. rewrite (Z.mod_small n) by exact Hn.
  pose proof (to_uint8_range n) as H0.
  pose proof (to_uint8_range (Z.shiftr n 8)) as H1.
  pose proof (to_uint8_range (Z.shiftr n 16)) as H2.
  pose proof (to_uint8_range (Z.shiftr n 24)) as H3.
  rewrite (lor_shiftl_add _ _ 8) by (change (2 ^ 8) with 256; lia).
  rewrite (lor_shiftl_add _ _ 16) by (change (2 ^ 8) with 256; change (2 ^ 16) with 65536; lia).
  rewrite (lor_shiftl_add _ _ 24)
    by (change (2 ^ 8) with 256; change (2 ^ 16) with 65536;
        change (2 ^ 24) with 16777216; lia).
  unfold to_uint8 in *. rewrite !Z.shiftr_div_pow2 by lia.
  change (2 ^ 8) with 256 in *. change (2 ^ 16) with 65536 in *.
  change (2 ^ 24) with 16777216 in *. change (2 ^ 32) with 4294967296 in *.
  Z.div_mod_to_equations. lia.
Qed.

Lemma LE_Uint64_bytes (n : Z) :
  0 <= n < 2 ^ 64 -> LE_Uint64 (uint_bytes TUint64 n) = n.
Proof.
  intros Hn. unfold LE_Uint64, uint_bytes, byte_at. cbn [nth].
  pose proof (to_uint8_range n) as H0.
  pose proof (to_uint8_range (Z.shiftr n 8)) as H1.
  pose proof (to_uint8_range (Z.shiftr n 16)) as H2.
  pose proof (to_uint8_range (Z.shiftr n 24)) as H3.
  pose proof (to_uint8_range (Z.shiftr n 32)) as H4.
  pose proof (to_uint8_range (Z.shiftr n 40)) as H5.
  pose proof (to_uint8_range (Z.shiftr n 48)) as H6.
  pose proof (to_uint8_range (Z.shiftr n 56)) as H7.
  assert (P8 : 2 ^ 8 = 256) by reflexivity.
  assert (P16 : 2 ^ 16 = 65536) by reflexivity.
  assert (P24 : 2 ^ 24 = 16777216) by reflexivity.
  assert (P32 : 2 ^ 32 = 4294967296) by reflexivity.
  assert (P40 : 2 ^ 40 = 1099511627776) by reflexivity.
  assert (P48 : 2 ^ 48 = 281474976710656) by reflexivity.
  assert (P56 : 2 ^ 56 = 72057594037927936) by reflexivity.
  assert (P64 : 2 ^ 64 = 18446744073709551616) by reflexivity.
  rewrite (lor_shiftl_add _ _ 8) by (rewrite ?P8; lia).
  rewrite (lor_shiftl_add _ _ 16) by (rewrite ?P8, ?P16; lia).
  rewrite (lor_shiftl_add _ _ 24) by (rewrite ?P8, ?P16, ?P24; lia).
  rewrite (lor_shiftl_add _ _ 32) by (rewrite ?P8, ?P16, ?P24, ?P32; lia).
  rewrite (lor_shiftl_add _ _ 40) by (rewrite ?P8, ?P16, ?P24, ?P32, ?P40; lia).
  rewrite (lor_shiftl_add _ _ 48) by (rewrite ?P8, ?P16, ?P24, ?P32, ?P40, ?P48; lia).
  rewrite (lor_shiftl_add _ _ 56)
    by (rewrite ?P8, ?P16, ?P24, ?P32, ?P40, ?P48, ?P56; lia).
  unfold to_uint8 in *. rewrite !Z.shiftr_div_pow2 by lia.
  rewrite ?P8, ?P16, ?P24, ?P32, ?P40, ?P48, ?P56, ?P64 in *.
  Z.div_mod_to_equations. lia.
Qed.

(** ** Decoding what was encoded *)

Lemma in_range_spec (bits n : Z) : in_range bits n = true -> 0 <= n < 2 ^ bits.
Proof. unfold in_range. intros H. apply andb_prop in H as [H1 H2]. lia. Qed.

Lemma take_copy_at_0 (bs sc : list Z) (k : nat) :
  k = length bs -> take k (copy_at 0 bs sc) = bs.
Proof. intros ->. unfold copy_at. rewrite take_0. cbn [app]. apply take_app_length. Qed.

Lemma decodeUint_bytes (t : type) (n : Z) (s : Stream) (v0 : value) (rest : list Z) :
  is_uintN t = true ->
  wt t (VUint n) = true -> wt t v0 = true ->
  drop (r_i (r s)) (r_s (r s)) = uint_bytes t n ++ rest ->
  decodeUint t s v0
  = Some (mkStream (mkReader (r_s (r s)) (r_i (r s) + length (uint_bytes t n)))
                   (copy_at 0 (uint_bytes t n) (s_scratch s)),
          VUint n, Nil).
Proof.
  intros Ht Hn Hv0 Hdrop.
  destruct t; try discriminate Ht; destruct v0; try discriminate Hv0;
    cbn [wt] in Hn; apply in_range_spec in Hn; unfold decodeUint; cbn [getTypeSize].
  - change (32 <? 1) with false. cbv iota. change (Z.to_nat 1) with 1%nat.
    rewrite (readBytes_available s 0 _ rest Hdrop eq_refl).
    change (1 =? 1) with true. cbv iota. cbn [s_scratch].
    cbn [uint_bytes]. unfold copy_at at 1. rewrite take_0. cbn [app byte_at nth].
    unfold SetUint. cbn [Kind_of length].
    replace (to_uint8 (to_uint64 (to_int8 (to_uint8 n)))) with n; [reflexivity |].
    unfold to_uint8 at 2. rewrite Z.mod_small by exact Hn.
    symmetry. apply uint8_through_int8. change (2 ^ 8) with 256 in Hn. exact Hn.
  - change (32 <? 2) with false. cbv iota. change (Z.to_nat 2) with 2%nat.
    rewrite (readBytes_available s 1 _ rest Hdrop eq_refl).
    change (2 =? 1) with false. change (2 =? 2) with true. cbv iota. cbn [s_scratch].
    rewrite take_copy_at_0 by reflexivity.
    rewrite LE_Uint16_bytes by exact Hn.
    unfold SetUint. cbn [Kind_of].
    unfold to_uint64, to_uint16. rewrite (Z.mod_small n (2 ^ 64)) by lia.
    rewrite Z.mod_small by exact Hn. reflexivity.
  - change (32 <? 4) with false. cbv iota. change (Z.to_nat 4) with 4%nat.
    rewrite (readBytes_available s 3 _ rest Hdrop eq_refl).
    change (4 =? 1) with false. change (4 =? 2) with false.
    change (4 =? 4) with true. cbv iota. cbn [s_scratch].
    rewrite take_copy_at_0 by reflexivity.
    rewrite LE_Uint32_bytes by exact Hn.
    unfold SetUint. cbn [Kind_of].
    unfold to_uint64, to_uint32. rewrite (Z.mod_small n (2 ^ 64)) by lia.
    rewrite Z.mod_small by exact Hn. reflexivity.
  - change (32 <? 8) with false. cbv iota. change (Z.to_nat 8) with 8%nat.
    rewrite (readBytes_available s 7 _ rest Hdrop eq_refl).
    change (8 =? 1) with false. change (8 =? 2) with false.
    change (8 =? 4) with false. change (8 =? 8) with true. cbv iota. cbn [s_scratch].
    rewrite take_copy_at_0 by reflexivity.
    rewrite LE_Uint64_bytes by exact Hn.
    unfold SetUint. cbn [Kind_of].
    unfold to_uint64. rewrite Z.mod_small by exact Hn. reflexivity.
Qed.

Lemma lookup_of_drop (l : list Z) (i : nat) (b : Z) (rest : list Z) :
  drop i l = b :: rest -> l !! i = Some b.
Proof.
  intros H. rewrite <- (Nat.add_0_r i), <- lookup_drop, H. reflexivity.
Qed.

Definition bool_byte (b : bool) : Z := if b then 1 else 0.

Lemma decodeBool_byte (b : bool) (s : Stream) (v0 : value) (rest : list Z) :
  wt TBool v0 = true ->
  drop (r_i (r s)) (r_s (r s)) = bool_byte b :: rest ->
  decodeBool s v0
  = Some (mkStream (mkReader (r_s (r s)) (r_i (r s) + 1)) (s_scratch s), VBool b, Nil).
Proof.
  intros Hv0 Hdrop. destruct v0; try discriminate Hv0.
  unfold decodeBool, readByte, Reader_ReadByte.
  rewrite (lookup_of_drop _ _ _ _ Hdrop). destruct b; reflexivity.
Qed.

Lemma decodeBool_at_end (s : Stream) (v0 : value) :
  drop (r_i (r s)) (r_s (r s)) = [] ->
  decodeBool s v0 = Some (s, v0, Err EOF).
Proof.
  intros Hdrop. unfold decodeBool, readByte, Reader_ReadByte.
  rewrite lookup_ge_None_2.
  - destruct s; reflexivity.
  - apply drop_nil_inv in Hdrop. exact Hdrop.
Qed.

(** The types [Decode] inverts [Encode] on, as elements: bool, the sized
    unsigned integers and arrays of these. *)
Fixpoint decodable_elem (t : type) : bool :=
  match t with
  | TBool | TUint8 | TUint16 | TUint32 | TUint64 => true
  | TArray _ elem => decodable_elem elem
  | _ => false
  end.

(** [df] reads the bytes [bs] off the front of what is left of a stream and
    leaves [v] in a target of type [t]. *)
Definition decodes_to (t : type) (df : DecoderFunc) (v : value) (bs : list Z) : Prop :=
  forall (s : Stream) (v0 : value) (rest : list Z),
    wt t v0 = true ->
    drop (r_i (r s)) (r_s (r s)) = bs ++ rest ->
    exists sc2,
      df s v0
      = Some (mkStream (mkReader (r_s (r s)) (r_i (r s) + length bs)) sc2, v, Nil).

Definition roundtrip_ok (ps : list Z) (fuel : nat) (t : type) : Prop :=
  exists (ef : encoderFunc) (df : DecoderFunc),
    typeEncoder t = inr ef /\ typeDecoder fuel t = inr df /\
    forall (v : value) (e : encodeState),
      wt t v = true -> auxBuffer e = [] -> length (scratch e) = 32%nat ->
      exists (bs sc' : list Z),
        call ps ef e t v = (mkEncodeState (buffer e ++ bs) [] sc', Nil)
        /\ length sc' = 32%nat
        /\ decodes_to t df v bs.

Lemma decodeArray_loop_decodes (telem : type) (df : DecoderFunc) :
  forall (elems : list value) (bss : list (list Z)),
    Forall2 (decodes_to telem df) elems bss ->
    forall (s : Stream) (vs0 : list value) (rest : list Z),
      forallb (wt telem) vs0 = true ->
      length vs0 = length elems ->
      drop (r_i (r s)) (r_s (r s)) = concat bss ++ rest ->
      exists sc2,
        decodeArray_loop df vs0 s
        = Some (mkStream (mkReader (r_s (r s)) (r_i (r s) + length (concat bss))) sc2,
                elems, Nil).
Proof.
  induction 1 as [| v bs elems bss Hv _ IH]; intros s vs0 rest Hwt Hlen Hdrop.
  - destruct vs0; [| discriminate Hlen].
    exists (s_scratch s). cbn. rewrite Nat.add_0_r. destruct s as [[l i] sc]. reflexivity.
  - destruct vs0 as [| x vs0]; [discriminate Hlen |].
    cbn [forallb] in Hwt. apply andb_prop in Hwt as [Hx Hwt].
    cbn [concat] in Hdrop. rewrite <- app_assoc in Hdrop.
    destruct (Hv s x _ Hx Hdrop) as (sc1 & Hdec).
    cbn [decodeArray_loop]. rewrite Hdec.
    destruct (IH (mkStream (mkReader (r_s (r s)) (r_i (r s) + length bs)) sc1) vs0 rest Hwt)
      as (sc2 & Hloop).
    + cbn [length] in Hlen. lia.
    + cbn [r r_s r_i]. rewrite <- drop_drop, Hdrop.
      apply drop_app_length.
    + rewrite Hloop. cbn [r r_s r_i]. exists sc2.
      cbn [concat]. rewrite length_app, Nat.add_assoc. reflexivity.
Qed.

Lemma byte_array_decodes (elems : list value) (bs : list Z) :
  forallb (wt TUint8) elems = true ->
  Bytes elems = Some bs ->
  Forall2 (decodes_to TUint8 (decodeUint TUint8)) elems (map (fun b => [b]) bs).
Proof.
  revert bs. induction elems as [| x elems IH]; intros bs Hwt Hbs.
  - injection Hbs as <-. constructor.
  - cbn [forallb] in Hwt. apply andb_prop in Hwt as [Hx Hwt].
    destruct x; try discriminate Hx. cbn [Bytes] in Hbs.
    destruct (Bytes elems) as [bs' |] eqn:Hb'; [| discriminate Hbs].
    injection Hbs as <-. cbn [map]. constructor; [| apply IH; auto].
    intros s v0 rest Hv0 Hdrop.
    assert (Hn : uint_bytes TUint8 n = [n]).
    { cbn [uint_bytes]. unfold to_uint8. cbn [wt] in Hx. apply in_range_spec in Hx.
      rewrite Z.mod_small by exact Hx. reflexivity. }
    eexists. rewrite <- Hn in Hdrop |- *.
    apply (decodeUint_bytes TUint8 n s v0 rest eq_refl Hx Hv0 Hdrop).
Qed.

Lemma concat_singletons (bs : list Z) : concat (map (fun b => [b]) bs) = bs.
Proof. induction bs as [| b bs IH]; [reflexivity |]. cbn. rewrite IH. reflexivity. Qed.

Lemma roundtrip_array_loop (ps : list Z) (telem : type) (ef : encoderFunc)
    (df : DecoderFunc) (s1size : Z) :
  typeEncoder telem = inr ef ->
  isFixedType telem = Some true ->
  (forall (v : value) (e : encodeState),
      wt telem v = true -> auxBuffer e = [] -> length (scratch e) = 32%nat ->
      exists (bs sc' : list Z),
        call ps ef e telem v = (mkEncodeState (buffer e ++ bs) [] sc', Nil)
        /\ length sc' = 32%nat
        /\ decodes_to telem df v bs) ->
  forall (elems : list value) (ef0 : option encoderFunc) (e : encodeState),
    ef0 = None \/ ef0 = Some ef ->
    forallb (wt telem) elems = true ->
    auxBuffer e = [] -> length (scratch e) = 32%nat ->
    exists (bss : list (list Z)) (sc' : list Z),
      encodeArray_loop ps (call ps) false s1size telem elems ef0 e
      = inr (mkEncodeState (buffer e ++ concat bss) [] sc')
      /\ length sc' = 32%nat
      /\ Forall2 (decodes_to telem df) elems bss.
Proof.
  intros Hef Hfix Helem.
  induction elems as [| x elems IH]; intros ef0 e Hef0 Hwt Haux Hsc.
  - exists [], (scratch e). cbn. rewrite app_nil_r. destruct e; cbn in *; subst.
    repeat split; try reflexivity; try assumption. constructor.
  - cbn [forallb] in Hwt. apply andb_prop in Hwt as [Hx Hwt].
    rewrite encodeArray_loop_cons. rewrite Hef, Hfix.
    assert (Hef' : (if match ef0 with None => true | Some _ => false end || false
                    then Some ef else ef0) = Some ef).
    { destruct Hef0 as [-> | ->]; reflexivity. }
    cbv zeta. rewrite Hef'.
    destruct (Helem x e Hx Haux Hsc) as (bs1 & sc1 & Hcall & Hsc1 & Hdec1).
    rewrite Hcall.
    destruct (IH (Some ef) (mkEncodeState (buffer e ++ bs1) [] sc1)
                (or_intror eq_refl) Hwt eq_refl Hsc1)
      as (bss & sc2 & Hloop & Hsc2 & Hdecs).
    rewrite Hloop. cbn [buffer].
    exists (bs1 :: bss), sc2. cbn [concat]. rewrite app_assoc.
    repeat split; try assumption. constructor; assumption.
Qed.

Lemma decodable_elem_fixed (t : type) :
  decodable_elem t = true -> isFixedType t = Some true.
Proof.
  induction t as [ | | | | | | | | | | | | | | | | | elem IH | len elem IH | elem IH | fs IH];
    intros Hd; try discriminate Hd; try reflexivity.
  cbn [isFixedType]. cbn [decodable_elem] in Hd.
  destruct (isByte elem) eqn:Hb; [reflexivity |].
  destruct elem; try discriminate Hd; cbn; auto.
Qed.

Lemma decodable_elem_roundtrip (ps : list Z) (fuel : nat) (t : type) :
  decodable_elem t = true -> roundtrip_ok ps fuel t.
Proof.
  induction t as [ | | | | | | | | | | | | | | | | | elem IH | len elem IH | elem IH | fs IH];
    intros Hd; try discriminate Hd.
  - (* bool *)
    exists fn_encodeBool, decodeBool. repeat split.
    intros v e Hwt Haux Hsc. destruct v; try discriminate Hwt.
    exists [bool_byte b], (scratch e).
    rewrite call_eq. cbn [encodeBool]. unfold buffer_Write. rewrite Haux.
    repeat split; try assumption.
    + destruct b; reflexivity.
    + intros s v0 rest Hv0 Hdrop. exists (s_scratch s).
      apply (decodeBool_byte b s v0 rest Hv0 Hdrop).
  - (* uint8 *)
    exists fn_encodeUint, (decodeUint TUint8). repeat split.
    intros v e Hwt Haux Hsc. destruct v; try discriminate Hwt.
    destruct (encodeUint_bytes e TUint8 n eq_refl Hsc) as (sc' & Henc & Hsc' & _).
    exists (uint_bytes TUint8 n), sc'. rewrite call_eq, Henc, Haux.
    repeat split; try assumption.
    intros s v0 rest Hv0 Hdrop. eexists.
    apply (decodeUint_bytes TUint8 n s v0 rest eq_refl Hwt Hv0 Hdrop).
  - (* uint16 *)
    exists fn_encodeUint, (decodeUint TUint16). repeat split.
    intros v e Hwt Haux Hsc. destruct v; try discriminate Hwt.
    destruct (encodeUint_bytes e TUint16 n eq_refl Hsc) as (sc' & Henc & Hsc' & _).
    exists (uint_bytes TUint16 n), sc'. rewrite call_eq, Henc, Haux.
    repeat split; try assumption.
    intros s v0 rest Hv0 Hdrop. eexists.
    apply (decodeUint_bytes TUint16 n s v0 rest eq_refl Hwt Hv0 Hdrop).
  - (* uint32 *)
    exists fn_encodeUint, (decodeUint TUint32). repeat split.
    intros v e Hwt Haux Hsc. destruct v; try discriminate Hwt.
    destruct (encodeUint_bytes e TUint32 n eq_refl Hsc) as (sc' & Henc & Hsc' & _).
    exists (uint_bytes TUint32 n), sc'. rewrite call_eq, Henc, Haux.
    repeat split; try assumption.
    intros s v0 rest Hv0 Hdrop. eexists.
    apply (decodeUint_bytes TUint32 n s v0 rest eq_refl Hwt Hv0 Hdrop).
  - (* uint64 *)
    exists fn_encodeUint, (decodeUint TUint64). repeat split.
    intros v e Hwt Haux Hsc. destruct v; try discriminate Hwt.
    destruct (encodeUint_bytes e TUint64 n eq_refl Hsc) as (sc' & Henc & Hsc' & _).
    exists (uint_bytes TUint64 n), sc'. rewrite call_eq, Henc, Haux.
    repeat split; try assumption.
    intros s v0 rest Hv0 Hdrop. eexists.
    apply (decodeUint_bytes TUint64 n s v0 rest eq_refl Hwt Hv0 Hdrop).
  - (* array *)
    cbn [decodable_elem] in Hd.
    destruct (IH Hd) as (ef & df & Hef & Hdf & Helem).
    assert (Harr : forall (elems : list value) (bss : list (list Z)) (s : Stream)
                     (v0 : value) (rest : list Z),
               length elems = len ->
               Forall2 (decodes_to elem df) elems bss ->
               wt (TArray len elem) v0 = true ->
               drop (r_i (r s)) (r_s (r s)) = concat bss ++ rest ->
               exists sc2,
                 decodeArray (inr df) s v0
                 = Some (mkStream (mkReader (r_s (r s))
                                     (r_i (r s) + length (concat bss))) sc2,
                         VArray elems, Nil)).
    { intros elems bss s v0 rest Hlen Hdecs Hv0 Hdrop.
      destruct v0 as [| | | | | | | | | | vs0 | |]; try discriminate Hv0.
      cbn [wt] in Hv0. apply andb_prop in Hv0 as [Hl0 Hw0]. apply Nat.eqb_eq in Hl0.
      destruct (decodeArray_loop_decodes elem df elems bss Hdecs s vs0 rest Hw0
                  ltac:(lia) Hdrop) as (sc2 & Hloop).
      exists sc2. unfold decodeArray. rewrite Hloop. reflexivity. }
    destruct (isByte elem) eqn:Hbyte.
    + pose proof (isByte_TUint8 _ Hbyte) as ->.
      assert (df = decodeUint TUint8) as -> by (cbn in Hdf; congruence).
      exists fn_encodeByteArray, (decodeArray (inr (decodeUint TUint8))).
      repeat split.
      intros v e Hwt Haux Hsc.
      destruct v as [| | | | | | | | | | elems | |]; try discriminate Hwt.
      cbn [wt] in Hwt. apply andb_prop in Hwt as [Hl Hw]. apply Nat.eqb_eq in Hl.
      destruct (Bytes_of_bytes _ Hw) as (bs & Hbs & Hbl).
      exists bs, (scratch e). rewrite call_eq. cbn [encodeByteArray].
      rewrite Hbs. unfold buffer_Write. rewrite Haux.
      repeat split; try assumption.
      intros s v0 rest Hv0 Hdrop.
      rewrite <- (concat_singletons bs) in Hdrop |- *.
      apply (Harr elems _ s v0 rest Hl (byte_array_decodes elems bs Hw Hbs) Hv0 Hdrop).
    + assert (Hk : Kind_eqb (Kind_of elem) Interface = false)
        by (destruct elem; try discriminate Hd; reflexivity).
      pose proof (decodable_elem_fixed elem Hd) as Hfix.
      assert (Hknd : typeEncoder (TArray len elem) = inr fn_encodeArray).
      { unfold typeEncoder, newTypeEncoder, Elem_isByte. cbn. rewrite Hbyte. reflexivity. }
      assert (Hft : isFixedType (TArray len elem) = Some true).
      { cbn [isFixedType]. rewrite Hbyte, Hk. exact Hfix. }
      exists fn_encodeArray, (decodeArray (inr df)).
      split; [exact Hknd |]. split; [cbn [typeDecoder]; rewrite Hdf; reflexivity |].
      intros v e Hwt Haux Hsc.
      destruct v as [| | | | | | | | | | elems | |]; try discriminate Hwt.
      cbn [wt] in Hwt. apply andb_prop in Hwt as [Hl Hw]. apply Nat.eqb_eq in Hl.
      destruct (roundtrip_array_loop ps elem ef df 0 Hef Hfix Helem elems None e
                  (or_introl eq_refl) Hw Haux Hsc)
        as (bss & sc' & Hloop & Hsc' & Hdecs).
      exists (concat bss), sc'. rewrite call_eq. unfold encodeArray.
      rewrite Hk, Hft, Hloop.
      unfold auxBuffer_Reset, buffer_Write. cbn [buffer auxBuffer scratch].
      rewrite app_nil_r. repeat split; try assumption.
      intros s v0 rest Hv0 Hdrop.
      apply (Harr elems bss s v0 rest Hl Hdecs Hv0 Hdrop).
Qed.

(** ** Slices of bool *)

Lemma all_VBool (l : list value) :
  forallb (wt TBool) l = true -> exists bl, l = map VBool bl.
Proof.
  induction l as [| x l IH]; intros H.
  - exists []. reflexivity.
  - cbn [forallb] in H. apply andb_prop in H as [Hx Hl].
    destruct (IH Hl) as (bl & ->). destruct x; try discriminate Hx.
    exists (b :: bl). reflexivity.
Qed.

Lemma encodeSlice_loop_cons ps cl ef elemFixed s1size telem elem rest e :
  encodeSlice_loop ps cl ef elemFixed s1size telem (elem :: rest) e
  = if elemFixed then
      match cl ef e telem elem with
      | (e', Panic) => (e', Panic)
      | (e', _) => encodeSlice_loop ps cl ef elemFixed s1size telem rest e'
      end
    else
      match encode_to_tail ps cl ef s1size e telem elem with
      | (e', Nil) => encodeSlice_loop ps cl ef elemFixed s1size telem rest e'
      | (e', out) => (e', out)
      end.
Proof. reflexivity. Qed.

Lemma encode_bool_slice_loop (ps : list Z) (bl : list bool) :
  forall e : encodeState,
    encodeSlice_loop ps (call ps) fn_encodeBool true 0 TBool (map VBool bl) e
    = (mkEncodeState (buffer e ++ map bool_byte bl) (auxBuffer e) (scratch e), Nil).
Proof.
  induction bl as [| b bl IH]; intros e.
  - cbn. rewrite app_nil_r. destruct e; reflexivity.
  - cbn [map]. rewrite encodeSlice_loop_cons, call_eq. cbn [encodeBool].
    rewrite IH. unfold buffer_Write. cbn [buffer auxBuffer scratch].
    rewrite <- app_assoc. destruct b; reflexivity.
Qed.

Lemma SetLen_next (elems : list value) (x : value) (sp : list value) :
  SetLen (S (length elems)) elems (x :: sp) = (elems ++ [x], sp).
Proof.
  unfold SetLen.
  replace (elems ++ x :: sp) with ((elems ++ [x]) ++ sp)
    by (rewrite <- app_assoc; reflexivity).
  rewrite take_app_length', drop_app_length'
    by (rewrite length_app; cbn [length]; lia).
  reflexivity.
Qed.

Lemma SetLen_back (elems : list value) (x : value) (sp : list value) :
  SetLen (length elems) (elems ++ [x]) sp = (elems, x :: sp).
Proof.
  unfold SetLen. rewrite <- app_assoc.
  rewrite take_app_length, drop_app_length. reflexivity.
Qed.

(** Making room for index [i = Len] exposes one more element of the
    backing array, a bool again. *)
Lemma make_room_bool (elems spare : list value) :
  forallb (wt TBool) spare = true ->
  exists (x0 : value) (spare2 : list value),
    make_room TBool (length elems) elems spare = (elems ++ [x0], spare2)
    /\ wt TBool x0 = true
    /\ forallb (wt TBool) spare2 = true.
Proof.
  intros Hsp. unfold make_room. rewrite Nat.leb_refl.
  destruct spare as [| x0 sp].
  - cbn [length]. rewrite Nat.add_0_r, Nat.leb_refl.
    unfold grow_slice. cbn [length]. rewrite Nat.add_0_r.
    set (cap := length elems).
    set (newcap := if (cap + cap / 2 <? 4)%nat then 4%nat else (cap + cap / 2)%nat).
    assert (Hgrow : exists k, (newcap - cap)%nat = S k).
    { exists (newcap - cap - 1)%nat. unfold newcap.
      pose proof (Nat.div_mod_eq cap 2) as Hdm.
      pose proof (Nat.mod_upper_bound cap 2 ltac:(lia)) as Hm.
      destruct (Nat.ltb_spec (cap + cap / 2) 4); lia. }
    destruct Hgrow as (k & ->). cbn [replicate zero].
    exists (VBool false), (replicate k (VBool false)).
    unfold cap. rewrite SetLen_next. repeat split.
    clear. induction k as [| k IH]; [reflexivity | exact IH].
  - cbn [forallb] in Hsp. apply andb_prop in Hsp as [Hx Hsp].
    destruct (Nat.leb_spec (length elems + length (x0 :: sp)) (length elems)) as [Hle | _];
      [cbn [length] in Hle; lia |].
    exists x0, sp. rewrite SetLen_next. auto.
Qed.

(** [decodeSliceElems] over a stream that ends with the bytes of [bl]
    appends the bools to the slice and stops at the end of the stream. *)
Lemma decode_bools_loop (bl : list bool) :
  forall (fuel : nat) (s : Stream) (elems spare : list value),
    forallb (wt TBool) spare = true ->
    drop (r_i (r s)) (r_s (r s)) = map bool_byte bl ->
    (length bl < fuel)%nat ->
    exists (s' : Stream) (spare' : list value),
      decodeSliceElems_loop TBool decodeBool fuel (length elems) s elems spare
      = Some (s', VSlice false (elems ++ map VBool bl) spare', Nil).
Proof.
  induction bl as [| b bl IH]; intros fuel s elems spare Hsp Hdrop Hfuel;
    (destruct fuel as [| fuel]; [cbn [length] in Hfuel; lia |]);
    cbn [decodeSliceElems_loop];
    destruct (make_room_bool elems spare Hsp) as (x0 & sp2 & -> & Hx0 & Hsp2);
    rewrite list_lookup_middle by reflexivity.
  - rewrite (decodeBool_at_end s x0 Hdrop).
    rewrite insert_app_r_alt, Nat.sub_diag by lia. cbn [insert list_insert].
    destruct (Nat.ltb_spec (length elems) (length (elems ++ [x0]))) as [_ | Hge];
      [| rewrite length_app in Hge; cbn [length] in Hge; lia].
    rewrite SetLen_back. cbn [map]. rewrite app_nil_r. eauto.
  - cbn [map] in Hdrop.
    rewrite (decodeBool_byte b s x0 _ Hx0 Hdrop).
    rewrite insert_app_r_alt, Nat.sub_diag by lia. cbn [insert list_insert].
    destruct (IH fuel (mkStream (mkReader (r_s (r s)) (r_i (r s) + 1)) (s_scratch s))
                (elems ++ [VBool b]) sp2 Hsp2) as (s' & spare' & Hloop).
    + cbn [r r_s r_i]. rewrite <- drop_drop, Hdrop. reflexivity.
    + cbn [length] in Hfuel. lia.
    + rewrite length_app in Hloop. cbn [length] in Hloop.
      rewrite Nat.add_1_r in Hloop. rewrite Hloop.
      cbn [map]. rewrite <- app_assoc. cbn [app]. eauto.
Qed.

(** ** Round trip *)

Fixpoint DeepEqual_list (xs ys : list value) {struct xs} : bool :=
  match xs, ys with
  | [], [] => true
  | a :: xs', b :: ys' => DeepEqual a b && DeepEqual_list xs' ys'
  | _, _ => false
  end.

Lemma DeepEqual_VArray xs ys : DeepEqual (VArray xs) (VArray ys) = DeepEqual_list xs ys.
Proof. reflexivity. Qed.

Lemma DeepEqual_VStruct xs ys : DeepEqual (VStruct xs) (VStruct ys) = DeepEqual_list xs ys.
Proof. reflexivity. Qed.

Lemma DeepEqual_VSlice nx xs sx ny ys sy :
  DeepEqual (VSlice nx xs sx) (VSlice ny ys sy) = Bool.eqb nx ny && DeepEqual_list xs ys.
Proof. reflexivity. Qed.

Lemma DeepEqual_list_refl (xs : list value) :
  Forall (fun x => DeepEqual x x = true) xs -> DeepEqual_list xs xs = true.
Proof.
  induction 1 as [| x xs Hx _ IH]; [reflexivity |].
  cbn [DeepEqual_list]. rewrite Hx, IH. reflexivity.
Qed.

Lemma DeepEqual_refl (v : value) : DeepEqual v v = true.
Proof.
  induction v as [b | n | n | n | s | n | | dyn v IH | | v IH
                  | elems IH | isnil elems IH spare _ | vals IH];
    try (cbn [DeepEqual]; apply Z.eqb_refl); try reflexivity; try exact IH.
  - destruct b; reflexivity.
  - cbn [DeepEqual]. rewrite Nat.eqb_refl. cbn [andb].
    induction s as [| c s IHs]; [reflexivity |].
    cbn [combine forallb fst snd]. rewrite Z.eqb_refl. exact IHs.
  - rewrite DeepEqual_VArray. apply DeepEqual_list_refl, list_all_Forall, IH.
  - rewrite DeepEqual_VSlice, Bool.eqb_reflx.
    apply DeepEqual_list_refl, list_all_Forall, IH.
  - rewrite DeepEqual_VStruct. apply DeepEqual_list_refl, list_all_Forall, IH.
Qed.

Lemma wt_zero_decodable (t : type) : decodable_elem t = true -> wt t (zero t) = true.
Proof.
  induction t as [ | | | | | | | | | | | | | | | | | elem IH | len elem IH | elem IH | fs IH];
    intros Hd; try discriminate Hd; try reflexivity.
  cbn [decodable_elem] in Hd. cbn [zero wt].
  rewrite length_replicate, Nat.eqb_refl. cbn [andb].
  induction len as [| len IHlen]; [reflexivity |].
  cbn [replicate forallb]. rewrite (IH Hd). exact IHlen.
Qed.

(** The types on which [Decode] inverts [Encode]: bool, uint8, uint16,
    uint32, uint64, arrays of these (nested at will), and []bool. *)
Definition roundtrip_type (t : type) : bool :=
  decodable_elem t || match t with TSlice TBool => true | _ => false end.

Definition is_nil_slice (v : value) : bool :=
  match v with VSlice true _ _ => true | _ => false end.

(** C1, counterexample: the string "a" is encoded into the byte 0x61, and
    [Decode] of that byte into a [*string] returns the error that strings
    are not serializable, whatever the fuel; the target keeps its zero
    value. *)
Lemma string_does_not_round_trip :
  Encode_bytes TString (VString [97]) = ([97], Nil)
  /\ (forall fuel : nat,
        Decode_new fuel [97] TString
        = Some (Some (TPtr TString, VPtr (VString [])), Err (ErrNotSerializable String))).
Proof. split; [vm_compute; reflexivity | intros fuel; reflexivity]. Qed.

(** C1, amended: for a value of type bool, uint8, uint16, uint32, uint64,
    an array of these, or a []bool that is not nil, [Encode] returns nil,
    and [Decode] of the bytes written into a pointer to the zero value of
    the type returns nil and leaves a value deeply equal to the one
    encoded.  The fuel only bounds the loop over the elements of a
    slice. *)
Theorem Decode_inverts_Encode_on_decodable_types :
  forall (pool_scratch stream_scratch : list Z) (t : type) (v : value),
    length pool_scratch = 32%nat ->
    roundtrip_type t = true ->
    wt t v = true ->
    is_nil_slice v = false ->
    exists bytes : list Z,
      Encode Buffer_Write pool_scratch [] (Some (t, v)) = (bytes, Nil)
      /\ forall fuel : nat,
           (length bytes < fuel)%nat ->
           exists v' : value,
             Decode stream_scratch fuel bytes (Some (TPtr t, VPtr (zero t)))
             = Some (Some (TPtr t, VPtr v'), Nil)
             /\ DeepEqual v v' = true.
Proof.
  intros ps ps' t v Hps Ht Hwt Hnil.
  destruct (decodable_elem t) eqn:Hd.
  - destruct (decodable_elem_roundtrip ps 0 t Hd) as (ef & df0 & Hef & _ & Hval).
    destruct (Hval v (pool_Get_reset ps) Hwt eq_refl Hps) as (bs & sc' & Hcall & _ & _).
    exists bs. split.
    + rewrite (Encode_to_Buffer ps [] t v ef _ Hef Hcall). reflexivity.
    + intros fuel _.
      destruct (decodable_elem_roundtrip ps fuel t Hd) as (ef' & df & Hef' & Hdf & Hval').
      assert (Heq : ef' = ef) by congruence. subst ef'.
      destruct (Hval' v (pool_Get_reset ps) Hwt eq_refl Hps)
        as (bs' & sc'' & Hcall' & _ & Hdec).
      assert (Hbs : bs' = bs).
      { rewrite Hcall in Hcall'. injection Hcall' as Hb _.
        symmetry. exact Hb. }
      subst bs'.
      destruct (Hdec (mkStream (mkReader bs 0) ps') (zero t) []
                  (wt_zero_decodable t Hd)) as (sc2 & Hrun).
      { cbn [r r_s r_i]. rewrite drop_0, app_nil_r. reflexivity. }
      exists v. split; [| apply DeepEqual_refl].
      unfold Decode, Stream_Decode, newTypeDecoder. rewrite Hdf, Hrun. reflexivity.
  - unfold roundtrip_type in Ht. rewrite Hd in Ht. cbn [orb] in Ht.
    destruct t as [ | | | | | | | | | | | | | | | | | e1 | l1 e1 | elem | fs];
      try discriminate Ht.
    destruct elem; try discriminate Ht.
    destruct v as [| | | | | | | | | | | isnil elems spare |]; try discriminate Hwt.
    destruct isnil; [discriminate Hnil |].
    cbn [wt andb] in Hwt. apply andb_prop in Hwt as [Hw _].
    destruct (all_VBool elems Hw) as (bl & ->).
    exists (map bool_byte bl). split.
    + assert (Hcall : call ps fn_encodeSlice (pool_Get_reset ps) (TSlice TBool)
                        (VSlice false (map VBool bl) spare)
                      = (mkEncodeState (map bool_byte bl) [] ps, Nil)).
      { rewrite call_eq. unfold encodeSlice. cbn [isFixedType typeEncoder].
        change (typeEncoder TBool) with (@inr error encoderFunc fn_encodeBool).
        cbv iota. rewrite encode_bool_slice_loop.
        unfold auxBuffer_Reset, buffer_Write, pool_Get_reset, reset.
        cbn [buffer auxBuffer scratch app]. rewrite app_nil_r. reflexivity. }
      rewrite (Encode_to_Buffer ps [] (TSlice TBool) _ fn_encodeSlice _ eq_refl Hcall).
      reflexivity.
    + intros fuel Hfuel. rewrite length_map in Hfuel.
      destruct (decode_bools_loop bl fuel (mkStream (mkReader (map bool_byte bl) 0) ps')
                  [] [] eq_refl) as (s' & spare' & Hloop).
      { cbn [r r_s r_i]. apply drop_0. }
      { exact Hfuel. }
      exists (VSlice false ([] ++ map VBool bl) spare'). split.
      * unfold Decode, Stream_Decode, newTypeDecoder. cbn [typeDecoder Kind_of].
        change (Kind_eqb Bool Interface) with false. cbv iota.
        unfold decodeSlice. cbn [isFixedType zero decodeSliceElems].
        cbn [length] in Hloop. rewrite Hloop. reflexivity.
      * rewrite DeepEqual_VSlice. cbn [Bool.eqb app andb].
        apply DeepEqual_list_refl. apply Forall_forall. intros x _. apply DeepEqual_refl.
Qed.

Lemma Decode_inverts_Encode_on_decodable_types_witness :
  exists bytes : list Z,
    Encode Buffer_Write (replicate 32 0) []
      (Some (TArray 2 (TArray 2 TUint16),
             VArray [VArray [VUint 1; VUint 515]; VArray [VUint 65535; VUint 0]]))
    = (bytes, Nil)
    /\ forall fuel : nat,
         (length bytes < fuel)%nat ->
         exists v' : value,
           Decode (replicate 32 9) fuel bytes
             (Some (TPtr (TArray 2 (TArray 2 TUint16)),
                    VPtr (zero (TArray 2 (TArray 2 TUint16)))))
           = Some (Some (TPtr (TArray 2 (TArray 2 TUint16)), VPtr v'), Nil)
           /\ DeepEqual
                (VArray [VArray [VUint 1; VUint 515]; VArray [VUint 65535; VUint 0]]) v'
              = true.
Proof.
  apply (Decode_inverts_Encode_on_decodable_types (replicate 32 0) (replicate 32 9)
           (TArray 2 (TArray 2 TUint16))
           (VArray [VArray [VUint 1; VUint 515]; VArray [VUint 65535; VUint 0]]));
    reflexivity.
Defined.

Example bool_slice_round_trip :
  Encode_bytes (TSlice TBool) (VSlice false [VBool true; VBool false; VBool true] [])
  = ([1; 0; 1], Nil)
  /\ Decode_new 4 [1; 0; 1] (TSlice TBool)
     = Some (Some (TPtr (TSlice TBool),
                   VPtr (VSlice false [VBool true; VBool false; VBool true]
                           [VBool false])),
             Nil).
Proof. split; vm_compute; reflexivity. Qed.


(** * Further properties of the codec *)

(** ** Short reads *)

(** The bytes a stream has not read yet. *)
Definition remaining (s : Stream) : list Z := drop (r_i (r s)) (r_s (r s)).

Lemma readBytes_loop_err (fuel size : nat) (s : Stream) (n : nat) (e : error) :
  readBytes_loop fuel size s n (Some e) = (s, n, Some e).
Proof. destruct fuel; reflexivity. Qed.

Lemma readBytes_short (s : Stream) (k : nat) :
  (length (remaining s) < S k)%nat ->
  exists sc',
    readBytes s (S k)
    = (mkStream (mkReader (r_s (r s)) (r_i (r s) + length (remaining s))) sc',
       Some ErrUnexpectedEOF).
Proof.
  unfold remaining. intros Hshort. unfold readBytes.
  cbn [readBytes_loop]. change (0 <? S k)%nat with true. cbv iota.
  rewrite Nat.sub_0_r. unfold Reader_Read at 1.
  destruct (Nat.leb_spec (length (r_s (r s))) (r_i (r s))) as [Hend | Hmore].
  - rewrite drop_ge by exact Hend.
    exists (copy_at 0 [] (s_scratch s)).
    destruct s as [[l i] sc]. cbn [r r_s r_i s_scratch length Nat.add is_EOF andb].
    rewrite Nat.add_0_r. reflexivity.
  - rewrite take_ge by lia.
    set (bs := drop (r_i (r s)) (r_s (r s))) in *.
    assert (Hlen : length bs = (length (r_s (r s)) - r_i (r s))%nat)
      by (unfold bs; apply length_drop).
    destruct k as [| k]; [lia |].
    cbn [readBytes_loop r s_scratch]. cbn [Nat.add].
    destruct (Nat.ltb_spec (length bs) (S (S k))) as [_ | Hge]; [| lia].
    unfold Reader_Read at 1. cbn [r_s r_i].
    destruct (Nat.leb_spec (length (r_s (r s))) (r_i (r s) + length bs)) as [_ | Hlt];
      [| lia].
    eexists. cbn [is_EOF andb length].
    rewrite !Nat.add_0_r.
    destruct (Nat.ltb_spec (length bs) (S (S k))) as [_ | Hge]; [reflexivity | lia].
Qed.

(** X1: [readBytes] for [n > 0] bytes returns nil when the stream still
    holds [n] bytes and [io.ErrUnexpectedEOF] when it holds fewer, also
    when it holds none: it never returns [io.EOF].  It moves the reader
    past the bytes it took and never past the end. *)
Theorem readBytes_nil_or_unexpected_EOF :
  forall (s : Stream) (k : nat),
  exists sc',
    readBytes s (S k)
    = (mkStream (mkReader (r_s (r s))
                   (r_i (r s) + Nat.min (S k) (length (remaining s)))) sc',
       if (S k <=? length (remaining s))%nat then None else Some ErrUnexpectedEOF).
Proof.
  intros s k.
  destruct (Nat.leb_spec (S k) (length (remaining s))) as [Henough | Hshort].
  - rewrite Nat.min_l by exact Henough.
    exists (copy_at 0 (take (S k) (remaining s)) (s_scratch s)).
    apply (readBytes_available s k (take (S k) (remaining s)) (drop (S k) (remaining s))).
    + unfold remaining. rewrite take_drop. reflexivity.
    + rewrite length_take. lia.
  - rewrite Nat.min_r by lia. apply readBytes_short. exact Hshort.
Qed.

(** ** Decoding arbitrary input *)

Definition uint_size (t : type) : nat :=
  match t with
  | TUint8 => 1 | TUint16 => 2 | TUint32 => 4 | TUint64 => 8
  | _ => 0
  end.

(** The bool [decodeBool] stores for a byte. *)
Definition bool_of_byte (b : Z) : value := VBool (b =? 1).

Lemma remaining_advance (s : Stream) (k : nat) (sc : list Z) :
  remaining (mkStream (mkReader (r_s (r s)) (r_i (r s) + k)) sc) = drop k (remaining s).
Proof. unfold remaining. cbn [r r_s r_i]. rewrite drop_drop. reflexivity. Qed.

Lemma wt_SetUint (t : type) (x : Z) :
  is_uintN t = true -> exists y, SetUint t x = Some (VUint y) /\ wt t (VUint y) = true.
Proof.
  intros Ht. destruct t; try discriminate Ht; unfold SetUint; cbn [Kind_of wt];
    eexists; (split; [reflexivity |]); unfold in_range, to_uint8, to_uint16, to_uint32, to_uint64.
  - pose proof (Z.mod_pos_bound x (2 ^ 8) ltac:(lia)). apply andb_true_intro. split; lia.
  - pose proof (Z.mod_pos_bound x (2 ^ 16) ltac:(lia)). apply andb_true_intro. split; lia.
  - pose proof (Z.mod_pos_bound x (2 ^ 32) ltac:(lia)). apply andb_true_intro. split; lia.
  - pose proof (Z.mod_pos_bound x (2 ^ 64) ltac:(lia)). apply andb_true_intro. split; lia.
Qed.

(** [decodeUint] on a sized unsigned target: with enough bytes left it
    stores a value of the target's range and moves past them, with too few
    it answers [io.ErrUnexpectedEOF] and leaves the target as it was. *)
Lemma decodeUint_outcome (t : type) (s : Stream) (x : Z) :
  is_uintN t = true ->
  ((uint_size t <= length (remaining s))%nat ->
   exists y sc',
     decodeUint t s (VUint x)
     = Some (mkStream (mkReader (r_s (r s)) (r_i (r s) + uint_size t)) sc', VUint y, Nil)
     /\ wt t (VUint y) = true)
  /\ ((length (remaining s) < uint_size t)%nat ->
      exists s',
        decodeUint t s (VUint x) = Some (s', VUint x, Err ErrUnexpectedEOF)).
Proof.
  intros Ht.
  assert (Hok : forall k : nat,
            (S k <= length (remaining s))%nat ->
            readBytes s (S k)
            = (mkStream (mkReader (r_s (r s)) (r_i (r s) + S k))
                        (copy_at 0 (take (S k) (remaining s)) (s_scratch s)), None)).
  { intros k Hk.
    apply (readBytes_available s k (take (S k) (remaining s)) (drop (S k) (remaining s))).
    - unfold remaining. rewrite take_drop. reflexivity.
    - rewrite length_take. lia. }
  destruct t; try discriminate Ht; cbn [uint_size]; unfold decodeUint; cbn [getTypeSize].
  - change (32 <? 1) with false. cbv iota. change (Z.to_nat 1) with 1%nat. split.
    + intros Hk. rewrite (Hok 0%nat Hk). change (1 =? 1) with true. cbv iota. cbn [s_scratch].
      destruct (wt_SetUint TUint8
                  (to_uint64 (to_int8 (byte_at
                     (copy_at 0 (take 1 (remaining s)) (s_scratch s)) 0))) eq_refl)
        as (y & -> & Hy).
      eauto.
    + intros Hk. destruct (readBytes_short s 0 Hk) as (sc' & ->). eauto.
  - change (32 <? 2) with false. cbv iota. change (Z.to_nat 2) with 2%nat. split.
    + intros Hk. rewrite (Hok 1%nat Hk).
      change (2 =? 1) with false. change (2 =? 2) with true. cbv iota. cbn [s_scratch].
      destruct (wt_SetUint TUint16
                  (to_uint64 (LE_Uint16 (take 2
                     (copy_at 0 (take 2 (remaining s)) (s_scratch s))))) eq_refl)
        as (y & -> & Hy).
      eauto.
    + intros Hk. destruct (readBytes_short s 1 Hk) as (sc' & ->). eauto.
  - change (32 <? 4) with false. cbv iota. change (Z.to_nat 4) with 4%nat. split.
    + intros Hk. rewrite (Hok 3%nat Hk).
      change (4 =? 1) with false. change (4 =? 2) with false.
      change (4 =? 4) with true. cbv iota. cbn [s_scratch].
      destruct (wt_SetUint TUint32
                  (to_uint64 (LE_Uint32 (take 4
                     (copy_at 0 (take 4 (remaining s)) (s_scratch s))))) eq_refl)
        as (y & -> & Hy).
      eauto.
    + intros Hk. destruct (readBytes_short s 3 Hk) as (sc' & ->). eauto.
  - change (32 <? 8) with false. cbv iota. change (Z.to_nat 8) with 8%nat. split.
    + intros Hk. rewrite (Hok 7%nat Hk).
      change (8 =? 1) with false. change (8 =? 2) with false.
      change (8 =? 4) with false. change (8 =? 8) with true. cbv iota. cbn [s_scratch].
      destruct (wt_SetUint TUint64
                  (LE_Uint64 (take 8
                     (copy_at 0 (take 8 (remaining s)) (s_scratch s)))) eq_refl)
        as (y & -> & Hy).
      eauto.
    + intros Hk. destruct (readBytes_short s 7 Hk) as (sc' & ->). eauto.
Qed.

Lemma wt_uint_is_VUint (t : type) (v : value) :
  is_uintN t = true -> wt t v = true -> exists x, v = VUint x.
Proof. intros Ht Hv. destruct t; try discriminate Ht; destruct v; try discriminate Hv; eauto. Qed.

(** Making room for index [i = Len] exposes one more element of the
    backing array; it is well-formed when the spare elements are. *)
Lemma make_room_wt (telem : type) (elems spare : list value) :
  wt telem (zero telem) = true ->
  forallb (wt telem) spare = true ->
  exists (x0 : value) (spare2 : list value),
    make_room telem (length elems) elems spare = (elems ++ [x0], spare2)
    /\ wt telem x0 = true
    /\ forallb (wt telem) spare2 = true.
Proof.
  intros Hz Hsp. unfold make_room. rewrite Nat.leb_refl.
  destruct spare as [| x0 sp].
  - cbn [length]. rewrite Nat.add_0_r, Nat.leb_refl.
    unfold grow_slice. cbn [length]. rewrite Nat.add_0_r.
    set (cap := length elems).
    set (newcap := if (cap + cap / 2 <? 4)%nat then 4%nat else (cap + cap / 2)%nat).
    assert (Hgrow : exists k, (newcap - cap)%nat = S k).
    { exists (newcap - cap - 1)%nat. unfold newcap.
      pose proof (Nat.div_mod_eq cap 2) as Hdm.
      pose proof (Nat.mod_upper_bound cap 2 ltac:(lia)) as Hm.
      destruct (Nat.ltb_spec (cap + cap / 2) 4); lia. }
    destruct Hgrow as (k & ->). cbn [replicate].
    exists (zero telem), (replicate k (zero telem)).
    unfold cap. rewrite SetLen_next. repeat split; [exact Hz |].
    clear - Hz. induction k as [| k IH]; [reflexivity |].
    cbn [replicate forallb]. rewrite Hz. exact IH.
  - cbn [forallb] in Hsp. apply andb_prop in Hsp as [Hx Hsp].
    destruct (Nat.leb_spec (length elems + length (x0 :: sp)) (length elems)) as [Hle | _];
      [cbn [length] in Hle; lia |].
    exists x0, sp. rewrite SetLen_next. auto.
Qed.

Lemma insert_last (elems : list value) (x0 x : value) :
  <[length elems := x]> (elems ++ [x0]) = elems ++ [x].
Proof. rewrite insert_app_r_alt, Nat.sub_diag by lia. reflexivity. Qed.

Lemma length_snoc (elems : list value) (x : value) :
  length (elems ++ [x]) = S (length elems).
Proof. rewrite length_app. cbn [length]. lia. Qed.

Lemma decode_uints_loop (t : type) :
  is_uintN t = true ->
  forall (fuel : nat) (s : Stream) (elems spare : list value),
    forallb (wt t) spare = true ->
    (length (remaining s) < fuel)%nat ->
    exists (s' : Stream) (v' : value),
      decodeSliceElems_loop t (decodeUint t) fuel (length elems) s elems spare
      = Some (s', v', Err ErrUnexpectedEOF).
Proof.
  intros Ht.
  assert (Hz : wt t (zero t) = true) by (destruct t; try discriminate Ht; reflexivity).
  assert (Hsz : (1 <= uint_size t)%nat) by (destruct t; try discriminate Ht; cbn; lia).
  induction fuel as [| fuel IH]; intros s elems spare Hsp Hfuel; [lia |].
  cbn [decodeSliceElems_loop].
  destruct (make_room_wt t elems spare Hz Hsp) as (x0 & sp2 & -> & Hx0 & Hsp2).
  rewrite list_lookup_middle by reflexivity.
  destruct (wt_uint_is_VUint t x0 Ht Hx0) as (x & ->).
  destruct (decodeUint_outcome t s x Ht) as [Hgood Hbad].
  destruct (Nat.leb_spec (uint_size t) (length (remaining s))) as [Hen | Hshort].
  - destruct (Hgood Hen) as (y & sc' & -> & Hy).
    rewrite insert_last, <- (length_snoc elems (VUint y)).
    apply IH; [exact Hsp2 |].
    rewrite remaining_advance, length_drop. lia.
  - destruct (Hbad Hshort) as (s' & ->). eauto.
Qed.

(** X2: [Decode] into a pointer to a nil slice of uint8, uint16, uint32 or
    uint64 returns [io.ErrUnexpectedEOF] for every input, the empty one
    included: at the end of the input [decodeUint] reports
    [io.ErrUnexpectedEOF], not the [io.EOF] that ends the loop of
    [decodeSliceElems].  (The fuel bounds that loop.) *)
Theorem Decode_uint_slice_always_fails :
  forall (t : type) (stream_scratch input : list Z) (fuel : nat),
    is_uintN t = true ->
    (length input < fuel)%nat ->
    exists v' : value,
      Decode stream_scratch fuel input (Some (TPtr (TSlice t), VPtr (VSlice true [] [])))
      = Some (Some (TPtr (TSlice t), VPtr v'), Err ErrUnexpectedEOF).
Proof.
  intros t ps input fuel Ht Hfuel.
  destruct (decode_uints_loop t Ht fuel (mkStream (mkReader input 0) ps) [] [] eq_refl)
    as (s' & v' & Hloop).
  { unfold remaining. cbn [r r_s r_i]. rewrite drop_0. exact Hfuel. }
  exists v'. cbn [length] in Hloop.
  unfold Decode, Stream_Decode, newTypeDecoder.
  destruct t; try discriminate Ht;
    cbn [typeDecoder Kind_of];
    match goal with
    | |- context [Kind_eqb ?k Interface] => change (Kind_eqb k Interface) with false
    end;
    cbv iota; unfold decodeSlice; cbn [isFixedType decodeSliceElems];
    rewrite Hloop; reflexivity.
Qed.

Lemma Decode_uint_slice_always_fails_witness :
  exists v' : value,
    Decode (replicate 32 0) 5 [1; 0; 2; 0]
      (Some (TPtr (TSlice TUint16), VPtr (VSlice true [] [])))
    = Some (Some (TPtr (TSlice TUint16), VPtr v'), Err ErrUnexpectedEOF).
Proof.
  apply (Decode_uint_slice_always_fails TUint16 (replicate 32 0) [1; 0; 2; 0] 5).
  - reflexivity.
  - cbn. lia.
Defined.

Lemma decodeBool_any (b : Z) (s : Stream) (v0 : value) (rest : list Z) :
  wt TBool v0 = true ->
  remaining s = b :: rest ->
  decodeBool s v0
  = Some (mkStream (mkReader (r_s (r s)) (r_i (r s) + 1)) (s_scratch s),
          bool_of_byte b, Nil).
Proof.
  intros Hv0 Hrem. destruct v0; try discriminate Hv0.
  unfold decodeBool, readByte, Reader_ReadByte.
  rewrite (lookup_of_drop _ _ _ _ Hrem). reflexivity.
Qed.

Lemma decode_bytes_as_bools_loop (bytes : list Z) :
  forall (fuel : nat) (s : Stream) (elems spare : list value),
    forallb (wt TBool) spare = true ->
    remaining s = bytes ->
    (length bytes < fuel)%nat ->
    exists (s' : Stream) (spare' : list value),
      decodeSliceElems_loop TBool decodeBool fuel (length elems) s elems spare
      = Some (s', VSlice false (elems ++ map bool_of_byte bytes) spare', Nil).
Proof.
  induction bytes as [| b bytes IH]; intros fuel s elems spare Hsp Hrem Hfuel;
    (destruct fuel as [| fuel]; [cbn [length] in Hfuel; lia |]);
    cbn [decodeSliceElems_loop];
    destruct (make_room_wt TBool elems spare eq_refl Hsp) as (x0 & sp2 & -> & Hx0 & Hsp2);
    rewrite list_lookup_middle by reflexivity.
  - rewrite (decodeBool_at_end s x0 Hrem), insert_last.
    destruct (Nat.ltb_spec (length elems) (length (elems ++ [x0]))) as [_ | Hge];
      [| rewrite length_snoc in Hge; lia].
    rewrite SetLen_back. cbn [map]. rewrite app_nil_r. eauto.
  - rewrite (decodeBool_any b s x0 bytes Hx0 Hrem), insert_last.
    rewrite <- (length_snoc elems (bool_of_byte b)).
    destruct (IH fuel (mkStream (mkReader (r_s (r s)) (r_i (r s) + 1)) (s_scratch s))
                (elems ++ [bool_of_byte b]) sp2 Hsp2) as (s' & spare' & ->).
    + rewrite remaining_advance, Hrem. reflexivity.
    + cbn [length] in Hfuel. lia.
    + cbn [map]. rewrite <- app_assoc. cbn [app]. eauto.
Qed.

(** X3: [Decode] into a pointer to a nil []bool returns nil for every
    input and leaves a slice, never nil, of one bool per input byte, true
    for the byte 0x01 and false for every other byte; no byte is rejected. *)
Theorem Decode_bool_slice_takes_every_byte :
  forall (stream_scratch input : list Z) (fuel : nat),
    (length input < fuel)%nat ->
    exists spare' : list value,
      Decode stream_scratch fuel input (Some (TPtr (TSlice TBool), VPtr (VSlice true [] [])))
      = Some (Some (TPtr (TSlice TBool),
                    VPtr (VSlice false (map bool_of_byte input) spare')), Nil).
Proof.
  intros ps input fuel Hfuel.
  destruct (decode_bytes_as_bools_loop input fuel (mkStream (mkReader input 0) ps)
              [] [] eq_refl) as (s' & spare' & Hloop).
  { unfold remaining. cbn [r r_s r_i]. apply drop_0. }
  { exact Hfuel. }
  exists spare'. cbn [length app] in Hloop.
  unfold Decode, Stream_Decode, newTypeDecoder. cbn [typeDecoder Kind_of].
  change (Kind_eqb Bool Interface) with false. cbv iota.
  unfold decodeSlice. cbn [isFixedType decodeSliceElems].
  rewrite Hloop. reflexivity.
Qed.

Lemma Decode_bool_slice_takes_every_byte_witness :
  exists spare' : list value,
    Decode (replicate 32 0) 4 [1; 2; 255]
      (Some (TPtr (TSlice TBool), VPtr (VSlice true [] [])))
    = Some (Some (TPtr (TSlice TBool),
                  VPtr (VSlice false (map bool_of_byte [1; 2; 255]) spare')), Nil).
Proof.
  apply (Decode_bool_slice_takes_every_byte (replicate 32 0) [1; 2; 255] 4).
  cbn. lia.
Defined.

Lemma decodeArray_loop_bools (vs0 : list value) :
  forall s : Stream,
    forallb (wt TBool) vs0 = true ->
    exists s',
      decodeArray_loop decodeBool vs0 s
      = Some (s',
              map bool_of_byte (take (length vs0) (remaining s))
                ++ drop (length (remaining s)) vs0,
              Nil).
Proof.
  induction vs0 as [| x vs0 IH]; intros s Hwt.
  - exists s. cbn [decodeArray_loop length]. rewrite take_0, drop_nil. reflexivity.
  - cbn [forallb] in Hwt. apply andb_prop in Hwt as [Hx Hwt].
    cbn [decodeArray_loop length].
    destruct (remaining s) as [| b rest] eqn:Hrem.
    + rewrite (decodeBool_at_end s x Hrem). exists s. reflexivity.
    + rewrite (decodeBool_any b s x rest Hx Hrem).
      destruct (IH (mkStream (mkReader (r_s (r s)) (r_i (r s) + 1)) (s_scratch s)) Hwt)
        as (s' & ->).
      rewrite remaining_advance, Hrem. cbn [drop length take map app]. eauto.
Qed.

(** X4: [Decode] into a pointer to an array of [n] bools returns nil for
    every input, also one shorter than [n] bytes: the elements the input
    reaches are set from its bytes (true for 0x01, false otherwise) and the
    others keep the value they had; bytes after the first [n] are left
    unread. *)
Theorem Decode_bool_array_accepts_short_input :
  forall (stream_scratch input : list Z) (fuel n : nat) (vs0 : list value),
    wt (TArray n TBool) (VArray vs0) = true ->
    Decode stream_scratch fuel input (Some (TPtr (TArray n TBool), VPtr (VArray vs0)))
    = Some (Some (TPtr (TArray n TBool),
                  VPtr (VArray (map bool_of_byte (take n input)
                                  ++ drop (length input) vs0))), Nil).
Proof.
  intros ps input fuel n vs0 Hwt.
  cbn [wt] in Hwt. apply andb_prop in Hwt as [Hlen Hwt]. apply Nat.eqb_eq in Hlen.
  destruct (decodeArray_loop_bools vs0 (mkStream (mkReader input 0) ps) Hwt)
    as (s' & Hloop).
  unfold remaining in Hloop. cbn [r r_s r_i] in Hloop. rewrite drop_0, Hlen in Hloop.
  unfold Decode, Stream_Decode, newTypeDecoder. cbn [typeDecoder].
  unfold decodeArray. rewrite Hloop. reflexivity.
Qed.

Lemma Decode_bool_array_accepts_short_input_witness :
  Decode (replicate 32 0) 0 [1]
    (Some (TPtr (TArray 3 TBool), VPtr (VArray [VBool false; VBool true; VBool true])))
  = Some (Some (TPtr (TArray 3 TBool),
                VPtr (VArray (map bool_of_byte (take 3 [1])
                                ++ drop (length [1]) [VBool false; VBool true; VBool true]))),
          Nil).
Proof.
  apply (Decode_bool_array_accepts_short_input (replicate 32 0) [1] 0 3
           [VBool false; VBool true; VBool true]).
  reflexivity.
Defined.

Lemma decodeArray_loop_uints (t : type) :
  is_uintN t = true ->
  forall (vs0 : list value) (s : Stream),
    forallb (wt t) vs0 = true ->
    exists s' vs',
      decodeArray_loop (decodeUint t) vs0 s
      = Some (s', vs',
              if (length vs0 * uint_size t <=? length (remaining s))%nat
              then Nil else Err ErrUnexpectedEOF)
      /\ forallb (wt t) vs' = true /\ length vs' = length vs0.
Proof.
  intros Ht.
  induction vs0 as [| x vs0 IH]; intros s Hwt.
  - exists s, []. cbn. auto.
  - cbn [forallb] in Hwt. apply andb_prop in Hwt as [Hx Hwt].
    cbn [decodeArray_loop length].
    destruct (wt_uint_is_VUint t x Ht Hx) as (x' & ->).
    destruct (decodeUint_outcome t s x' Ht) as [Hgood Hbad].
    destruct (Nat.leb_spec (uint_size t) (length (remaining s))) as [Hen | Hshort].
    + destruct (Hgood Hen) as (y & sc' & -> & Hy).
      destruct (IH (mkStream (mkReader (r_s (r s)) (r_i (r s) + uint_size t)) sc') Hwt)
        as (s' & vs' & -> & Hwt' & Hlen').
      rewrite remaining_advance, length_drop.
      exists s', (VUint y :: vs'). cbn [forallb length]. rewrite Hy, Hwt', Hlen'.
      repeat split.
      destruct (Nat.leb_spec (length vs0 * uint_size t)
                  (length (remaining s) - uint_size t)),
               (Nat.leb_spec (S (length vs0) * uint_size t) (length (remaining s)));
        try reflexivity; lia.
    + destruct (Hbad Hshort) as (s' & ->).
      exists s', (VUint x' :: vs0). cbn [forallb length]. rewrite Hx, Hwt.
      repeat split.
      destruct (Nat.leb_spec (S (length vs0) * uint_size t) (length (remaining s)));
        [lia | reflexivity].
Qed.

(** X5: [Decode] into a pointer to an array of [n] unsigned integers of
    [k] bytes each returns nil when the input holds at least [n * k] bytes
    and [io.ErrUnexpectedEOF] when it holds fewer; unlike an array of
    bools, a short input is reported. *)
Theorem Decode_uint_array_needs_all_bytes :
  forall (t : type) (stream_scratch input : list Z) (fuel n : nat) (vs0 : list value),
    is_uintN t = true ->
    wt (TArray n t) (VArray vs0) = true ->
    exists vs' : list value,
      Decode stream_scratch fuel input (Some (TPtr (TArray n t), VPtr (VArray vs0)))
      = Some (Some (TPtr (TArray n t), VPtr (VArray vs')),
              if (n * uint_size t <=? length input)%nat
              then Nil else Err ErrUnexpectedEOF)
      /\ wt (TArray n t) (VArray vs') = true.
Proof.
  intros t ps input fuel n vs0 Ht Hwt.
  cbn [wt] in Hwt. apply andb_prop in Hwt as [Hlen Hwt]. apply Nat.eqb_eq in Hlen.
  destruct (decodeArray_loop_uints t Ht vs0 (mkStream (mkReader input 0) ps) Hwt)
    as (s' & vs' & Hloop & Hwt' & Hlen').
  unfold remaining in Hloop. cbn [r r_s r_i] in Hloop. rewrite drop_0, Hlen in Hloop.
  exists vs'. split.
  - unfold Decode, Stream_Decode, newTypeDecoder.
    destruct t; try discriminate Ht; cbn [typeDecoder]; unfold decodeArray;
      rewrite Hloop; reflexivity.
  - cbn [wt]. rewrite Hwt', Hlen', Hlen, Nat.eqb_refl. reflexivity.
Qed.

Lemma Decode_uint_array_needs_all_bytes_witness :
  exists vs' : list value,
    Decode (replicate 32 0) 0 [1; 0; 2]
      (Some (TPtr (TArray 2 TUint16), VPtr (VArray [VUint 7; VUint 8])))
    = Some (Some (TPtr (TArray 2 TUint16), VPtr (VArray vs')),
            if (2 * uint_size TUint16 <=? length [1; 0; 2])%nat
            then Nil else Err ErrUnexpectedEOF)
    /\ wt (TArray 2 TUint16) (VArray vs') = true.
Proof.
  apply (Decode_uint_array_needs_all_bytes TUint16 (replicate 32 0) [1; 0; 2] 0 2
           [VUint 7; VUint 8]); reflexivity.
Defined.

(** ** The layout of a slice of variable-size elements *)

(** The offsets of payloads laid one after another from [base]. *)
Fixpoint running_offsets (base : Z) (payloads : list (list Z)) : list Z :=
  match payloads with
  | [] => []
  | p :: rest => base :: running_offsets (base + Z.of_nat (length p)) rest
  end.

(** What the encoder [ef] writes for [x] in a state of its own taken from
    the pool, and whether it panics there. *)
Definition payload (ps : list Z) (ef : encoderFunc) (telem : type) (x : value) : list Z :=
  buffer (fst (call ps ef (pool_Get_reset ps) telem x)).

Definition panics (ps : list Z) (ef : encoderFunc) (telem : type) (x : value) : bool :=
  match snd (call ps ef (pool_Get_reset ps) telem x) with
  | Panic => true
  | _ => false
  end.

Lemma encodeLength_bytes (e : encodeState) (len : Z) :
  length (scratch e) = 32%nat ->
  exists sc',
    encodeLength e len
    = mkEncodeState (buffer e ++ uint_bytes TUint32 len) (auxBuffer e) sc'
    /\ length sc' = 32%nat.
Proof.
  intros Hsc. unfold encodeLength, buffer_Write, set_scratch.
  cbn [buffer auxBuffer scratch].
  rewrite take_PutUint32 by lia.
  eexists. split; [reflexivity |]. rewrite length_PutUint32. exact Hsc.
Qed.

Lemma encode_to_tail_layout (ps : list Z) (ef : encoderFunc) (s1size : Z)
    (e : encodeState) (t : type) (v : value) :
  panics ps ef t v = false ->
  length (scratch e) = 32%nat ->
  exists sc',
    encode_to_tail ps (call ps) ef s1size e t v
    = (mkEncodeState
         (buffer e ++ uint_bytes TUint32 (s1size + Z.of_nat (length (auxBuffer e))))
         (auxBuffer e ++ payload ps ef t v) sc', Nil)
    /\ length sc' = 32%nat.
Proof.
  intros Hnp Hsc. unfold encode_to_tail, panics, payload in *.
  destruct (encodeLength_bytes e (s1size + Z.of_nat (length (auxBuffer e))) Hsc)
    as (sc' & -> & Hsc').
  destruct (call ps ef (pool_Get_reset ps) t v) as [inner out].
  cbn [fst snd] in *. exists sc'.
  destruct out; try discriminate Hnp; auto.
Qed.

Lemma encodeSlice_loop_layout (ps : list Z) (ef : encoderFunc) (s1size : Z)
    (telem : type) (elems : list value) :
  forall e : encodeState,
    forallb (fun x => negb (panics ps ef telem x)) elems = true ->
    length (scratch e) = 32%nat ->
    exists sc',
      encodeSlice_loop ps (call ps) ef false s1size telem elems e
      = (mkEncodeState
           (buffer e ++ concat (map (uint_bytes TUint32)
                                  (running_offsets (s1size + Z.of_nat (length (auxBuffer e)))
                                     (map (payload ps ef telem) elems))))
           (auxBuffer e ++ concat (map (payload ps ef telem) elems)) sc', Nil)
      /\ length sc' = 32%nat.
Proof.
  induction elems as [| x elems IH]; intros e Hnp Hsc.
  - exists (scratch e). cbn. rewrite !app_nil_r. destruct e. auto.
  - cbn [forallb] in Hnp. apply andb_prop in Hnp as [Hx Hnp].
    apply negb_true_iff in Hx.
    rewrite encodeSlice_loop_cons.
    destruct (encode_to_tail_layout ps ef s1size e telem x Hx Hsc) as (sc1 & -> & Hsc1).
    destruct (IH (mkEncodeState
                    (buffer e ++ uint_bytes TUint32 (s1size + Z.of_nat (length (auxBuffer e))))
                    (auxBuffer e ++ payload ps ef telem x) sc1) Hnp Hsc1)
      as (sc2 & -> & Hsc2).
    exists sc2. cbn [buffer auxBuffer map running_offsets concat].
    rewrite length_app, Nat2Z.inj_add, Z.add_assoc, <- !app_assoc.
    auto.
Qed.

Lemma encodeSlice_layout (ps : list Z) (telem : type) (ef : encoderFunc)
    (e : encodeState) (elems spare : list value) :
  isFixedType telem = Some false ->
  typeEncoder telem = inr ef ->
  forallb (fun x => negb (panics ps ef telem x)) elems = true ->
  auxBuffer e = [] ->
  length (scratch e) = 32%nat ->
  exists sc',
    call ps fn_encodeSlice e (TSlice telem) (VSlice false elems spare)
    = (mkEncodeState
         (buffer e
          ++ concat (map (uint_bytes TUint32)
                       (running_offsets (Z.of_nat (length elems) * 4)
                          (map (payload ps ef telem) elems)))
          ++ concat (map (payload ps ef telem) elems))
         [] sc', Nil)
    /\ length sc' = 32%nat.
Proof.
  intros Hfix Hef Hnp Haux Hsc.
  rewrite call_eq. unfold encodeSlice. rewrite Hfix, Hef.
  destruct (encodeSlice_loop_layout ps ef (Z.of_nat (length elems) * 4) telem elems e
              Hnp Hsc) as (sc' & -> & Hsc').
  exists sc'. unfold auxBuffer_Reset, buffer_Write. cbn [buffer auxBuffer scratch].
  rewrite Haux. cbn [length app]. rewrite Z.add_0_r, <- app_assoc. auto.
Qed.

(** X6: [encodeSlice] on a slice, not nil, of [n] elements of a
    variable-size type, on a state whose tail is empty, appends [n]
    four-byte little-endian offsets and then the payloads of the elements
    in order, where a payload is what the element's encoder writes in a
    state of its own (its error, if any, is dropped).  The first offset is
    [4 * n] and each next one adds the length of the payload before it,
    converted to [uint32]. *)
Theorem encodeSlice_writes_offsets_then_payloads :
  forall (pool_scratch : list Z) (telem : type) (ef : encoderFunc)
         (e : encodeState) (elems spare : list value),
    isFixedType telem = Some false ->
    typeEncoder telem = inr ef ->
    forallb (fun x => negb (panics pool_scratch ef telem x)) elems = true ->
    auxBuffer e = [] ->
    length (scratch e) = 32%nat ->
    exists sc',
      call pool_scratch fn_encodeSlice e (TSlice telem) (VSlice false elems spare)
      = (mkEncodeState
           (buffer e
            ++ concat (map (uint_bytes TUint32)
                         (running_offsets (Z.of_nat (length elems) * 4)
                            (map (payload pool_scratch ef telem) elems)))
            ++ concat (map (payload pool_scratch ef telem) elems))
           [] sc', Nil)
      /\ length sc' = 32%nat.
Proof. exact encodeSlice_layout. Qed.

Lemma encodeSlice_writes_offsets_then_payloads_witness :
  exists sc',
    call (replicate 32 0) fn_encodeSlice (mkEncodeState [9] [] (replicate 32 5))
      (TSlice TString) (VSlice false [VString [104; 105]; VString []; VString [33]] [])
    = (mkEncodeState
         ([9]
          ++ concat (map (uint_bytes TUint32)
                       (running_offsets (Z.of_nat 3 * 4)
                          (map (payload (replicate 32 0) fn_encodeString TString)
                             [VString [104; 105]; VString []; VString [33]])))
          ++ concat (map (payload (replicate 32 0) fn_encodeString TString)
                       [VString [104; 105]; VString []; VString [33]]))
         [] sc', Nil)
    /\ length sc' = 32%nat.
Proof.
  apply (encodeSlice_writes_offsets_then_payloads (replicate 32 0) TString fn_encodeString
           (mkEncodeState [9] [] (replicate 32 5))
           [VString [104; 105]; VString []; VString [33]] []); reflexivity.
Defined.

Example string_slice_bytes :
  Encode_bytes (TSlice TString) (VSlice false [VString [104; 105]; VString []; VString [33]] [])
  = ([12; 0; 0; 0; 14; 0; 0; 0; 14; 0; 0; 0; 104; 105; 33], Nil).
Proof. vm_compute. reflexivity. Qed.

Lemma Bytes_map_VUint (bs : list Z) : Bytes (map VUint bs) = Some bs.
Proof. induction bs as [| b bs IH]; [reflexivity |]. cbn [map Bytes]. rewrite IH. reflexivity. Qed.

Lemma payload_byteSlice (ps : list Z) (bs : list Z) :
  payload ps fn_encodeByteSlice (TSlice TUint8) (byteSlice bs) = bs
  /\ panics ps fn_encodeByteSlice (TSlice TUint8) (byteSlice bs) = false.
Proof.
  unfold payload, panics, byteSlice. rewrite call_eq. cbn [encodeByteSlice].
  rewrite Bytes_map_VUint. split; reflexivity.
Qed.

Lemma payloads_byteSlices (ps : list Z) (bss : list (list Z)) :
  map (payload ps fn_encodeByteSlice (TSlice TUint8)) (map byteSlice bss) = bss
  /\ forallb (fun x => negb (panics ps fn_encodeByteSlice (TSlice TUint8) x))
       (map byteSlice bss) = true.
Proof.
  induction bss as [| bs bss [IH1 IH2]]; [split; reflexivity |].
  destruct (payload_byteSlice ps bs) as [Hp Hn].
  cbn [map forallb]. rewrite Hp, Hn, IH1, IH2. split; reflexivity.
Qed.

Lemma running_offsets_lookup (payloads : list (list Z)) :
  forall (base : Z) (k : nat) (p : list Z),
    payloads !! k = Some p ->
    running_offsets base payloads !! k
    = Some (base + Z.of_nat (length (concat (take k payloads)))).
Proof.
  induction payloads as [| q payloads IH]; intros base k p Hk; [discriminate Hk |].
  destruct k as [| k].
  - cbn. rewrite Z.add_0_r. reflexivity.
  - cbn [running_offsets lookup list_lookup]. cbn [lookup list_lookup] in Hk.
    rewrite (IH _ k p Hk). cbn [take concat].
    rewrite length_app, Nat2Z.inj_add, Z.add_assoc. reflexivity.
Qed.

Lemma length_running_offsets (payloads : list (list Z)) (base : Z) :
  length (running_offsets base payloads) = length payloads.
Proof.
  revert base. induction payloads as [| p payloads IH]; intros base; [reflexivity |].
  cbn [running_offsets length]. rewrite IH. reflexivity.
Qed.

Lemma length_offset_words (offs : list Z) :
  length (concat (map (uint_bytes TUint32) offs)) = (4 * length offs)%nat.
Proof.
  induction offs as [| o offs IH]; [reflexivity |].
  cbn [map concat]. rewrite length_app, IH. cbn [uint_bytes length]. lia.
Qed.

Lemma drop_offset_words (offs : list Z) :
  forall (k : nat) (tail : list Z),
    (k <= length offs)%nat ->
    drop (4 * k) (concat (map (uint_bytes TUint32) offs) ++ tail)
    = concat (map (uint_bytes TUint32) (drop k offs)) ++ tail.
Proof.
  induction offs as [| o offs IH]; intros k tail Hk.
  - cbn [length] in Hk. replace k with 0%nat by lia. reflexivity.
  - destruct k as [| k]; [reflexivity |].
    cbn [map concat drop]. rewrite <- app_assoc.
    replace (4 * S k)%nat with (length (uint_bytes TUint32 o) + 4 * k)%nat
      by (cbn [uint_bytes length]; lia).
    rewrite drop_app_add. apply IH. cbn [length] in Hk. lia.
Qed.

Lemma offset_at_word (o : Z) (rest : list Z) :
  0 <= o < 2 ^ 32 -> offset_at (uint_bytes TUint32 o ++ rest) 0 = o.
Proof.
  intros Ho. unfold offset_at. rewrite drop_0.
  rewrite take_app_length' by reflexivity.
  apply LE_Uint32_bytes. exact Ho.
Qed.

Lemma concat_take_drop (bss : list (list Z)) (k : nat) :
  drop (length (concat (take k bss))) (concat bss) = concat (drop k bss).
Proof.
  rewrite <- (take_drop k bss) at 2. rewrite concat_app. apply drop_app_length.
Qed.

Lemma length_concat_take_le (bss : list (list Z)) (k : nat) :
  (length (concat (take k bss)) <= length (concat bss))%nat.
Proof.
  rewrite <- (take_drop k bss) at 2. rewrite concat_app, length_app. lia.
Qed.

(** X7: [Encode] of a slice, not nil, of [n] byte slices writes [n]
    offsets and then the byte slices one after another.  When the whole
    encoding is shorter than 2^32 bytes, the offset at position [4 * k],
    read little-endian, is [4 * n] plus the lengths of the byte slices
    before the [k]-th, and the bytes of the encoding from that offset on
    begin with the [k]-th byte slice. *)
Theorem Encode_byte_slices_offsets_point_at_payloads :
  forall (pool_scratch w : list Z) (bss : list (list Z)) (spare : list value),
    length pool_scratch = 32%nat ->
    let out :=
      concat (map (uint_bytes TUint32)
                (running_offsets (Z.of_nat (length bss) * 4) bss))
      ++ concat bss in
    Encode Buffer_Write pool_scratch w
      (Some (TSlice (TSlice TUint8), VSlice false (map byteSlice bss) spare))
    = (w ++ out, Nil)
    /\ length out = (4 * length bss + length (concat bss))%nat
    /\ (Z.of_nat (length out) < 2 ^ 32 ->
        forall (k : nat) (bs : list Z),
          bss !! k = Some bs ->
          offset_at out (4 * k)
          = Z.of_nat (4 * length bss + length (concat (take k bss)))
          /\ take (length bs) (drop (Z.to_nat (offset_at out (4 * k))) out) = bs).
Proof.
  intros ps w bss spare Hps out.
  assert (Hlen : length out = (4 * length bss + length (concat bss))%nat).
  { unfold out. rewrite length_app, length_offset_words, length_running_offsets.
    reflexivity. }
  split; [| split; [exact Hlen |]].
  - destruct (payloads_byteSlices ps bss) as [Hpay Hnp].
    destruct (encodeSlice_layout ps (TSlice TUint8) fn_encodeByteSlice (pool_Get_reset ps)
                (map byteSlice bss) spare eq_refl eq_refl Hnp eq_refl Hps)
      as (sc' & Hcall & _).
    rewrite (Encode_to_Buffer ps w (TSlice (TSlice TUint8)) _ fn_encodeSlice _ eq_refl Hcall).
    cbn [buffer pool_Get_reset reset app]. rewrite Hpay, length_map. reflexivity.
  - intros Hsmall k bs Hk.
    pose proof (lookup_lt_Some _ _ _ Hk) as Hklt.
    pose proof (length_concat_take_le bss k) as Hpre.
    set (o := Z.of_nat (length bss) * 4 + Z.of_nat (length (concat (take k bss)))).
    assert (Hoff : offset_at out (4 * k) = o).
    { unfold offset_at, out.
      rewrite drop_offset_words by (rewrite length_running_offsets; lia).
      rewrite (drop_S _ o k)
        by (apply (running_offsets_lookup bss _ k bs Hk)).
      cbn [map concat]. rewrite <- app_assoc.
      change (LE_Uint32 (take 4 (uint_bytes TUint32 o ++ ?r)))
        with (offset_at (uint_bytes TUint32 o ++ r) 0).
      apply offset_at_word. unfold o. lia. }
    rewrite Hoff. split; [unfold o; lia |].
    replace (Z.to_nat o) with (4 * length bss + length (concat (take k bss)))%nat
      by (unfold o; lia).
    unfold out.
    rewrite drop_app_add'
      by (rewrite length_offset_words, length_running_offsets; reflexivity).
    rewrite concat_take_drop, (drop_S _ bs k Hk). cbn [concat].
    apply take_app_length.
Qed.

Lemma Encode_byte_slices_offsets_point_at_payloads_witness :
  let out :=
    concat (map (uint_bytes TUint32)
              (running_offsets (Z.of_nat (length [[254; 255]; [1; 2]]) * 4)
                 [[254; 255]; [1; 2]]))
    ++ concat [[254; 255]; [1; 2]] in
  offset_at out (4 * 1)
  = Z.of_nat (4 * length [[254; 255]; [1; 2]]
              + length (concat (take 1 [[254; 255]; [1; 2]])))
  /\ take (length [1; 2]) (drop (Z.to_nat (offset_at out (4 * 1))) out) = [1; 2].
Proof.
  refine (proj2 (proj2 (Encode_byte_slices_offsets_point_at_payloads
                          (replicate 32 0) [] [[254; 255]; [1; 2]] [] _)) _ 1%nat [1; 2] _).
  - reflexivity.
  - vm_compute. reflexivity.
  - reflexivity.
Defined.

(** X8: [readOffset] reads back what [encodeLength] wrote: on a stream
    whose unread bytes begin with the four bytes [encodeLength] appended
    for [len], it returns [len] converted to [uint32], that is [len]
    itself below 2^32 and [len] modulo 2^32 from there on, and moves four
    bytes forward. *)
Theorem readOffset_inverts_encodeLength :
  forall (e : encodeState) (len : Z) (s : Stream) (rest : list Z),
    length (scratch e) = 32%nat ->
    remaining s = drop (length (buffer e)) (buffer (encodeLength e len)) ++ rest ->
    exists sc',
      readOffset s
      = (mkStream (mkReader (r_s (r s)) (r_i (r s) + 4)) sc', len mod 2 ^ 32, None).
Proof.
  intros e len s rest Hsc Hrem.
  destruct (encodeLength_bytes e len Hsc) as (sc1 & Henc & _).
  rewrite Henc in Hrem. cbn [buffer] in Hrem. rewrite drop_app_length in Hrem.
  unfold readOffset.
  rewrite (readBytes_available s 3 (uint_bytes TUint32 len) rest Hrem eq_refl).
  cbn [s_scratch]. rewrite take_copy_at_0 by reflexivity.
  eexists. f_equal. f_equal.
  assert (Hidem : uint_bytes TUint32 len = uint_bytes TUint32 (to_uint32 len)).
  { cbn [uint_bytes]. unfold to_uint32. rewrite Z.mod_mod by lia. reflexivity. }
  rewrite Hidem. apply LE_Uint32_bytes. unfold to_uint32.
  apply Z.mod_pos_bound. lia.
Qed.

Lemma readOffset_inverts_encodeLength_witness :
  exists sc',
    readOffset (NewStream [44; 1; 0; 0; 9])
    = (mkStream (mkReader [44; 1; 0; 0; 9] (0 + 4)) sc', 300 mod 2 ^ 32, None).
Proof.
  apply (readOffset_inverts_encodeLength (mkEncodeState [7] [] (replicate 32 0)) 300
           (NewStream [44; 1; 0; 0; 9]) [9]).
  - reflexivity.
  - vm_compute. reflexivity.
Defined.

(** ** Errors the encoders cannot return *)

Definition is_Err (out : outcome) : bool :=
  match out with Err _ => true | _ => false end.

Lemma encode_to_tail_no_Err ps cl ef s1size e t v :
  is_Err (snd (encode_to_tail ps cl ef s1size e t v)) = false.
Proof.
  unfold encode_to_tail. destruct (cl ef (pool_Get_reset ps) t v) as [inner out].
  destruct out; reflexivity.
Qed.

Lemma encodeSlice_loop_no_Err ps cl ef elemFixed s1size telem elems :
  forall e, is_Err (snd (encodeSlice_loop ps cl ef elemFixed s1size telem elems e)) = false.
Proof.
  induction elems as [| x elems IH]; intros e; [reflexivity |].
  rewrite encodeSlice_loop_cons. destruct elemFixed.
  - destruct (cl ef e telem x) as [e' out]. destruct out; try apply IH; reflexivity.
  - pose proof (encode_to_tail_no_Err ps cl ef s1size e telem x) as Ht.
    destruct (encode_to_tail ps cl ef s1size e telem x) as [e' out].
    destruct out; try apply IH; try reflexivity. discriminate Ht.
Qed.

Lemma encodeSlice_no_Err ps e t v :
  is_Err (snd (call ps fn_encodeSlice e t v)) = false.
Proof.
  rewrite call_eq. unfold encodeSlice.
  destruct t; try reflexivity. destruct v; try reflexivity.
  destruct isnil; [reflexivity |].
  destruct (isFixedType t) as [elemFixed |]; [| reflexivity].
  destruct (typeEncoder t) as [err | ef]; [reflexivity |].
  match goal with
  | |- context [encodeSlice_loop ?a ?b ?c ?d ?f ?g ?h ?i] =>
      pose proof (encodeSlice_loop_no_Err a b c d f g h i) as Hl;
      destruct (encodeSlice_loop a b c d f g h i) as [e' out]
  end.
  destruct out; try reflexivity. discriminate Hl.
Qed.

Lemma encodeStruct_no_Err ps e t v :
  is_Err (snd (call ps fn_encodeStruct e t v)) = false.
Proof.
  rewrite call_eq. unfold encodeStruct.
  destruct (walkStruct encodeStruct_size t v 0) as [s1size out1].
  destruct out1; try reflexivity;
    match goal with
    | |- context [walkStruct ?cb t v e] => destruct (walkStruct cb t v e) as [e' out2]
    end;
    destruct out2; reflexivity.
Qed.

(** The types [newTypeEncoder] hands to [encodeSlice], [encodeByteSlice]
    or [encodeStruct].  [big.Int] is of kind struct but is not among them:
    its case comes before the struct case and hands it to
    [encodeBigIntNoPtr], which does return errors. *)
Definition uses_encodeSlice_or_encodeStruct (t : type) : bool :=
  match typeEncoder t with
  | inr fn_encodeSlice | inr fn_encodeByteSlice | inr fn_encodeStruct => true
  | _ => false
  end.

(** These are the slices whose elements are not interfaces and the structs
    other than [big.Int]. *)
Lemma uses_encodeSlice_or_encodeStruct_types (t : type) :
  uses_encodeSlice_or_encodeStruct t = true
  <-> (exists elem, t = TSlice elem /\ Kind_of elem <> Interface)
      \/ (exists fs, t = TStruct fs).
Proof.
  unfold uses_encodeSlice_or_encodeStruct, typeEncoder, newTypeEncoder,
    Elem_isByte, Elem_isInterface.
  split.
  - destruct t as [ | | | | | | | | | | | | | | | | | elem | len elem | elem | fs];
      cbn; try discriminate.
    + destruct elem; cbn; discriminate.
    + destruct elem; cbn; try discriminate;
        intros _; left; eexists; (split; [reflexivity | cbn; discriminate]).
    + intros _. right. eexists. reflexivity.
  - intros [(elem & -> & Hk) | (fs & ->)]; [| reflexivity].
    destruct elem; cbn in Hk |- *; try reflexivity. contradiction.
Qed.

(** X9: [Encode] into a [bytes.Buffer] of a value whose encoder is
    [encodeSlice], [encodeByteSlice] or [encodeStruct], that is of a slice
    whose elements are not interfaces or of a struct other than [big.Int],
    never returns an error, whatever the element or field types and values
    are: these three functions return nil on every path, so an element or
    field that cannot be encoded is skipped without notice.  ([big.Int],
    a struct with an encoder of its own, is not covered: its encoder
    returns the width and sign errors.) *)
Theorem encodeSlice_and_encodeStruct_never_return_an_error :
  forall (pool_scratch w : list Z) (t : type) (v : value),
    uses_encodeSlice_or_encodeStruct t = true ->
    is_Err (snd (Encode Buffer_Write pool_scratch w (Some (t, v)))) = false.
Proof.
  intros ps w t v Ht.
  assert (Hef : exists ef, typeEncoder t = inr ef /\
                           is_Err (snd (call ps ef (pool_Get_reset ps) t v)) = false).
  { unfold uses_encodeSlice_or_encodeStruct in Ht.
    destruct (typeEncoder t) as [err | ef]; [discriminate Ht |].
    exists ef. split; [reflexivity |].
    destruct ef; try discriminate Ht.
    - rewrite call_eq. unfold encodeByteSlice.
      destruct v; try reflexivity. destruct (Bytes elems); reflexivity.
    - apply encodeSlice_no_Err.
    - apply encodeStruct_no_Err. }
  destruct Hef as (ef & Hef & Hcall).
  destruct (call ps ef (pool_Get_reset ps) t v) as [e' out] eqn:Hrun.
  destruct out; try discriminate Hcall.
  - rewrite (Encode_to_Buffer ps w t v ef e' Hef Hrun). reflexivity.
  - unfold Encode, encode. rewrite Hef, Hrun. reflexivity.
Qed.

Lemma encodeSlice_and_encodeStruct_never_return_an_error_witness :
  is_Err (snd (Encode Buffer_Write (replicate 32 0) []
                 (Some (TStruct [(true, TInt8); (true, TBool)],
                        VStruct [VInt 1; VBool true]))))
  = false.
Proof.
  apply (encodeSlice_and_encodeStruct_never_return_an_error (replicate 32 0) []
           (TStruct [(true, TInt8); (true, TBool)]) (VStruct [VInt 1; VBool true])).
  reflexivity.
Defined.

(** X10: no type is dispatched to [encodeBigIntPtr]: a pointer type is
    caught by the pointer case, which comes first in [newTypeEncoder].  So
    [Encode] of a nil [*big.Int] returns the empty-pointer error, not the
    error of [encodeBigIntPtr], and a pointer to a big integer is encoded
    as the big integer is. *)
Theorem encodeBigIntPtr_is_never_dispatched :
  forall (W : Type) (Write : W -> list Z -> W * Z * option error)
         (pool_scratch : list Z) (w : W) (i : Z),
    (forall t : type, typeEncoder t <> inr fn_encodeBigIntPtr)
    /\ Encode Write pool_scratch w (Some (TPtr TBigInt, VNilPtr)) = (w, Err ErrEmptyPointer)
    /\ Encode Write pool_scratch w (Some (TPtr TBigInt, VPtr (VBigInt i)))
       = Encode Write pool_scratch w (Some (TBigInt, VBigInt i)).
Proof.
  intros W Write ps w i. repeat split.
  intros t. unfold typeEncoder, newTypeEncoder, Elem_isByte, Elem_isInterface.
  destruct t as [ | | | | | | | | | | | | | | | | | elem | len elem | elem | fs];
    try discriminate; destruct elem; discriminate.
Qed.

(** X11: [Encode] of an array of interfaces with at least one element
    panics: [encodeArray] asks [isFixedType] about the element's static
    type, an interface type, and [isFixedType] calls [Elem] on it.  The
    writer is not reached. *)
Theorem Encode_interface_array_panics :
  forall (W : Type) (Write : W -> list Z -> W * Z * option error)
         (pool_scratch : list Z) (w : W) (n : nat) (x : value) (xs : list value),
    Encode Write pool_scratch w (Some (TArray n TInterface, VArray (x :: xs))) = (w, Panic).
Proof.
  intros W Write ps w n x xs.
  unfold Encode, encode.
  change (typeEncoder (TArray n TInterface)) with (@inr error encoderFunc fn_encodeArray).
  cbv iota. rewrite call_eq. unfold encodeArray.
  change (Kind_eqb (Kind_of TInterface) Interface) with true. cbv iota.
  destruct (sum_sizes TInterface (x :: xs)); reflexivity.
Qed.

(** X12: [Encode] of a nil slice of any element type that is not an
    interface returns nil and does not call the writer at all, whether or
    not the element type can be encoded. *)
Theorem Encode_nil_slice_writes_nothing :
  forall (W : Type) (Write : W -> list Z -> W * Z * option error)
         (pool_scratch : list Z) (w : W) (telem : type),
    Kind_eqb (Kind_of telem) Interface = false ->
    Encode Write pool_scratch w (Some (TSlice telem, VSlice true [] [])) = (w, Nil).
Proof.
  intros W Write ps w telem Hk.
  unfold Encode, encode, typeEncoder, newTypeEncoder, Elem_isByte, Elem_isInterface.
  cbn [Kind_of Elem]. rewrite Hk.
  destruct (isByte telem); reflexivity.
Qed.

Lemma Encode_nil_slice_writes_nothing_witness :
  Encode Buffer_Write (replicate 32 0) [5] (Some (TSlice TFloat64, VSlice true [] []))
  = ([5], Nil).
Proof.
  apply (Encode_nil_slice_writes_nothing (list Z) Buffer_Write (replicate 32 0) [5] TFloat64).
  reflexivity.
Defined.

(** ** The pooled scratch arrays do not show in the output *)

(** Two encoder states that differ at most in what their scratch arrays
    hold. *)
Definition sim (e1 e2 : encodeState) : Prop :=
  buffer e1 = buffer e2 /\ auxBuffer e1 = auxBuffer e2
  /\ length (scratch e1) = 32%nat /\ length (scratch e2) = 32%nat.

Definition sim_res (r1 r2 : encodeState * outcome) : Prop :=
  snd r1 = snd r2 /\ sim (fst r1) (fst r2).

Lemma sim_res_same (e1 e2 : encodeState) (out : outcome) :
  sim e1 e2 -> sim_res (e1, out) (e2, out).
Proof. intros H. split; [reflexivity | exact H]. Qed.

Lemma sim_buffer_Write (e1 e2 : encodeState) (p : list Z) :
  sim e1 e2 -> sim (buffer_Write e1 p) (buffer_Write e2 p).
Proof.
  intros (Hb & Ha & H1 & H2). unfold sim, buffer_Write. cbn [buffer auxBuffer scratch].
  rewrite Hb. auto.
Qed.

Lemma sim_flush (e1 e2 : encodeState) :
  sim e1 e2 ->
  sim (auxBuffer_Reset (buffer_Write e1 (auxBuffer e1)))
      (auxBuffer_Reset (buffer_Write e2 (auxBuffer e2))).
Proof.
  intros (Hb & Ha & H1 & H2). unfold sim, auxBuffer_Reset, buffer_Write.
  cbn [buffer auxBuffer scratch]. rewrite Hb, Ha. auto.
Qed.

Lemma sim_encodeLength (e1 e2 : encodeState) (len : Z) :
  sim e1 e2 -> sim (encodeLength e1 len) (encodeLength e2 len).
Proof.
  intros (Hb & Ha & H1 & H2).
  destruct (encodeLength_bytes e1 len H1) as (sc1 & -> & Hs1).
  destruct (encodeLength_bytes e2 len H2) as (sc2 & -> & Hs2).
  unfold sim. cbn [buffer auxBuffer scratch]. rewrite Hb. auto.
Qed.

Lemma sim_encodeUint (e1 e2 : encodeState) (t : type) (v : value) :
  sim e1 e2 -> sim_res (encodeUint e1 t v) (encodeUint e2 t v).
Proof.
  intros Hs. destruct v; try (apply sim_res_same; exact Hs).
  destruct (is_uintN t) eqn:Ht.
  - destruct Hs as (Hb & Ha & H1 & H2).
    destruct (encodeUint_bytes e1 t n Ht H1) as (sc1 & -> & Hs1 & _).
    destruct (encodeUint_bytes e2 t n Ht H2) as (sc2 & -> & Hs2 & _).
    unfold sim_res, sim. cbn [fst snd buffer auxBuffer scratch]. rewrite Hb. auto.
  - destruct t; try discriminate Ht; apply sim_res_same; exact Hs.
Qed.

Lemma bigInt_scratch (bigEndian scr : list Z) (width : nat) :
  (length bigEndian <= width)%nat -> (width <= length scr)%nat ->
  zero_fill (width - length bigEndian) (length bigEndian)
    (store_reversed (length bigEndian) 0 bigEndian scr)
  = (rev bigEndian ++ replicate (width - length bigEndian) 0) ++ drop width scr.
Proof.
  intros Hn Hw.
  rewrite (store_reversed_spec bigEndian (length bigEndian) 0) by lia.
  rewrite zero_fill_spec by (rewrite length_app, length_rev, length_drop; lia).
  rewrite take_app_length' by (rewrite length_rev; reflexivity).
  rewrite drop_app_add' by (rewrite length_rev; reflexivity).
  rewrite drop_drop.
  replace (length bigEndian + (width - length bigEndian))%nat with width by lia.
  rewrite <- app_assoc. reflexivity.
Qed.

Lemma sim_encodeBigInt (e1 e2 : encodeState) (i : Z) :
  sim e1 e2 -> sim_res (encodeBigInt e1 i) (encodeBigInt e2 i).
Proof.
  intros Hs. unfold encodeBigInt.
  destruct (i <? 0); [apply sim_res_same; exact Hs |].
  set (n := length (big_Bytes i)).
  destruct (Nat.ltb_spec n 9); [apply sim_res_same; exact Hs |].
  destruct (Nat.ltb_spec 32 n); [apply sim_res_same; exact Hs |]. cbn [orb].
  set (width := if (17 <=? n)%nat then 32%nat else 16%nat).
  assert (Hnw : (n <= width)%nat) by (unfold width; destruct (Nat.leb_spec 17 n); lia).
  assert (Hw32 : (width <= 32)%nat) by (unfold width; destruct (Nat.leb_spec 17 n); lia).
  destruct Hs as (Hb & Ha & H1 & H2).
  unfold n. rewrite !bigInt_scratch by (fold n; lia). fold n.
  set (out := rev (big_Bytes i) ++ replicate (width - n) 0).
  assert (Hout : width = length out).
  { unfold out. rewrite length_app, length_rev, length_replicate. fold n. lia. }
  rewrite !take_app_length' by exact Hout.
  unfold sim_res, sim, buffer_Write, set_scratch. cbn [fst snd buffer auxBuffer scratch].
  rewrite Hb, !length_app, !length_drop. repeat split; auto; lia.
Qed.

(** The encoders that do not call other encoders. *)
Lemma sim_encodeBigIntPtr (e1 e2 : encodeState) (v : value) :
  sim e1 e2 -> sim_res (encodeBigIntPtr e1 v) (encodeBigIntPtr e2 v).
Proof.
  intros Hs. unfold encodeBigIntPtr.
  destruct v as [| | | | | | | | | v' | | |]; try (apply sim_res_same; exact Hs).
  destruct v'; try (apply sim_res_same; exact Hs). apply sim_encodeBigInt. exact Hs.
Qed.

Lemma sim_encodeBigIntNoPtr (e1 e2 : encodeState) (v : value) :
  sim e1 e2 -> sim_res (encodeBigIntNoPtr e1 v) (encodeBigIntNoPtr e2 v).
Proof.
  intros Hs. unfold encodeBigIntNoPtr.
  destruct v; try (apply sim_res_same; exact Hs). apply sim_encodeBigInt. exact Hs.
Qed.

Lemma sim_encodeBool (e1 e2 : encodeState) (v : value) :
  sim e1 e2 -> sim_res (encodeBool e1 v) (encodeBool e2 v).
Proof.
  intros Hs. unfold encodeBool.
  destruct v; apply sim_res_same; try exact Hs. apply sim_buffer_Write. exact Hs.
Qed.

Lemma sim_encodeByteArray (e1 e2 : encodeState) (v : value) :
  sim e1 e2 -> sim_res (encodeByteArray e1 v) (encodeByteArray e2 v).
Proof.
  intros Hs. unfold encodeByteArray.
  destruct v; try (apply sim_res_same; exact Hs).
  destruct (Bytes elems); apply sim_res_same; try exact Hs.
  apply sim_buffer_Write. exact Hs.
Qed.

Lemma sim_encodeByteSlice (e1 e2 : encodeState) (v : value) :
  sim e1 e2 -> sim_res (encodeByteSlice e1 v) (encodeByteSlice e2 v).
Proof.
  intros Hs. unfold encodeByteSlice.
  destruct v; try (apply sim_res_same; exact Hs).
  destruct (Bytes elems); apply sim_res_same; try exact Hs.
  apply sim_buffer_Write. exact Hs.
Qed.

Lemma sim_encodeString (e1 e2 : encodeState) (v : value) :
  sim e1 e2 -> sim_res (encodeString e1 v) (encodeString e2 v).
Proof.
  intros Hs. unfold encodeString.
  destruct v; apply sim_res_same; try exact Hs. apply sim_buffer_Write. exact Hs.
Qed.

Lemma sim_auxBuffer_Write (e1 e2 : encodeState) (p : list Z) :
  sim e1 e2 -> sim (auxBuffer_Write e1 p) (auxBuffer_Write e2 p).
Proof.
  intros (Hb & Ha & H1 & H2). unfold sim, auxBuffer_Write. cbn [buffer auxBuffer scratch].
  rewrite Ha. auto.
Qed.

(** The result of [encodeArray_loop]: an early return or the state at the
    end of the loop. *)
Definition sim_sum (r1 r2 : encodeState * outcome + encodeState) : Prop :=
  match r1, r2 with
  | inl a, inl b => sim_res a b
  | inr a, inr b => sim a b
  | _, _ => False
  end.

Section ScratchIndependence.
Variables ps1 ps2 : list Z.
Hypothesis Hps1 : length ps1 = 32%nat.
Hypothesis Hps2 : length ps2 = 32%nat.

(** The encoders, run with either pool on similar states, agree on the
    value [x]. *)
Definition rel_on (x : value) : Prop :=
  forall (ef : encoderFunc) (t : type) (e1 e2 : encodeState),
    sim e1 e2 -> sim_res (call ps1 ef e1 t x) (call ps2 ef e2 t x).

Lemma sim_pool : sim (pool_Get_reset ps1) (pool_Get_reset ps2).
Proof. unfold sim, pool_Get_reset, reset. cbn. auto. Qed.

Lemma sim_encode_to_tail ef s1size e1 e2 t x :
  rel_on x -> sim e1 e2 ->
  sim_res (encode_to_tail ps1 (call ps1) ef s1size e1 t x)
          (encode_to_tail ps2 (call ps2) ef s1size e2 t x).
Proof.
  intros Hx Hs. unfold encode_to_tail.
  destruct (Hx ef t _ _ sim_pool) as [Hout (Hbuf & _)].
  destruct (call ps1 ef (pool_Get_reset ps1) t x) as [i1 o1].
  destruct (call ps2 ef (pool_Get_reset ps2) t x) as [i2 o2].
  cbn [fst snd] in Hout, Hbuf. subst o2.
  assert (Hlen : length (auxBuffer e1) = length (auxBuffer e2))
    by (destruct Hs as (_ & -> & _); reflexivity).
  rewrite Hlen, Hbuf.
  pose proof (sim_encodeLength e1 e2 (s1size + Z.of_nat (length (auxBuffer e2))) Hs) as Hl.
  destruct o1; apply sim_res_same; try exact Hl; apply sim_auxBuffer_Write; exact Hl.
Qed.

Lemma sim_encodeSlice_loop ef elemFixed s1size telem elems :
  Forall rel_on elems ->
  forall e1 e2, sim e1 e2 ->
    sim_res (encodeSlice_loop ps1 (call ps1) ef elemFixed s1size telem elems e1)
            (encodeSlice_loop ps2 (call ps2) ef elemFixed s1size telem elems e2).
Proof.
  induction 1 as [| x elems Hx _ IH]; intros e1 e2 Hs.
  - apply sim_res_same. exact Hs.
  - rewrite !encodeSlice_loop_cons. destruct elemFixed.
    + destruct (Hx ef telem e1 e2 Hs) as [Hout Hsim].
      destruct (call ps1 ef e1 telem x) as [a1 o1].
      destruct (call ps2 ef e2 telem x) as [a2 o2].
      cbn [fst snd] in Hout, Hsim. subst o2.
      destruct o1; try (apply IH; exact Hsim). apply sim_res_same. exact Hsim.
    + destruct (sim_encode_to_tail ef s1size e1 e2 telem x Hx Hs) as [Hout Hsim].
      destruct (encode_to_tail ps1 (call ps1) ef s1size e1 telem x) as [a1 o1].
      destruct (encode_to_tail ps2 (call ps2) ef s1size e2 telem x) as [a2 o2].
      cbn [fst snd] in Hout, Hsim. subst o2.
      destruct o1; try (apply IH; exact Hsim); apply sim_res_same; exact Hsim.
Qed.

Lemma sim_encodeArray_loop het s1size telem elems :
  Forall rel_on elems ->
  forall ef e1 e2, sim e1 e2 ->
    sim_sum (encodeArray_loop ps1 (call ps1) het s1size telem elems ef e1)
            (encodeArray_loop ps2 (call ps2) het s1size telem elems ef e2).
Proof.
  induction 1 as [| x elems Hx _ IH]; intros ef e1 e2 Hs.
  - exact Hs.
  - rewrite !encodeArray_loop_cons. cbv zeta.
    destruct (if match ef with None => true | Some _ => false end || het
              then match typeEncoder telem with inl _ => None | inr f => Some f end
              else ef) as [f |] eqn:Hef; [| apply sim_res_same; exact Hs].
    destruct (isFixedType telem) as [[|] |]; [| | apply sim_res_same; exact Hs].
    + destruct (Hx f telem e1 e2 Hs) as [Hout Hsim].
      destruct (call ps1 f e1 telem x) as [a1 o1].
      destruct (call ps2 f e2 telem x) as [a2 o2].
      cbn [fst snd] in Hout, Hsim. subst o2.
      destruct o1; try (apply IH; exact Hsim); apply sim_res_same; exact Hsim.
    + destruct (sim_encode_to_tail f s1size e1 e2 telem x Hx Hs) as [Hout Hsim].
      destruct (encode_to_tail ps1 (call ps1) f s1size e1 telem x) as [a1 o1].
      destruct (encode_to_tail ps2 (call ps2) f s1size e2 telem x) as [a2 o2].
      cbn [fst snd] in Hout, Hsim. subst o2.
      destruct o1; try (apply IH; exact Hsim); apply sim_res_same; exact Hsim.
Qed.

Lemma sim_encodeStruct_field s1size i ft fv e1 e2 :
  rel_on fv -> sim e1 e2 ->
  sim_res (encodeStruct_field ps1 (call ps1) s1size i ft fv e1)
          (encodeStruct_field ps2 (call ps2) s1size i ft fv e2).
Proof.
  intros Hx Hs. unfold encodeStruct_field.
  destruct (typeEncoder ft) as [err | ef]; [apply sim_res_same; exact Hs |].
  destruct (isFixedType ft) as [[|] |]; [| | apply sim_res_same; exact Hs].
  - destruct (Hx ef ft e1 e2 Hs) as [Hout Hsim].
    destruct (call ps1 ef e1 ft fv) as [a1 o1].
    destruct (call ps2 ef e2 ft fv) as [a2 o2].
    cbn [fst snd] in Hout, Hsim. subst o2.
    destruct o1; apply sim_res_same; exact Hsim.
  - apply sim_encode_to_tail; assumption.
Qed.

Lemma sim_walkStruct_fields s1size vs :
  Forall rel_on vs ->
  forall i fs e1 e2, sim e1 e2 ->
    sim_res (walkStruct_from (encodeStruct_field ps1 (call ps1) s1size) i fs vs e1)
            (walkStruct_from (encodeStruct_field ps2 (call ps2) s1size) i fs vs e2).
Proof.
  induction 1 as [| fv vs Hx _ IH]; intros i fs e1 e2 Hs.
  - destruct fs as [| [exported ft] fs]; apply sim_res_same; exact Hs.
  - destruct fs as [| [exported ft] fs]; [apply sim_res_same; exact Hs |].
    cbn [walkStruct_from]. destruct exported; [| apply IH; exact Hs].
    destruct (sim_encodeStruct_field s1size i ft fv e1 e2 Hx Hs) as [Hout Hsim].
    destruct (encodeStruct_field ps1 (call ps1) s1size i ft fv e1) as [a1 o1].
    destruct (encodeStruct_field ps2 (call ps2) s1size i ft fv e2) as [a2 o2].
    cbn [fst snd] in Hout, Hsim. subst o2.
    destruct o1; try (apply IH; exact Hsim); apply sim_res_same; exact Hsim.
Qed.

Lemma sim_encodeInterface e1 e2 v :
  (forall dyn v', v = VIface dyn v' -> rel_on v') ->
  sim e1 e2 ->
  sim_res (encodeInterface (call ps1) e1 v) (encodeInterface (call ps2) e2 v).
Proof.
  intros Hsub Hs. unfold encodeInterface.
  destruct v; try (apply sim_res_same; exact Hs).
  destruct (typeEncoder dyn); [apply sim_res_same; exact Hs |].
  apply (Hsub dyn v eq_refl). exact Hs.
Qed.

Lemma sim_encodePtr e1 e2 t v :
  (forall v', v = VPtr v' -> rel_on v') ->
  sim e1 e2 ->
  sim_res (encodePtr (call ps1) e1 t v) (encodePtr (call ps2) e2 t v).
Proof.
  intros Hsub Hs. unfold encodePtr.
  destruct t; try (apply sim_res_same; exact Hs).
  destruct v; try (apply sim_res_same; exact Hs).
  destruct (typeEncoder t); [apply sim_res_same; exact Hs |].
  apply (Hsub v eq_refl). exact Hs.
Qed.

Lemma sim_encodeSlice e1 e2 t v :
  (forall isnil elems spare, v = VSlice isnil elems spare -> Forall rel_on elems) ->
  sim e1 e2 ->
  sim_res (encodeSlice ps1 (call ps1) e1 t v) (encodeSlice ps2 (call ps2) e2 t v).
Proof.
  intros Hsub Hs. unfold encodeSlice.
  destruct t; try (apply sim_res_same; exact Hs).
  destruct v; try (apply sim_res_same; exact Hs).
  destruct isnil; [apply sim_res_same; exact Hs |].
  destruct (isFixedType t) as [elemFixed |]; [| apply sim_res_same; exact Hs].
  destruct (typeEncoder t) as [err | ef]; [apply sim_res_same; exact Hs |].
  set (s1size := if elemFixed then 0 else Z.of_nat (length elems) * 4).
  destruct (sim_encodeSlice_loop ef elemFixed s1size t elems
              (Hsub false elems spare eq_refl) e1 e2 Hs) as [Hout Hsim].
  destruct (encodeSlice_loop ps1 (call ps1) ef elemFixed s1size t elems e1) as [a1 o1].
  destruct (encodeSlice_loop ps2 (call ps2) ef elemFixed s1size t elems e2) as [a2 o2].
  cbn [fst snd] in Hout, Hsim. subst o2.
  destruct o1; apply sim_res_same; try exact Hsim. apply sim_flush. exact Hsim.
Qed.

Lemma sim_encodeArray e1 e2 t v :
  (forall elems, v = VArray elems -> Forall rel_on elems) ->
  sim e1 e2 ->
  sim_res (encodeArray ps1 (call ps1) e1 t v) (encodeArray ps2 (call ps2) e2 t v).
Proof.
  intros Hsub Hs. unfold encodeArray.
  destruct t; try (apply sim_res_same; exact Hs).
  destruct v; try (apply sim_res_same; exact Hs).
  match goal with
  | |- context [match ?s with Some _ => _ | None => _ end] =>
      destruct s as [s1size |]; [| apply sim_res_same; exact Hs]
  end.
  pose proof (sim_encodeArray_loop (Kind_eqb (Kind_of t) Interface) s1size t elems
                (Hsub elems eq_refl) None e1 e2 Hs) as Hloop.
  destruct (encodeArray_loop ps1 (call ps1) (Kind_eqb (Kind_of t) Interface) s1size t
              elems None e1) as [r1 | a1];
    destruct (encodeArray_loop ps2 (call ps2) (Kind_eqb (Kind_of t) Interface) s1size t
                elems None e2) as [r2 | a2];
    cbn [sim_sum] in Hloop; try contradiction.
  - exact Hloop.
  - apply sim_res_same. apply sim_flush. exact Hloop.
Qed.

Lemma sim_encodeStruct e1 e2 t v :
  (forall vals, v = VStruct vals -> Forall rel_on vals) ->
  sim e1 e2 ->
  sim_res (encodeStruct ps1 (call ps1) e1 t v) (encodeStruct ps2 (call ps2) e2 t v).
Proof.
  intros Hsub Hs. unfold encodeStruct.
  destruct (walkStruct encodeStruct_size t v 0) as [s1size o0] eqn:Hsize.
  assert (Hwalk : sim_res (walkStruct (encodeStruct_field ps1 (call ps1) s1size) t v e1)
                          (walkStruct (encodeStruct_field ps2 (call ps2) s1size) t v e2)).
  { unfold walkStruct. destruct t; try (apply sim_res_same; exact Hs).
    destruct v; try (apply sim_res_same; exact Hs).
    apply sim_walkStruct_fields; [apply (Hsub _ eq_refl) | exact Hs]. }
  destruct Hwalk as [Hout Hsim].
  destruct (walkStruct (encodeStruct_field ps1 (call ps1) s1size) t v e1) as [a1 o1].
  destruct (walkStruct (encodeStruct_field ps2 (call ps2) s1size) t v e2) as [a2 o2].
  cbn [fst snd] in Hout, Hsim. subst o2.
  destruct o0; try (apply sim_res_same; exact Hs);
    destruct o1; apply sim_res_same; try exact Hsim; apply sim_flush; exact Hsim.
Qed.

Ltac sub_ih :=
  intros; try discriminate;
  repeat match goal with
         | H : _ = _ :> value |- _ => injection H; clear H; intros; subst
         end;
  eauto using list_all_Forall.

Lemma call_sim (v : value) : rel_on v.
Proof.
  induction v as [b | n | n | n | s | n | | dyn v IH | | v IH
                  | elems IH | isnil elems IH spare _ | vals IH];
    intros ef t e1 e2 Hs; rewrite !call_eq; destruct ef;
    first
      [ apply sim_encodeInterface; [sub_ih | exact Hs]
      | apply sim_encodePtr; [sub_ih | exact Hs]
      | apply sim_encodeBigIntPtr; exact Hs
      | apply sim_encodeBigIntNoPtr; exact Hs
      | apply sim_encodeBool; exact Hs
      | apply sim_encodeUint; exact Hs
      | apply sim_encodeByteArray; exact Hs
      | apply sim_encodeByteSlice; exact Hs
      | apply sim_encodeString; exact Hs
      | apply sim_encodeSlice; [sub_ih | exact Hs]
      | apply sim_encodeArray; [sub_ih | exact Hs]
      | apply sim_encodeStruct; [sub_ih | exact Hs] ].
Qed.

End ScratchIndependence.

(** X13: what [Encode] writes and returns does not depend on what the
    pooled encoder states hold in their scratch arrays: with any two
    contents of the pool, any writer and any value, the outcome and the
    writer's final state are the same.  Every encoder writes the part of
    the scratch array it reads. *)
Theorem Encode_ignores_pooled_scratch :
  forall (W : Type) (Write : W -> list Z -> W * Z * option error)
         (ps1 ps2 : list Z) (w : W) (val : option (type * value)),
    length ps1 = 32%nat -> length ps2 = 32%nat ->
    Encode Write ps1 w val = Encode Write ps2 w val.
Proof.
  intros W Write ps1 ps2 w val H1 H2. unfold Encode, encode.
  destruct val as [[t v] |]; [| reflexivity].
  destruct (typeEncoder t) as [err | ef]; [reflexivity |].
  destruct (call_sim ps1 ps2 H1 H2 v ef t _ _ (sim_pool ps1 ps2 H1 H2))
    as [Hout (Hbuf & _)].
  destruct (call ps1 ef (pool_Get_reset ps1) t v) as [a1 o1].
  destruct (call ps2 ef (pool_Get_reset ps2) t v) as [a2 o2].
  cbn [fst snd] in Hout, Hbuf. subst o2.
  destruct o1; try reflexivity.
  unfold toWriter. rewrite Hbuf.
  destruct (0 <? Z.of_nat (length (buffer a2))); [| reflexivity].
  destruct (Write w (buffer a2)) as [[w' m] err].
  destruct (Z.of_nat (length (buffer a2)) <? m); [reflexivity |].
  destruct err; [reflexivity |].
  destruct (negb (m =? Z.of_nat (length (buffer a2)))); reflexivity.
Qed.

Lemma Encode_ignores_pooled_scratch_witness :
  Encode Buffer_Write (replicate 32 0) []
    (Some (TSlice TUint16, VSlice false [VUint 1; VUint 2] []))
  = Encode Buffer_Write (replicate 32 255) []
      (Some (TSlice TUint16, VSlice false [VUint 1; VUint 2] [])).
Proof.
  apply (Encode_ignores_pooled_scratch (list Z) Buffer_Write
           (replicate 32 0) (replicate 32 255)); reflexivity.
Defined.

(** ** What the dispatch accepts *)

(** The numeric kinds [newTypeEncoder] has no case for: the signed
    integers, [uint], [uintptr] and the floats.  (The default case of the
    Go switch rejects maps, channels, functions, complex numbers and unsafe
    pointers as well; [type] has no such types.) *)
Definition unsupported_scalar (t : type) : bool :=
  match t with
  | TInt | TInt8 | TInt16 | TInt32 | TInt64 | TUint | TUintptr
  | TFloat32 | TFloat64 => true
  | _ => false
  end.

(** X14: [typeEncoder] looks at the outermost kind only.  Among the types
    of [type], which are bool, the integers and floats of every width,
    [uintptr], string, interface, [big.Int], pointers, arrays, slices and
    structs, it fails for the signed integers, [uint], [uintptr] and the
    floats, with the error that names the kind, and for a slice whose
    element type is an interface, and for no other: a pointer to, an array
    of, a slice of or a struct with fields of one of these numeric types is
    accepted.  (Maps, channels, functions, complex numbers and unsafe
    pointers, which the default case rejects too, are outside [type] and
    outside this statement.) *)
Theorem typeEncoder_rejects_by_outer_kind :
  forall t : type,
    match typeEncoder t with
    | inl err =>
        (unsupported_scalar t = true /\ err = ErrNotSerializable (Kind_of t))
        \/ (exists elem, t = TSlice elem /\ Kind_of elem = Interface
                         /\ err = ErrInterfaceSlice)
    | inr _ =>
        unsupported_scalar t = false
        /\ forall elem, t = TSlice elem -> Kind_of elem <> Interface
    end.
Proof.
  intros t. unfold typeEncoder, newTypeEncoder, Elem_isByte, Elem_isInterface.
  destruct t as [ | | | | | | | | | | | | | | | | | elem | len elem | elem | fs];
    cbn; try (left; split; reflexivity);
    try (split; [reflexivity | intros e He; discriminate He]).
  - destruct elem; cbn; split; try reflexivity; intros e He; discriminate He.
  - destruct elem; cbn;
      try (split; [reflexivity | intros e He; injection He as <-; cbn; discriminate]).
    right. exists TInterface. auto.
Qed.

(** ** Slices of slices of bool *)

(** Making room for index [i = Len] in a slice whose spare elements are
    zero values exposes one more zero value and leaves zero values. *)
Lemma make_room_zero (telem : type) (elems : list value) (k : nat) :
  exists k' : nat,
    make_room telem (length elems) elems (replicate k (zero telem))
    = (elems ++ [zero telem], replicate k' (zero telem)).
Proof.
  unfold make_room. rewrite Nat.leb_refl.
  destruct k as [| k].
  - cbn [replicate length]. rewrite Nat.add_0_r, Nat.leb_refl.
    unfold grow_slice. cbn [length]. rewrite Nat.add_0_r.
    set (cap := length elems).
    set (newcap := if (cap + cap / 2 <? 4)%nat then 4%nat else (cap + cap / 2)%nat).
    assert (Hgrow : exists j, (newcap - cap)%nat = S j).
    { exists (newcap - cap - 1)%nat. unfold newcap.
      pose proof (Nat.div_mod_eq cap 2) as Hdm.
      pose proof (Nat.mod_upper_bound cap 2 ltac:(lia)) as Hm.
      destruct (Nat.ltb_spec (cap + cap / 2) 4); lia. }
    destruct Hgrow as (j & ->). cbn [replicate].
    exists j. unfold cap. apply SetLen_next.
  - cbn [replicate].
    destruct (Nat.leb_spec
                (length elems + length (zero telem :: replicate k (zero telem)))
                (length elems)) as [Hle | _];
      [cbn [length] in Hle; lia |].
    exists k. apply SetLen_next.
Qed.

(** The loop of [decodeSliceElems] over bools ends in nil when it ends:
    [decodeBool] answers nil or [io.EOF], and [io.EOF] is what ends the
    loop with nil. *)
Lemma decode_bools_loop_ends_with_nil :
  forall (fuel : nat) (s : Stream) (elems spare : list value),
    forallb (wt TBool) spare = true ->
    decodeSliceElems_loop TBool decodeBool fuel (length elems) s elems spare = None
    \/ exists (s' : Stream) (v' : value),
         decodeSliceElems_loop TBool decodeBool fuel (length elems) s elems spare
         = Some (s', v', Nil).
Proof.
  induction fuel as [| fuel IH]; intros s elems spare Hsp; [left; reflexivity |].
  cbn [decodeSliceElems_loop].
  destruct (make_room_wt TBool elems spare eq_refl Hsp) as (x0 & sp2 & -> & Hx0 & Hsp2).
  rewrite list_lookup_middle by reflexivity.
  destruct (remaining s) as [| b rest] eqn:Hrem.
  - rewrite (decodeBool_at_end s x0 Hrem), insert_last.
    destruct (Nat.ltb_spec (length elems) (length (elems ++ [x0]))) as [_ | Hge];
      [| rewrite length_snoc in Hge; lia].
    rewrite SetLen_back. right. eauto.
  - rewrite (decodeBool_any b s x0 rest Hx0 Hrem), insert_last.
    rewrite <- (length_snoc elems (bool_of_byte b)).
    apply IH. exact Hsp2.
Qed.

(** The loop of [decodeSliceElems] over elements of type []bool has no
    exit: [decodeSlice] for a []bool returns nil also at the end of the
    input, never [io.EOF], so the loop goes on to the next element whatever
    the stream holds.  [F] is the fuel of the element decoder. *)
Lemma decode_bool_slices_loop_diverges (F : nat) :
  forall (fuel : nat) (s : Stream) (elems : list value) (k : nat),
    decodeSliceElems_loop (TSlice TBool) (decodeSlice F TBool (inr decodeBool))
      fuel (length elems) s elems (replicate k (VSlice true [] [])) = None.
Proof.
  induction fuel as [| fuel IH]; intros s elems k; [reflexivity |].
  cbn [decodeSliceElems_loop].
  destruct (make_room_zero (TSlice TBool) elems k) as (k' & Hroom).
  cbn [zero] in Hroom. rewrite Hroom.
  rewrite list_lookup_middle by reflexivity.
  change (decodeSlice F TBool (inr decodeBool) s (VSlice true [] []))
    with (decodeSliceElems_loop TBool decodeBool F (length (@nil value)) s [] []).
  destruct (decode_bools_loop_ends_with_nil F s [] [] eq_refl) as [-> | (s' & v' & ->)].
  - reflexivity.
  - rewrite insert_last, <- (length_snoc elems v'). apply IH.
Qed.

(** [decodeSlice] into a nil [][]bool does not return once the first
    offset is read and lies inside the stream. *)
Lemma decodeSlice_bool_slices_diverges (F fuel : nat) (s s' : Stream) (O1 : Z) :
  readOffset s = (s', O1, None) ->
  0 <= O1 < size s' ->
  decodeSlice fuel (TSlice TBool) (inr (decodeSlice F TBool (inr decodeBool)))
    s (VSlice true [] [])
  = None.
Proof.
  intros Hoff Hlt. unfold decodeSlice at 1. cbn [isFixedType].
  rewrite Hoff, newSectionStream_tail by exact Hlt.
  unfold decodeSliceElems.
  pose proof (decode_bool_slices_loop_diverges F fuel
                (NewStream (drop (Z.to_nat O1) (r_s (r s')))) [] 0) as Hloop.
  cbn [length replicate] in Hloop. rewrite Hloop. reflexivity.
Qed.

(** C6 (the code at failing inputs): [encodeSlice] writes one offset per
    element, and the interface branch of [decodeArray] reads one offset per
    element; [decodeSlice] reads the first offset only, derives no count
    from it and hands the whole tail to [decodeSliceElems].
    For [][]bool{{true},{false}} [Encode] writes 08 00 00 00 09 00 00 00
    01 00: two offsets, the count 8 / 4 = 2, the payloads 01 and 00, as
    the claim describes.  [Decode] of these bytes into a [][]bool does not
    return, whatever the fuel: the first element takes both bytes of the
    tail, and every further element is decoded from the exhausted section
    with nil, never [io.EOF].
    For [][][]bool{{{}}} [Encode] writes 04 00 00 00 04 00 00 00, one
    element with the payload 04 00 00 00; [Decode] returns nil and leaves
    a slice of no element. *)
Theorem Decode_misreads_slices_of_variable_size_elements :
  let T2 := TSlice (TSlice TBool) in
  let T3 := TSlice (TSlice (TSlice TBool)) in
  let v2 := VSlice false [VSlice false [VBool true] [];
                          VSlice false [VBool false] []] [] in
  let v3 := VSlice false [VSlice false [VSlice false [] []] []] [] in
  Encode_bytes T2 v2 = ([8; 0; 0; 0; 9; 0; 0; 0; 1; 0], Nil)
  /\ spec_payloads [8; 0; 0; 0; 9; 0; 0; 0; 1; 0] = [[1]; [0]]
  /\ (forall fuel : nat,
        Decode_new fuel [8; 0; 0; 0; 9; 0; 0; 0; 1; 0] T2 = None)
  /\ Encode_bytes T3 v3 = ([4; 0; 0; 0; 4; 0; 0; 0], Nil)
  /\ spec_payloads [4; 0; 0; 0; 4; 0; 0; 0] = [[4; 0; 0; 0]]
  /\ (forall fuel : nat,
        Decode_new (S fuel) [4; 0; 0; 0; 4; 0; 0; 0] T3
        = Some (Some (TPtr T3,
                      VPtr (VSlice false [] (replicate 4 (VSlice true [] [])))),
                Nil)).
Proof.
  cbv zeta.
  split; [vm_compute; reflexivity |].
  split; [vm_compute; reflexivity |].
  split.
  { intros fuel. unfold Decode_new, Decode, Stream_Decode, newTypeDecoder.
    cbn [typeDecoder Kind_of zero]. change (Kind_eqb Slice Interface) with false.
    change (Kind_eqb Bool Interface) with false. cbv iota.
    rewrite (decodeSlice_bool_slices_diverges fuel fuel _
               (mkStream (mkReader [8; 0; 0; 0; 9; 0; 0; 0; 1; 0] 4)
                         (copy_at 0 [8; 0; 0; 0] (replicate 32 0))) 8).
    - reflexivity.
    - reflexivity.
    - vm_compute. split; [discriminate | reflexivity]. }
  split; [vm_compute; reflexivity |].
  split; [vm_compute; reflexivity |].
  intros fuel. vm_compute. reflexivity.
Qed.

(** ** Slices of slices of unsigned integers are never decoded *)

Lemma readBytes_keeps_slice (s : Stream) (k : nat) :
  r_s (r (fst (readBytes s (S k)))) = r_s (r s).
Proof.
  destruct (Nat.leb_spec (S k) (length (remaining s))) as [Henough | Hshort].
  - rewrite (readBytes_available s k (take (S k) (remaining s)) (drop (S k) (remaining s))).
    + reflexivity.
    + unfold remaining. rewrite take_drop. reflexivity.
    + rewrite length_take. lia.
  - destruct (readBytes_short s k Hshort) as (sc' & ->). reflexivity.
Qed.

Definition is_Nil (out : outcome) : bool :=
  match out with Nil => true | _ => false end.

(** X16: [Decode] into a pointer to a nil slice of slices of uint8,
    uint16, uint32 or uint64 (a [][]byte for one) never returns nil,
    whatever the input: the first offset cannot be read, or no section
    starts at it, or the first element is decoded as a slice of unsigned
    integers over the whole tail and ends in [io.ErrUnexpectedEOF].  In
    particular nothing [Encode] writes for such a value is decoded
    again. *)
Theorem Decode_slice_of_uint_slices_never_succeeds :
  forall (t : type) (stream_scratch input : list Z) (fuel : nat),
    is_uintN t = true ->
    (length input < fuel)%nat ->
    exists (val' : option (type * value)) (out : outcome),
      Decode stream_scratch fuel input
        (Some (TPtr (TSlice (TSlice t)), VPtr (VSlice true [] [])))
      = Some (val', out)
      /\ is_Nil out = false.
Proof.
  intros t ps input fuel Ht Hfuel.
  assert (Hdec : typeDecoder fuel (TSlice (TSlice t))
                 = inr (decodeSlice fuel (TSlice t)
                          (inr (decodeSlice fuel t (inr (decodeUint t)))))).
  { destruct t; try discriminate Ht; reflexivity. }
  assert (Hfix : isFixedType t = Some true)
    by (destruct t; try discriminate Ht; reflexivity).
  unfold Decode, Stream_Decode, newTypeDecoder. rewrite Hdec.
  set (s0 := mkStream (mkReader input 0) ps).
  unfold decodeSlice at 1. cbn [isFixedType].
  destruct (readOffset s0) as [[s1 O1] [err |]] eqn:Hoff; [eauto |].
  assert (Hs1 : r_s (r s1) = input).
  { unfold readOffset in Hoff. pose proof (readBytes_keeps_slice s0 3) as Hk.
    destruct (readBytes s0 4) as [s1' [e1 |]]; [discriminate Hoff |].
    injection Hoff as <- _. exact Hk. }
  unfold newSectionStream.
  destruct (size s1 - O1 <? 0); [eauto |].
  destruct (size s1 <=? O1); [eauto |].
  set (got := take (Z.to_nat (size s1 - O1)) (drop (Z.to_nat O1) (r_s (r s1)))).
  destruct (Z.of_nat (length got) <? size s1 - O1); [eauto |].
  assert (Hgot : (length got < fuel)%nat).
  { unfold got. rewrite length_take, length_drop, Hs1. lia. }
  destruct fuel as [| fuel']; [lia |].
  unfold decodeSliceElems. cbn [decodeSliceElems_loop].
  destruct (make_room_wt (TSlice t) [] [] eq_refl eq_refl) as (x0 & sp2 & Hroom & _ & _).
  cbn [length] in Hroom. rewrite Hroom. cbn [app lookup list_lookup].
  assert (Hx0 : x0 = VSlice true [] []).
  { unfold make_room, grow_slice, SetLen in Hroom. cbn in Hroom.
    injection Hroom as <- _. reflexivity. }
  subst x0.
  unfold decodeSlice at 1. rewrite Hfix. unfold decodeSliceElems.
  destruct (decode_uints_loop t Ht (S fuel') (NewStream got) [] [] eq_refl)
    as (s' & v' & Hloop).
  { unfold remaining, NewStream. cbn [r r_s r_i]. rewrite drop_0. exact Hgot. }
  cbn [length] in Hloop. rewrite Hloop. eauto.
Qed.

Lemma Decode_slice_of_uint_slices_never_succeeds_witness :
  exists (val' : option (type * value)) (out : outcome),
    Decode (replicate 32 0) 13 [8; 0; 0; 0; 10; 0; 0; 0; 254; 255; 1; 2]
      (Some (TPtr (TSlice (TSlice TUint8)), VPtr (VSlice true [] [])))
    = Some (val', out)
    /\ is_Nil out = false.
Proof.
  apply (Decode_slice_of_uint_slices_never_succeeds TUint8 (replicate 32 0)
           [8; 0; 0; 0; 10; 0; 0; 0; 254; 255; 1; 2] 13).
  - reflexivity.
  - cbn. lia.
Defined.

(** ** The layout of a struct of scalars, byte arrays, strings and slices *)

(** Fixed-size field types whose encoder writes straight into the head:
    bool, the sized unsigned integers and byte arrays. *)
Definition leaf_fixed (t : type) : bool :=
  match t with
  | TBool | TUint8 | TUint16 | TUint32 | TUint64 => true
  | TArray _ TUint8 => true
  | _ => false
  end.

(** Variable-size field types: strings and slices. *)
Definition var_field (t : type) : bool :=
  match t with
  | TString => true
  | TSlice elem => negb (Kind_eqb (Kind_of elem) Interface)
  | _ => false
  end.

Definition field_ok (ps : list Z) (f : bool * type) (fv : value) : bool :=
  fst f && wt (snd f) fv
  && (leaf_fixed (snd f)
      || (var_field (snd f)
          && match typeEncoder (snd f) with
             | inr ef => negb (panics ps ef (snd f) fv)
             | inl _ => false
             end)).

(** Every field is exported and holds a well-formed value of a type of one
    of the two sorts, and no encoder of a variable-size field panics. *)
Fixpoint flat_fields (ps : list Z) (fs : list (bool * type)) (vs : list value) : bool :=
  match fs, vs with
  | [], [] => true
  | f :: fs', fv :: vs' => field_ok ps f fv && flat_fields ps fs' vs'
  | _, _ => false
  end.

(** The size of the head: the size of each fixed field, four bytes for
    each variable one. *)
Fixpoint head_size (fs : list (bool * type)) : Z :=
  match fs with
  | [] => 0
  | (_, ft) :: fs' =>
      (if leaf_fixed ft
       then match ft with
            | TArray len _ => Z.of_nat len
            | _ => Z.of_nat (uint_size ft) + (if isUint ft then 0 else 1)
            end
       else 4) + head_size fs'
  end.

(** The head: fixed fields inline, an offset for each variable field,
    [tail_len] being the length of the tail gathered so far. *)
Fixpoint struct_head (ps : list Z) (s1size : Z) (fs : list (bool * type))
    (vs : list value) (tail_len : Z) : list Z :=
  match fs, vs with
  | (_, ft) :: fs', fv :: vs' =>
      match typeEncoder ft with
      | inr ef =>
          if leaf_fixed ft
          then payload ps ef ft fv ++ struct_head ps s1size fs' vs' tail_len
          else uint_bytes TUint32 (s1size + tail_len)
               ++ struct_head ps s1size fs' vs'
                    (tail_len + Z.of_nat (length (payload ps ef ft fv)))
      | inl _ => []
      end
  | _, _ => []
  end.

(** The tail: the payloads of the variable fields, in order. *)
Fixpoint struct_tail (ps : list Z) (fs : list (bool * type)) (vs : list value) : list Z :=
  match fs, vs with
  | (_, ft) :: fs', fv :: vs' =>
      match typeEncoder ft with
      | inr ef =>
          if leaf_fixed ft then struct_tail ps fs' vs'
          else payload ps ef ft fv ++ struct_tail ps fs' vs'
      | inl _ => []
      end
  | _, _ => []
  end.

Lemma leaf_fixed_field (ps : list Z) (ft : type) (fv : value) (e : encodeState) :
  length ps = 32%nat ->
  leaf_fixed ft = true -> wt ft fv = true ->
  length (scratch e) = 32%nat ->
  exists ef sc',
    typeEncoder ft = inr ef
    /\ isFixedType ft = Some true
    /\ call ps ef e ft fv
       = (mkEncodeState (buffer e ++ payload ps ef ft fv) (auxBuffer e) sc', Nil)
    /\ length sc' = 32%nat
    /\ getTypeSize ft fv = Some (Z.of_nat (length (payload ps ef ft fv)))
    /\ Z.of_nat (length (payload ps ef ft fv))
       = match ft with
         | TArray len _ => Z.of_nat len
         | _ => Z.of_nat (uint_size ft) + (if isUint ft then 0 else 1)
         end.
Proof.
  intros Hps Hleaf Hwt Hsc.
  assert (Huint : forall n, is_uintN ft = true -> fv = VUint n ->
            exists sc',
              call ps fn_encodeUint e ft fv
              = (mkEncodeState (buffer e ++ payload ps fn_encodeUint ft fv)
                               (auxBuffer e) sc', Nil)
              /\ length sc' = 32%nat
              /\ payload ps fn_encodeUint ft fv = uint_bytes ft n).
  { intros n Hu ->. unfold payload. rewrite !call_eq.
    destruct (encodeUint_bytes e ft n Hu Hsc) as (sc1 & -> & Hsc1 & _).
    destruct (encodeUint_bytes (pool_Get_reset ps) ft n Hu Hps) as (sc2 & -> & _ & _).
    cbn [fst buffer pool_Get_reset reset app]. eauto. }
  destruct ft as [ | | | | | | | | | | | | | | | | | elem | len elem | elem | fs];
    try discriminate Hleaf.
  - destruct fv; try discriminate Hwt.
    exists fn_encodeBool, (scratch e). unfold payload. rewrite !call_eq.
    cbn [encodeBool fst buffer buffer_Write pool_Get_reset reset app].
    unfold buffer_Write. cbn [buffer auxBuffer scratch app].
    repeat split; try assumption; destruct b; reflexivity.
  - destruct fv; try discriminate Hwt.
    destruct (Huint n eq_refl eq_refl) as (sc' & Hcall & Hsc' & Hpay).
    exists fn_encodeUint, sc'. rewrite Hcall, Hpay.
    repeat split; assumption || reflexivity.
  - destruct fv; try discriminate Hwt.
    destruct (Huint n eq_refl eq_refl) as (sc' & Hcall & Hsc' & Hpay).
    exists fn_encodeUint, sc'. rewrite Hcall, Hpay.
    repeat split; assumption || reflexivity.
  - destruct fv; try discriminate Hwt.
    destruct (Huint n eq_refl eq_refl) as (sc' & Hcall & Hsc' & Hpay).
    exists fn_encodeUint, sc'. rewrite Hcall, Hpay.
    repeat split; assumption || reflexivity.
  - destruct fv; try discriminate Hwt.
    destruct (Huint n eq_refl eq_refl) as (sc' & Hcall & Hsc' & Hpay).
    exists fn_encodeUint, sc'. rewrite Hcall, Hpay.
    repeat split; assumption || reflexivity.
  - destruct elem; try discriminate Hleaf.
    destruct fv as [| | | | | | | | | | elems | |]; try discriminate Hwt.
    cbn [wt] in Hwt. apply andb_prop in Hwt as [Hl Hw]. apply Nat.eqb_eq in Hl.
    destruct (Bytes_of_bytes _ Hw) as (bs & Hbs & Hbl).
    exists fn_encodeByteArray, (scratch e). unfold payload. rewrite !call_eq.
    cbn [encodeByteArray]. rewrite Hbs. unfold buffer_Write.
    cbn [fst buffer auxBuffer scratch pool_Get_reset reset app getTypeSize].
    change (isByte TUint8) with true. cbv iota.
    repeat split; try assumption; try reflexivity; f_equal; lia.
Qed.

Lemma var_field_facts (ft : type) (fv : value) :
  var_field ft = true -> wt ft fv = true ->
  leaf_fixed ft = false
  /\ isFixedType ft = Some false
  /\ getTypeSize ft fv = Some 4
  /\ exists ef, typeEncoder ft = inr ef.
Proof.
  intros Hvar Hwt.
  destruct ft as [ | | | | | | | | | | | | | | | | | elem | len elem | elem | fs];
    try discriminate Hvar.
  - destruct fv; try discriminate Hwt. repeat split. exists fn_encodeString. reflexivity.
  - cbn [var_field] in Hvar. apply negb_true_iff in Hvar.
    destruct fv; try discriminate Hwt. repeat split.
    unfold typeEncoder, newTypeEncoder, Elem_isByte, Elem_isInterface.
    cbn [Kind_of Elem]. rewrite Hvar.
    destruct (isByte elem); eexists; reflexivity.
Qed.

Lemma flat_struct_walk (ps : list Z) (s1size : Z) :
  length ps = 32%nat ->
  forall (fs : list (bool * type)) (vs : list value) (i : nat) (e : encodeState) (s0 : Z),
    flat_fields ps fs vs = true ->
    length (scratch e) = 32%nat ->
    walkStruct_from encodeStruct_size i fs vs s0 = (s0 + head_size fs, Nil)
    /\ Z.of_nat (length (struct_head ps s1size fs vs
                           (Z.of_nat (length (auxBuffer e))))) = head_size fs
    /\ exists sc',
         walkStruct_from (encodeStruct_field ps (call ps) s1size) i fs vs e
         = (mkEncodeState
              (buffer e ++ struct_head ps s1size fs vs (Z.of_nat (length (auxBuffer e))))
              (auxBuffer e ++ struct_tail ps fs vs) sc', Nil)
         /\ length sc' = 32%nat.
Proof.
  intros Hps. induction fs as [| [exported ft] fs IH]; intros vs i e s0 Hflat Hsc.
  - destruct vs; [| discriminate Hflat].
    cbn. rewrite Z.add_0_r, !app_nil_r. repeat split.
    exists (scratch e). destruct e. auto.
  - destruct vs as [| fv vs]; [discriminate Hflat |].
    cbn [flat_fields] in Hflat. apply andb_prop in Hflat as [Hok Hflat].
    unfold field_ok in Hok. cbn [fst snd] in Hok.
    apply andb_prop in Hok as [Hok Hsort]. apply andb_prop in Hok as [Hex Hwt].
    subst exported.
    cbn [walkStruct_from struct_head struct_tail head_size].
    unfold encodeStruct_size at 1. unfold encodeStruct_field at 1.
    destruct (leaf_fixed ft) eqn:Hleaf.
    + destruct (leaf_fixed_field ps ft fv e Hps Hleaf Hwt Hsc)
        as (ef & sc1 & Hef & Hfix & Hcall & Hsc1 & Hsize & Hlen).
      rewrite Hef, Hfix, Hcall, Hsize.
      destruct (IH vs (S i) (mkEncodeState (buffer e ++ payload ps ef ft fv)
                               (auxBuffer e) sc1)
                  (s0 + Z.of_nat (length (payload ps ef ft fv))) Hflat Hsc1)
        as (Hw1 & Hhl & sc2 & Hw2 & Hsc2).
      cbn [buffer auxBuffer] in Hhl, Hw2.
      rewrite Hw1, Hw2, length_app, Nat2Z.inj_add, Hhl, <- app_assoc, <- Hlen.
      split; [f_equal; lia |].
      split; [reflexivity |].
      exists sc2. split; [reflexivity | exact Hsc2].
    + cbn [orb] in Hsort. apply andb_prop in Hsort as [Hvar Hnp].
      destruct (var_field_facts ft fv Hvar Hwt) as (_ & Hfix & Hsize & ef & Hef).
      rewrite Hef in Hnp |- *. apply negb_true_iff in Hnp.
      rewrite Hfix, Hsize.
      destruct (encode_to_tail_layout ps ef s1size e ft fv Hnp Hsc) as (sc1 & -> & Hsc1).
      destruct (IH vs (S i)
                  (mkEncodeState
                     (buffer e ++ uint_bytes TUint32
                                    (s1size + Z.of_nat (length (auxBuffer e))))
                     (auxBuffer e ++ payload ps ef ft fv) sc1)
                  (s0 + 4) Hflat Hsc1)
        as (Hw1 & Hhl & sc2 & Hw2 & Hsc2).
      cbn [buffer auxBuffer] in Hhl, Hw2.
      rewrite length_app, Nat2Z.inj_add in Hhl, Hw2.
      rewrite Hw1, Hw2, length_app, Nat2Z.inj_add, Hhl, <- !app_assoc.
      split; [f_equal; lia |].
      split; [cbn [uint_bytes length]; lia |].
      exists sc2. split; [reflexivity | exact Hsc2].
Qed.

(** X17: [encodeStruct] on a struct whose fields are all exported and are
    bools, sized unsigned integers, byte arrays, strings or slices (whose
    element encoders do not panic), on a state with an empty tail, appends
    the head and then the tail: in the head each fixed field is inline and
    each variable field is a four-byte offset, the head size plus the
    length of the payloads of the variable fields before it; the tail is
    the payloads of the variable fields in order.  The head is as long as
    the head size, so the first offset points just behind the head. *)
Theorem encodeStruct_writes_head_then_tail :
  forall (pool_scratch : list Z) (fs : list (bool * type)) (vs : list value)
         (e : encodeState),
    length pool_scratch = 32%nat ->
    flat_fields pool_scratch fs vs = true ->
    auxBuffer e = [] ->
    length (scratch e) = 32%nat ->
    exists sc',
      call pool_scratch fn_encodeStruct e (TStruct fs) (VStruct vs)
      = (mkEncodeState
           (buffer e ++ struct_head pool_scratch (head_size fs) fs vs 0
                     ++ struct_tail pool_scratch fs vs)
           [] sc', Nil)
      /\ Z.of_nat (length (struct_head pool_scratch (head_size fs) fs vs 0))
         = head_size fs.
Proof.
  intros ps fs vs e Hps Hflat Haux Hsc.
  destruct (flat_struct_walk ps (head_size fs) Hps fs vs 0%nat e 0 Hflat Hsc)
    as (Hw1 & Hhl & sc' & Hw2 & Hsc').
  rewrite Haux in Hhl, Hw2. cbn [length app] in Hhl, Hw2.
  exists sc'. split; [| exact Hhl].
  rewrite call_eq. unfold encodeStruct, walkStruct.
  rewrite Hw1. cbv beta iota. rewrite Z.add_0_l, Hw2.
  unfold auxBuffer_Reset, buffer_Write. cbn [buffer auxBuffer scratch].
  rewrite <- app_assoc. reflexivity.
Qed.

Lemma encodeStruct_writes_head_then_tail_witness :
  exists sc',
    call (replicate 32 0) fn_encodeStruct (mkEncodeState [] [] (replicate 32 0))
      (TStruct [(true, TBool); (true, TUint8); (true, TSlice TUint8)])
      (VStruct [VBool false; VUint 255; byteSlice [255]])
    = (mkEncodeState
         ([] ++ struct_head (replicate 32 0)
                  (head_size [(true, TBool); (true, TUint8); (true, TSlice TUint8)])
                  [(true, TBool); (true, TUint8); (true, TSlice TUint8)]
                  [VBool false; VUint 255; byteSlice [255]] 0
             ++ struct_tail (replicate 32 0)
                  [(true, TBool); (true, TUint8); (true, TSlice TUint8)]
                  [VBool false; VUint 255; byteSlice [255]])
         [] sc', Nil)
    /\ Z.of_nat (length (struct_head (replicate 32 0)
                           (head_size [(true, TBool); (true, TUint8); (true, TSlice TUint8)])
                           [(true, TBool); (true, TUint8); (true, TSlice TUint8)]
                           [VBool false; VUint 255; byteSlice [255]] 0))
       = head_size [(true, TBool); (true, TUint8); (true, TSlice TUint8)].
Proof.
  apply (encodeStruct_writes_head_then_tail (replicate 32 0)
           [(true, TBool); (true, TUint8); (true, TSlice TUint8)]
           [VBool false; VUint 255; byteSlice [255]]
           (mkEncodeState [] [] (replicate 32 0))); reflexivity.
Defined.

Example struct_head_and_tail :
  struct_head (replicate 32 0)
    (head_size [(true, TBool); (true, TUint8); (true, TSlice TUint8)])
    [(true, TBool); (true, TUint8); (true, TSlice TUint8)]
    [VBool false; VUint 255; byteSlice [255]] 0
  = [0; 255; 6; 0; 0; 0]
  /\ struct_tail (replicate 32 0)
       [(true, TBool); (true, TUint8); (true, TSlice TUint8)]
       [VBool false; VUint 255; byteSlice [255]]
     = [255].
Proof. split; vm_compute; reflexivity. Qed.
